(** * xmongodb storage core: a shallow embedding and its verified properties

    The development follows the layering of [server/storage]:
    byte strings and their order, [RecordId], the B+Tree of
    [server/storage/btree/btree.go] (nodes live in an arena and point to
    each other by index, as the Go nodes point to each other by address),
    the record store, the index, the recovery unit, the session and the
    KV engine. *)

From Stdlib Require Import ZArith Lia List Bool Strings.Byte String.
From stdpp Require Import base option list sorting gmap strings.

Local Open Scope Z_scope.

(** ** Byte strings *)

(** Go's [[]byte]. A nil slice and an empty slice are both [[]]: [len],
    [bytes.Compare] and [bytes.Equal] do not tell them apart. Where the
    source tests a slice against [nil] the argument is an [option]. *)
Abbreviation bytes := (list byte).

#[global] Instance byte_eq_dec : EqDecision byte := Byte.byte_eq_dec.

Definition byte_val (b : byte) : Z := Z.of_N (Byte.to_N b).

(** [byte(x)] for an integer [x]: the low eight bits. *)
Definition byte_of_Z (x : Z) : byte :=
  match Byte.of_N (Z.to_N (x mod 256)) with
  | Some b => b
  | None => x00
  end.

(** [bytes.Compare]: lexicographic, result in {-1, 0, 1}. *)
Fixpoint bytes_Compare (a b : bytes) : Z :=
  match a, b with
  | [], [] => 0
  | [], _ :: _ => -1
  | _ :: _, [] => 1
  | x :: a', y :: b' =>
      if byte_val x <? byte_val y then -1
      else if byte_val y <? byte_val x then 1
      else bytes_Compare a' b'
  end.

(** [bytes.Equal]. *)
Definition bytes_Equal (a b : bytes) : bool := bool_decide (a = b).

(** ** Errors

    The Go code builds its errors with [fmt.Errorf]; one constructor per
    message, [ErrWrap] for the [%w] wrappers. *)
Inductive WrapSite :=
  | WrapInsertRecord      (* "插入记录失败: %w" *)
  | WrapUpdateRecord      (* "更新记录失败: %w" *)
  | WrapDeleteRecord      (* "删除记录失败: %w" *)
  | WrapIndexInsert       (* "插入索引失败: %w" *)
  | WrapIndexRemove       (* "删除索引失败: %w" *)
  | WrapCommitChange      (* "提交变更失败: %w" *)
  | WrapRollbackChange    (* "回滚变更失败: %w" *)
  | WrapSessionEnd        (* "结束会话时回滚事务失败: %w" *)
  | WrapSessionStart.     (* "启动会话失败: %w" *)

Inductive Error :=
  | ErrEmptyKey                      (* btree: "键不能为空" *)
  | ErrKeyNotFound                   (* btree: "键不存在" *)
  | ErrNullRecordId                  (* "RecordId 不能为空" *)
  | ErrRecordIdNoBytes               (* "无法将 RecordId 转换为字节" *)
  | ErrRecordExists                  (* "RecordId %s 已存在" *)
  | ErrRecordMissing                 (* "RecordId %s 不存在" *)
  | ErrEmptyIndexKey                 (* "索引键不能为空" *)
  | ErrUniqueViolation (key : bytes) (* "唯一索引约束违反: 键 %x 已存在" *)
  | ErrTxnAlreadyActive              (* "事务已经处于活动状态" *)
  | ErrNoTxnToCommit                 (* "没有活动的事务可以提交" *)
  | ErrNoTxnToRollback               (* "没有活动的事务可以回滚" *)
  | ErrRegisterNotActive             (* "只能在活动事务中注册变更" *)
  | ErrSessionAlreadyActive          (* "会话 %s 已经处于活动状态" *)
  | ErrSessionNotActive              (* "会话 %s 未激活" *)
  | ErrSessionInTxn                  (* "会话 %s 已经在事务中" *)
  | ErrSessionNoTxn                  (* "会话 %s 没有活动的事务" *)
  | ErrEngineAlreadyRunning          (* "KV 引擎已经在运行" *)
  | ErrEngineNotRunning              (* "KV 引擎未运行" *)
  | ErrSessionLimit (max : Z)        (* "超过最大会话数限制: %d" *)
  | ErrStoreExists (ns : string)     (* "RecordStore %s 已存在" *)
  | ErrStoreMissing (ns : string)    (* "RecordStore %s 不存在" *)
  | ErrIndexExists (ns name : string)   (* "索引 %s.%s 已存在" *)
  | ErrIndexMissing (ns name : string)  (* "索引 %s.%s 不存在" *)
  | ErrCallback (msg : string)       (* an error made by a caller's callback *)
  | ErrWrap (site : WrapSite) (e : Error).

(** Outcome of an operation that either succeeds, returns a Go [error]
    without having changed anything, or does not return at all (a Go
    panic, or the model's fuel ran out). *)
Inductive res (A : Type) :=
  | Ok (a : A)
  | Err (e : Error)
  | Stuck.
Arguments Ok {A} a.
Arguments Err {A} e.
Arguments Stuck {A}.

Definition of_option {A} (o : option A) : res A :=
  match o with Some a => Ok a | None => Stuck end.

(** ** The B+Tree ([server/storage/btree/btree.go]) *)
Module btree.

(** A [*Node] is an index into the arena, [nil] is [None]. *)
Record Node := mkNode {
  isLeaf : bool;
  keys : list bytes;
  values : list bytes;
  children : list nat;
  next : option nat;
  parent : option nat;
}.

Record BTree := mkBTree {
  nodes : list Node;
  root : nat;
  order : Z;
}.

Definition newLeafNode : Node :=
  {| isLeaf := true; keys := []; values := []; children := [];
     next := None; parent := None |}.

Definition newInternalNode : Node :=
  {| isLeaf := false; keys := []; values := []; children := [];
     next := None; parent := None |}.

Definition set_keys (ks : list bytes) (n : Node) : Node :=
  {| isLeaf := isLeaf n; keys := ks; values := values n;
     children := children n; next := next n; parent := parent n |}.
Definition set_values (vs : list bytes) (n : Node) : Node :=
  {| isLeaf := isLeaf n; keys := keys n; values := vs;
     children := children n; next := next n; parent := parent n |}.
Definition set_children (cs : list nat) (n : Node) : Node :=
  {| isLeaf := isLeaf n; keys := keys n; values := values n;
     children := cs; next := next n; parent := parent n |}.
Definition set_next (nx : option nat) (n : Node) : Node :=
  {| isLeaf := isLeaf n; keys := keys n; values := values n;
     children := children n; next := nx; parent := parent n |}.
Definition set_parent (p : option nat) (n : Node) : Node :=
  {| isLeaf := isLeaf n; keys := keys n; values := values n;
     children := children n; next := next n; parent := p |}.

(** Arena operations: allocation appends, so the address of a new node
    is the old length; a store through a pointer rewrites its slot. *)
Definition alloc (h : list Node) (n : Node) : list Node * nat :=
  (h ++ [n], length h).

Definition modify (h : list Node) (id : nat) (f : Node → Node) : option (list Node) :=
  n ← h !! id; Some (<[id := f n]> h).

Definition with_nodes (h : list Node) (t : BTree) : BTree :=
  {| nodes := h; root := root t; order := order t |}.

Definition NewBTree (order : Z) : BTree :=
  {| nodes := [newLeafNode]; root := 0%nat;
     order := if order <? 3 then 3 else order |}.

(** [for i < len(keys) && bytes.Compare(key, keys[i]) >= 0 { i++ }] *)
Fixpoint descend_pos (key : bytes) (ks : list bytes) : nat :=
  match ks with
  | [] => 0%nat
  | k :: ks' => if 0 <=? bytes_Compare key k then S (descend_pos key ks') else 0%nat
  end.

(** [for i < len(keys) && bytes.Compare(key, keys[i]) > 0 { i++ }] *)
Fixpoint insert_pos (key : bytes) (ks : list bytes) : nat :=
  match ks with
  | [] => 0%nat
  | k :: ks' => if 0 <? bytes_Compare key k then S (insert_pos key ks') else 0%nat
  end.

(** The loop of [findLeaf], started at node [id]. *)
Fixpoint findLeaf_from (fuel : nat) (h : list Node) (id : nat) (key : bytes) : option nat :=
  match fuel with
  | O => None
  | S fuel' =>
      n ← h !! id;
      if isLeaf n then Some id
      else c ← children n !! descend_pos key (keys n);
           findLeaf_from fuel' h c key
  end.

(** A descent visits each node at most once, so the number of nodes
    bounds the number of iterations. *)
Definition findLeaf (t : BTree) (key : bytes) : option nat :=
  findLeaf_from (S (length (nodes t))) (nodes t) (root t) key.

(** First index whose key equals [key] ([for i, k := range leaf.keys]). *)
Fixpoint index_of (key : bytes) (ks : list bytes) : option nat :=
  match ks with
  | [] => None
  | k :: ks' => if bytes_Equal k key then Some 0%nat else S <$> index_of key ks'
  end.

Definition Get (t : BTree) (key : bytes) : option (option bytes) :=
  if (length key =? 0)%nat then Some None
  else
    leaf ← findLeaf t key;
    n ← nodes t !! leaf;
    match index_of key (keys n) with
    | Some i => v ← values n !! i; Some (Some v)
    | None => Some None
    end.

Definition insert_at {A} (i : nat) (x : A) (l : list A) : list A :=
  take i l ++ x :: drop i l.

Definition remove_at {A} (i : nat) (l : list A) : list A :=
  take i l ++ drop (S i) l.

Definition insertIntoLeaf_node (n : Node) (key value : bytes) : option Node :=
  let i := insert_pos key (keys n) in
  match keys n !! i with
  | Some k =>
      if bytes_Equal key k then
        if (i <? length (values n))%nat
        then Some (set_values (<[i := value]> (values n)) n)
        else None
      else Some (set_values (insert_at i value (values n))
                   (set_keys (insert_at i key (keys n)) n))
  | None => Some (set_values (insert_at i value (values n))
                    (set_keys (insert_at i key (keys n)) n))
  end.

Definition insertIntoLeaf (t : BTree) (leaf : nat) (key value : bytes) : option BTree :=
  n ← nodes t !! leaf;
  n' ← insertIntoLeaf_node n key value;
  Some (with_nodes (<[leaf := n']> (nodes t)) t).

(** [for _, child := range newNode.children { child.parent = newNode }] *)
Fixpoint reparent (h : list Node) (cs : list nat) (p : nat) : option (list Node) :=
  match cs with
  | [] => Some h
  | c :: cs' => h' ← modify h c (set_parent (Some p)); reparent h' cs' p
  end.

(** [splitInternal], with the call to [insertIntoParent] abstracted as
    [up] so that the two functions can be defined by recursion on the
    same fuel. *)
Definition splitInternal_with (up : BTree → nat → bytes → nat → option BTree)
    (t : BTree) (node : nat) : option BTree :=
  n ← nodes t !! node;
  let mid := (length (keys n) / 2)%nat in
  promoteKey ← keys n !! mid;
  let '(h1, newNode) :=
    alloc (nodes t)
      (set_children (drop (S mid) (children n))
         (set_keys (drop (S mid) (keys n)) newInternalNode)) in
  h2 ← reparent h1 (drop (S mid) (children n)) newNode;
  h3 ← modify h2 node (λ m, set_children (take (S mid) (children m))
                              (set_keys (take mid (keys m)) m));
  n3 ← h3 !! node;
  match parent n3 with
  | None =>
      let '(h4, newRoot) :=
        alloc h3 (set_children [node; newNode]
                    (set_keys [promoteKey] newInternalNode)) in
      h5 ← modify h4 node (set_parent (Some newRoot));
      h6 ← modify h5 newNode (set_parent (Some newRoot));
      Some {| nodes := h6; root := newRoot; order := order t |}
  | Some p =>
      t4 ← up (with_nodes h3 t) p promoteKey newNode;
      n4 ← nodes t4 !! node;
      h5 ← modify (nodes t4) newNode (set_parent (parent n4));
      Some (with_nodes h5 t4)
  end.

Fixpoint insertIntoParent (fuel : nat) (t : BTree) (parent : nat) (key : bytes)
    (rightChild : nat) : option BTree :=
  match fuel with
  | O => None
  | S fuel' =>
      n ← nodes t !! parent;
      let i := insert_pos key (keys n) in
      if (S i <=? length (children n))%nat then
        let n' := set_children (insert_at (S i) rightChild (children n))
                    (set_keys (insert_at i key (keys n)) n) in
        let t' := with_nodes (<[parent := n']> (nodes t)) t in
        if order t <=? Z.of_nat (length (keys n'))
        then splitInternal_with (insertIntoParent fuel') t' parent
        else Some t'
      else None
  end.

Definition splitInternal (fuel : nat) : BTree → nat → option BTree :=
  splitInternal_with (insertIntoParent fuel).

Definition splitLeaf (fuel : nat) (t : BTree) (leaf : nat) : option BTree :=
  n ← nodes t !! leaf;
  let mid := (length (keys n) / 2)%nat in
  let '(h1, newLeaf) :=
    alloc (nodes t)
      (set_next (next n)
         (set_values (drop mid (values n))
            (set_keys (drop mid (keys n)) newLeafNode))) in
  h2 ← modify h1 leaf (λ m, set_next (Some newLeaf)
                              (set_values (take mid (values m))
                                 (set_keys (take mid (keys m)) m)));
  promoteKey ← drop mid (keys n) !! 0%nat;
  n2 ← h2 !! leaf;
  match parent n2 with
  | None =>
      let '(h3, newRoot) :=
        alloc h2 (set_children [leaf; newLeaf]
                    (set_keys [promoteKey] newInternalNode)) in
      h4 ← modify h3 leaf (set_parent (Some newRoot));
      h5 ← modify h4 newLeaf (set_parent (Some newRoot));
      Some {| nodes := h5; root := newRoot; order := order t |}
  | Some p =>
      t3 ← insertIntoParent fuel (with_nodes h2 t) p promoteKey newLeaf;
      n3 ← nodes t3 !! leaf;
      h4 ← modify (nodes t3) newLeaf (set_parent (parent n3));
      Some (with_nodes h4 t3)
  end.

Definition Insert (t : BTree) (key value : bytes) : res BTree :=
  if (length key =? 0)%nat then Err ErrEmptyKey
  else of_option (
    leaf ← findLeaf t key;
    t1 ← insertIntoLeaf t leaf key value;
    n ← nodes t1 !! leaf;
    if order t1 <=? Z.of_nat (length (keys n))
    then splitLeaf (S (length (nodes t1))) t1 leaf
    else Some t1).

Definition Delete (t : BTree) (key : bytes) : res BTree :=
  if (length key =? 0)%nat then Err ErrEmptyKey
  else
    match findLeaf t key with
    | None => Stuck
    | Some leaf =>
        match nodes t !! leaf with
        | None => Stuck
        | Some n =>
            match index_of key (keys n) with
            | Some i =>
                if (i <? length (values n))%nat then
                  Ok (with_nodes
                        (<[leaf := set_values (remove_at i (values n))
                                     (set_keys (remove_at i (keys n)) n)]> (nodes t)) t)
                else Stuck
            | None => Err ErrKeyNotFound
            end
        end
    end.

(** The inner loop of [Range] over one leaf: [inl] is the early
    [return], [inr] falls through to [leaf = leaf.next]. *)
Fixpoint range_leaf (ks vs : list bytes) (startKey : bytes) (endKey : option bytes)
    (acc : list bytes * list bytes)
    : option (list bytes * list bytes + list bytes * list bytes) :=
  match ks with
  | [] => Some (inr acc)
  | k :: ks' =>
      if 0 <=? bytes_Compare k startKey then
        if match endKey with
           | Some e => 0 <=? bytes_Compare k e
           | None => false
           end
        then Some (inl acc)
        else
          match vs with
          | v :: vs' => range_leaf ks' vs' startKey endKey (acc.1 ++ [k], acc.2 ++ [v])
          | [] => None
          end
      else range_leaf ks' (tail vs) startKey endKey acc
  end.

Fixpoint range_chain (fuel : nat) (h : list Node) (leaf : option nat)
    (startKey : bytes) (endKey : option bytes) (acc : list bytes * list bytes)
    : option (list bytes * list bytes) :=
  match leaf with
  | None => Some acc
  | Some id =>
      match fuel with
      | O => None
      | S fuel' =>
          n ← h !! id;
          r ← range_leaf (keys n) (values n) startKey endKey acc;
          match r with
          | inl out => Some out
          | inr acc' => range_chain fuel' h (next n) startKey endKey acc'
          end
      end
  end.

(** [Range(startKey, endKey)]; a nil [startKey] is [[]]. *)
Definition Range (t : BTree) (startKey : bytes) (endKey : option bytes)
    : option (list bytes * list bytes) :=
  leaf ← findLeaf t startKey;
  range_chain (length (nodes t)) (nodes t) (Some leaf) startKey endKey ([], []).

(** The loop of [findFirstLeaf], started at node [id]:
    [for !node.isLeaf { node = node.children[0] }]. *)
Fixpoint findFirstLeaf_from (fuel : nat) (h : list Node) (id : nat) : option nat :=
  match fuel with
  | O => None
  | S fuel' =>
      n ← h !! id;
      if isLeaf n then Some id
      else c ← children n !! 0%nat;
           findFirstLeaf_from fuel' h c
  end.

Definition findFirstLeaf (t : BTree) : option nat :=
  findFirstLeaf_from (S (length (nodes t))) (nodes t) (root t).

(** Go's [int], 64 bits wide. *)
Definition wrap_int (x : Z) : Z := (x + 2 ^ 63) mod 2 ^ 64 - 2 ^ 63.

(** [for leaf != nil { count += len(leaf.keys); leaf = leaf.next }] *)
Fixpoint size_chain (fuel : nat) (h : list Node) (leaf : option nat) (count : Z)
    : option Z :=
  match leaf with
  | None => Some count
  | Some id =>
      match fuel with
      | O => None
      | S fuel' =>
          n ← h !! id;
          size_chain fuel' h (next n) (wrap_int (count + Z.of_nat (length (keys n))))
      end
  end.

Definition Size (t : BTree) : option Z :=
  leaf ← findFirstLeaf t;
  size_chain (length (nodes t)) (nodes t) (Some leaf) 0.

End btree.

(** ** Machine integers *)

(** Two's-complement wrap-around of [int8] and [int64] arithmetic. *)
Definition wrap8 (x : Z) : Z := (x + 128) mod 256 - 128.
Definition wrap64 (x : Z) : Z := (x + 2 ^ 63) mod 2 ^ 64 - 2 ^ 63.

(** ** RecordId ([server/storage/record_id.go]) *)

Record RecordId := mkRecordId {
  repr : Z;      (* int8: 0 = null, 1 = int64, 2 = bytes *)
  long : Z;      (* int64 *)
  data : bytes;
}.

Definition NewRecordIdFromLong (id : Z) : RecordId :=
  {| repr := 1; long := id; data := [] |}.

Definition NewRecordIdFromBytes (d : bytes) : RecordId :=
  {| repr := 2; long := 0; data := d |}.

Definition NullRecordId : RecordId :=
  {| repr := 0; long := 0; data := [] |}.

Definition IsNull (r : RecordId) : bool := repr r =? 0.
Definition IsLong (r : RecordId) : bool := repr r =? 1.

(** [binary.BigEndian.PutUint64(buf, v)] on a fresh 8-byte buffer. *)
Definition PutUint64 (v : Z) : bytes :=
  [byte_of_Z (Z.shiftr v 56); byte_of_Z (Z.shiftr v 48);
   byte_of_Z (Z.shiftr v 40); byte_of_Z (Z.shiftr v 32);
   byte_of_Z (Z.shiftr v 24); byte_of_Z (Z.shiftr v 16);
   byte_of_Z (Z.shiftr v 8); byte_of_Z v].

Definition AsBytes (r : RecordId) : bytes * bool :=
  if repr r =? 2 then (data r, true)
  else if repr r =? 1 then (PutUint64 (long r mod 2 ^ 64), true)
  else ([], false).

Definition AsLong (r : RecordId) : Z * bool :=
  if negb (repr r =? 1) then (0, false) else (long r, true).

(** The hand-written [compareBytes] of record_id.go: the common prefix
    is compared byte by byte, then the lengths. *)
Fixpoint compareBytes (a b : bytes) : Z :=
  match a, b with
  | x :: a', y :: b' =>
      if byte_val x <? byte_val y then -1
      else if byte_val y <? byte_val x then 1
      else compareBytes a' b'
  | [], [] => 0
  | [], _ :: _ => -1
  | _ :: _, [] => 1
  end.

Definition Compare (r other : RecordId) : Z :=
  if negb (repr r =? repr other) then wrap8 (repr r - repr other)
  else if repr r =? 0 then 0
  else if repr r =? 1 then
    if long r <? long other then -1
    else if long other <? long r then 1
    else 0
  else if repr r =? 2 then compareBytes (data r) (data other)
  else 0.

(** ** RecordStore ([server/storage/record_store.go]) *)

Record BTreeRecordStore := mkRecordStore {
  rs_tree : btree.BTree;
  numRecords : Z;      (* int64, updated with atomic.AddInt64 *)
  dataSize : Z;        (* int64 *)
  rs_namespace : string;
}.

Definition NewRecordStore (namespace : string) : BTreeRecordStore :=
  {| rs_tree := btree.NewBTree 128; numRecords := 0; dataSize := 0;
     rs_namespace := namespace |}.

Definition blen (b : bytes) : Z := Z.of_nat (length b).

Definition InsertRecord (rs : BTreeRecordStore) (recordId : RecordId) (d : bytes)
    : res BTreeRecordStore :=
  if IsNull recordId then Err ErrNullRecordId
  else
    let '(key, ok) := AsBytes recordId in
    if negb ok then Err ErrRecordIdNoBytes
    else
      match btree.Get (rs_tree rs) key with
      | None => Stuck
      | Some (Some _) => Err ErrRecordExists
      | Some None =>
          match btree.Insert (rs_tree rs) key d with
          | Stuck => Stuck
          | Err e => Err (ErrWrap WrapInsertRecord e)
          | Ok t' =>
              Ok {| rs_tree := t';
                    numRecords := wrap64 (numRecords rs + 1);
                    dataSize := wrap64 (dataSize rs + blen d);
                    rs_namespace := rs_namespace rs |}
          end
      end.

Definition UpdateRecord (rs : BTreeRecordStore) (recordId : RecordId) (d : bytes)
    : res BTreeRecordStore :=
  if IsNull recordId then Err ErrNullRecordId
  else
    let '(key, ok) := AsBytes recordId in
    if negb ok then Err ErrRecordIdNoBytes
    else
      match btree.Get (rs_tree rs) key with
      | None => Stuck
      | Some None => Err ErrRecordMissing
      | Some (Some oldData) =>
          match btree.Insert (rs_tree rs) key d with
          | Stuck => Stuck
          | Err e => Err (ErrWrap WrapUpdateRecord e)
          | Ok t' =>
              Ok {| rs_tree := t';
                    numRecords := numRecords rs;
                    dataSize := wrap64 (dataSize rs + (blen d - blen oldData));
                    rs_namespace := rs_namespace rs |}
          end
      end.

Definition DeleteRecord (rs : BTreeRecordStore) (recordId : RecordId)
    : res BTreeRecordStore :=
  if IsNull recordId then Err ErrNullRecordId
  else
    let '(key, ok) := AsBytes recordId in
    if negb ok then Err ErrRecordIdNoBytes
    else
      match btree.Get (rs_tree rs) key with
      | None => Stuck
      | Some None => Err ErrRecordMissing
      | Some (Some d) =>
          match btree.Delete (rs_tree rs) key with
          | Stuck => Stuck
          | Err e => Err (ErrWrap WrapDeleteRecord e)
          | Ok t' =>
              Ok {| rs_tree := t';
                    numRecords := wrap64 (numRecords rs + -1);
                    dataSize := wrap64 (dataSize rs + - blen d);
                    rs_namespace := rs_namespace rs |}
          end
      end.

Definition GetRecord (rs : BTreeRecordStore) (recordId : RecordId) : res bytes :=
  if IsNull recordId then Err ErrNullRecordId
  else
    let '(key, ok) := AsBytes recordId in
    if negb ok then Err ErrRecordIdNoBytes
    else
      match btree.Get (rs_tree rs) key with
      | None => Stuck
      | Some None => Err ErrRecordMissing
      | Some (Some d) => Ok d
      end.

Definition NumRecords (rs : BTreeRecordStore) : Z := numRecords rs.
Definition DataSize (rs : BTreeRecordStore) : Z := dataSize rs.

Definition Truncate (rs : BTreeRecordStore) : BTreeRecordStore :=
  {| rs_tree := btree.NewBTree 128; numRecords := 0; dataSize := 0;
     rs_namespace := rs_namespace rs |}.

(** [btreeCursor]: the materialised result of a range query and a
    position in it. *)
Record btreeCursor := mkCursor {
  c_keys : list bytes;
  c_values : list bytes;
  c_index : Z;
}.

Definition cursor_Next (c : btreeCursor) : btreeCursor * bool :=
  let c' := {| c_keys := c_keys c; c_values := c_values c; c_index := c_index c + 1 |} in
  (c', c_index c' <? Z.of_nat (length (c_keys c'))).

Definition cursor_RecordId (c : btreeCursor) : RecordId :=
  if (c_index c <? 0) || (Z.of_nat (length (c_keys c)) <=? c_index c) then NullRecordId
  else match c_keys c !! Z.to_nat (c_index c) with
       | Some k => NewRecordIdFromBytes k
       | None => NullRecordId
       end.

Definition cursor_Data (c : btreeCursor) : bytes :=
  if (c_index c <? 0) || (Z.of_nat (length (c_values c)) <=? c_index c) then []
  else match c_values c !! Z.to_nat (c_index c) with
       | Some v => v
       | None => []
       end.

(** The client loop [for cursor.Next() { cursor.RecordId(); cursor.Data() }];
    [n] bounds the iterations and [length (c_keys c)] always suffices. *)
Fixpoint cursor_loop (n : nat) (c : btreeCursor) : list (RecordId * bytes) :=
  match n with
  | O => []
  | S n' =>
      let '(c', more) := cursor_Next c in
      if more then (cursor_RecordId c', cursor_Data c') :: cursor_loop n' c' else []
  end.

Definition cursor_all (c : btreeCursor) : list (RecordId * bytes) :=
  cursor_loop (length (c_keys c)) c.

Definition Scan (rs : BTreeRecordStore) (startId : RecordId) : res btreeCursor :=
  let start :=
    if negb (IsNull startId) then
      let '(k, ok) := AsBytes startId in
      if ok then Ok k else Err ErrRecordIdNoBytes
    else Ok [x00] in
  match start with
  | Ok startKey =>
      match btree.Range (rs_tree rs) startKey None with
      | Some (ks, vs) => Ok {| c_keys := ks; c_values := vs; c_index := -1 |}
      | None => Stuck
      end
  | Err e => Err e
  | Stuck => Stuck
  end.

(** ** Index (the [BTreeIndex] of the sorted-data interface) *)

Record BTreeIndex := mkIndex {
  idx_tree : btree.BTree;
  idx_name : string;
  unique : bool;
  numEntries : Z;   (* int64 *)
}.

Definition NewSortedDataInterface (name : string) (unique : bool) : BTreeIndex :=
  {| idx_tree := btree.NewBTree 128; idx_name := name; unique := unique;
     numEntries := 0 |}.

(** [[keyLen (4 bytes, big endian)][key][recordId]] *)
Definition makeCompositeKey (key : bytes) (recordId : RecordId) : bytes :=
  [byte_of_Z (Z.shiftr (blen key) 24); byte_of_Z (Z.shiftr (blen key) 16);
   byte_of_Z (Z.shiftr (blen key) 8); byte_of_Z (blen key)]
  ++ key ++ (AsBytes recordId).1.

Definition makeNextKey (key : bytes) : bytes :=
  makeCompositeKey (key ++ [xff]) NullRecordId.

Definition keyExists (idx : BTreeIndex) (key : bytes) : option bool :=
  r ← btree.Range (idx_tree idx) (makeCompositeKey key NullRecordId)
        (Some (makeNextKey key));
  Some (0 <? Z.of_nat (length r.1))%Z.

Definition idx_Insert (idx : BTreeIndex) (key : bytes) (recordId : RecordId)
    : res BTreeIndex :=
  if (length key =? 0)%nat then Err ErrEmptyIndexKey
  else if IsNull recordId then Err ErrNullRecordId
  else
    let check :=
      if unique idx then
        match keyExists idx key with
        | None => Stuck
        | Some true => Err (ErrUniqueViolation key)
        | Some false => Ok tt
        end
      else Ok tt in
    match check with
    | Stuck => Stuck
    | Err e => Err e
    | Ok _ =>
        match btree.Insert (idx_tree idx) (makeCompositeKey key recordId)
                (AsBytes recordId).1 with
        | Stuck => Stuck
        | Err e => Err (ErrWrap WrapIndexInsert e)
        | Ok t' =>
            Ok {| idx_tree := t'; idx_name := idx_name idx; unique := unique idx;
                  numEntries := wrap64 (numEntries idx + 1) |}
        end
    end.

Definition idx_Remove (idx : BTreeIndex) (key : bytes) (recordId : RecordId)
    : res BTreeIndex :=
  if (length key =? 0)%nat then Err ErrEmptyIndexKey
  else if IsNull recordId then Err ErrNullRecordId
  else
    match btree.Delete (idx_tree idx) (makeCompositeKey key recordId) with
    | Stuck => Stuck
    | Err e => Err (ErrWrap WrapIndexRemove e)
    | Ok t' =>
        Ok {| idx_tree := t'; idx_name := idx_name idx; unique := unique idx;
              numEntries := wrap64 (numEntries idx - 1) |}
    end.

Definition Seek (idx : BTreeIndex) (key : bytes) : res btreeCursor :=
  if (length key =? 0)%nat then Err ErrEmptyIndexKey
  else
    match btree.Range (idx_tree idx) (makeCompositeKey key NullRecordId)
            (Some (makeNextKey key)) with
    | Some (ks, vs) => Ok {| c_keys := ks; c_values := vs; c_index := -1 |}
    | None => Stuck
    end.

Definition SeekRange (idx : BTreeIndex) (startKey endKey : option bytes)
    : res btreeCursor :=
  let start := match startKey with
               | Some s => makeCompositeKey s NullRecordId
               | None => []
               end in
  let end_ := (λ e, makeCompositeKey e NullRecordId) <$> endKey in
  match btree.Range (idx_tree idx) start end_ with
  | Some (ks, vs) => Ok {| c_keys := ks; c_values := vs; c_index := -1 |}
  | None => Stuck
  end.

Definition NumEntries (idx : BTreeIndex) : Z := numEntries idx.
Definition IsEmpty (idx : BTreeIndex) : bool := NumEntries idx =? 0.

Definition Clear (idx : BTreeIndex) : BTreeIndex :=
  {| idx_tree := btree.NewBTree 128; idx_name := idx_name idx;
     unique := unique idx; numEntries := 0 |}.

(** [btreeIndexCursor.Key]: the application key inside a composite key. *)
Definition icursor_Key (c : btreeCursor) : option bytes :=
  if (c_index c <? 0) || (Z.of_nat (length (c_keys c)) <=? c_index c) then None
  else
    match c_keys c !! Z.to_nat (c_index c) with
    | None => None
    | Some ck =>
        match ck with
        | b0 :: b1 :: b2 :: b3 :: rest =>
            let keyLen :=
              Z.lor (Z.lor (Z.lor (Z.shiftl (byte_val b0) 24) (Z.shiftl (byte_val b1) 16))
                       (Z.shiftl (byte_val b2) 8)) (byte_val b3) in
            if blen ck <? 4 + keyLen then None
            else Some (take (Z.to_nat keyLen) rest)
        | _ => None
        end
    end.

(** [btreeIndexCursor.RecordId] reads the stored value. *)
Definition icursor_RecordId (c : btreeCursor) : RecordId :=
  if (c_index c <? 0) || (Z.of_nat (length (c_values c)) <=? c_index c) then NullRecordId
  else match c_values c !! Z.to_nat (c_index c) with
       | Some v => NewRecordIdFromBytes v
       | None => NullRecordId
       end.

(** The client loop [for cursor.Next() { cursor.Key(); cursor.RecordId() }]. *)
Fixpoint icursor_loop (n : nat) (c : btreeCursor) : list (option bytes * RecordId) :=
  match n with
  | O => []
  | S n' =>
      let '(c', more) := cursor_Next c in
      if more then (icursor_Key c', icursor_RecordId c') :: icursor_loop n' c' else []
  end.

Definition icursor_all (c : btreeCursor) : list (option bytes * RecordId) :=
  icursor_loop (length (c_keys c)) c.

(** [btreeCursor.Close] and [btreeIndexCursor.Close] drop the results. *)
Definition cursor_Close (c : btreeCursor) : btreeCursor :=
  {| c_keys := []; c_values := []; c_index := c_index c |}.

(** The errors of [parseCompositeKey]. *)
Inductive CompositeKeyError :=
  | ErrCompositeTooShort      (* "组合键太短" *)
  | ErrCompositeMalformed.    (* "组合键格式错误" *)

Definition parseCompositeKey (composite : bytes) : CompositeKeyError + bytes * RecordId :=
  match composite with
  | b0 :: b1 :: b2 :: b3 :: rest =>
      let keyLen :=
        Z.lor (Z.lor (Z.lor (Z.shiftl (byte_val b0) 24) (Z.shiftl (byte_val b1) 16))
                 (Z.shiftl (byte_val b2) 8)) (byte_val b3) in
      if blen composite <? 4 + keyLen then inl ErrCompositeMalformed
      else inr (take (Z.to_nat keyLen) rest,
                NewRecordIdFromBytes (drop (Z.to_nat keyLen) rest))
  | _ => inl ErrCompositeTooShort
  end.

(** ** RecoveryUnit ([server/storage/recovery_unit.go]) *)

Inductive TransactionState :=
  | TxnStateInactive
  | TxnStateActive
  | TxnStateCommitted
  | TxnStateAborted.

#[global] Instance TransactionState_eq_dec : EqDecision TransactionState.
Proof. solve_decision. Defined.

Section transactions.

(** What the callbacks of a [Change] can read and write: the part of the
    program state captured by the closures. The recovery unit holds its
    own mutex while it runs them, so they cannot re-enter it. *)
Context {World : Type}.

(** The [Change] interface: two methods with side effects. *)
Record Change := mkChange {
  change_Commit : World → World * option Error;
  change_Rollback : World → World * option Error;
}.

(** [SimpleChange]: a nil function does nothing and succeeds. *)
Definition NewSimpleChange (commitFunc rollbackFunc : option (World → World * option Error))
    : Change :=
  {| change_Commit := λ w, match commitFunc with Some f => f w | None => (w, None) end;
     change_Rollback := λ w, match rollbackFunc with Some f => f w | None => (w, None) end |}.

Record WiredTigerRecoveryUnit := mkRU {
  state : TransactionState;
  readTimestamp : Z;          (* time.Time, 0 is the zero time *)
  commitTimestamp : Z;
  changes : list Change;
  snapshot : gmap string bytes;
}.


Definition ru_BeginTransaction (now : Z) (ru : WiredTigerRecoveryUnit)
    : WiredTigerRecoveryUnit * option Error :=
  if decide (state ru = TxnStateActive) then (ru, Some ErrTxnAlreadyActive)
  else ({| state := TxnStateActive; readTimestamp := now;
           commitTimestamp := commitTimestamp ru; changes := [];
           snapshot := ∅ |}, None).

Definition RegisterChange (c : Change) (ru : WiredTigerRecoveryUnit)
    : WiredTigerRecoveryUnit * option Error :=
  if decide (state ru = TxnStateActive) then
    ({| state := state ru; readTimestamp := readTimestamp ru;
        commitTimestamp := commitTimestamp ru; changes := changes ru ++ [c];
        snapshot := snapshot ru |}, None)
  else (ru, Some ErrRegisterNotActive).

(** What a run of callbacks leaves behind: the world after the calls,
    the positions (in the change log) of the changes whose method was
    called, in call order, and the first error if one was returned. *)
Record callrun := mkRun {
  run_world : World;
  run_calls : list nat;
  run_err : option Error;
}.

(** [for _, change := range ru.changes { if err := change.Commit(); err != nil { ... return } }],
    [i] being the position of the head of [cs] in the log. *)
Fixpoint commit_loop (i : nat) (cs : list Change) (w : World) : callrun :=
  match cs with
  | [] => {| run_world := w; run_calls := []; run_err := None |}
  | c :: cs' =>
      let '(w', e) := change_Commit c w in
      match e with
      | Some err => {| run_world := w'; run_calls := [i]; run_err := Some err |}
      | None =>
          let r := commit_loop (S i) cs' w' in
          {| run_world := run_world r; run_calls := i :: run_calls r; run_err := run_err r |}
      end
  end.

(** [for i := len(ru.changes) - 1; i >= 0; i-- { if err := ru.changes[i].Rollback(); ... }];
    [n] is [i + 1]. *)
Fixpoint rollback_loop (n : nat) (cs : list Change) (w : World) : option callrun :=
  match n with
  | O => Some {| run_world := w; run_calls := []; run_err := None |}
  | S i =>
      c ← cs !! i;
      let '(w', e) := change_Rollback c w in
      match e with
      | Some err => Some {| run_world := w'; run_calls := [i]; run_err := Some err |}
      | None =>
          r ← rollback_loop i cs w';
          Some {| run_world := run_world r; run_calls := i :: run_calls r;
                  run_err := run_err r |}
      end
  end.

Definition with_state (s : TransactionState) (ru : WiredTigerRecoveryUnit)
    : WiredTigerRecoveryUnit :=
  {| state := s; readTimestamp := readTimestamp ru;
     commitTimestamp := commitTimestamp ru; changes := changes ru;
     snapshot := snapshot ru |}.

(** The result of [Commit] and [Rollback]: the unit afterwards, the
    callbacks' run, and the returned error. *)
Record txn_result := mkTxnResult {
  tr_unit : WiredTigerRecoveryUnit;
  tr_world : World;
  tr_calls : list nat;
  tr_err : option Error;
}.

Definition Commit (now : Z) (ru : WiredTigerRecoveryUnit) (w : World) : txn_result :=
  if decide (state ru = TxnStateActive) then
    let ts := if commitTimestamp ru =? 0 then now else commitTimestamp ru in
    let r := commit_loop 0 (changes ru) w in
    match run_err r with
    | Some err =>
        {| tr_unit := {| state := TxnStateAborted; readTimestamp := readTimestamp ru;
                         commitTimestamp := ts; changes := changes ru;
                         snapshot := snapshot ru |};
           tr_world := run_world r; tr_calls := run_calls r;
           tr_err := Some (ErrWrap WrapCommitChange err) |}
    | None =>
        {| tr_unit := {| state := TxnStateCommitted; readTimestamp := readTimestamp ru;
                         commitTimestamp := ts; changes := [];
                         snapshot := snapshot ru |};
           tr_world := run_world r; tr_calls := run_calls r; tr_err := None |}
    end
  else {| tr_unit := ru; tr_world := w; tr_calls := []; tr_err := Some ErrNoTxnToCommit |}.

Definition Rollback (ru : WiredTigerRecoveryUnit) (w : World) : option txn_result :=
  if decide (state ru = TxnStateActive) then
    r ← rollback_loop (length (changes ru)) (changes ru) w;
    match run_err r with
    | Some err =>
        Some {| tr_unit := ru; tr_world := run_world r; tr_calls := run_calls r;
                tr_err := Some (ErrWrap WrapRollbackChange err) |}
    | None =>
        Some {| tr_unit := {| state := TxnStateAborted; readTimestamp := readTimestamp ru;
                              commitTimestamp := commitTimestamp ru; changes := [];
                              snapshot := ∅ |};
                tr_world := run_world r; tr_calls := run_calls r; tr_err := None |}
    end
  else Some {| tr_unit := ru; tr_world := w; tr_calls := [];
               tr_err := Some ErrNoTxnToRollback |}.

Definition ru_IsActive (ru : WiredTigerRecoveryUnit) : bool :=
  bool_decide (state ru = TxnStateActive).
Definition ru_IsCommitted (ru : WiredTigerRecoveryUnit) : bool :=
  bool_decide (state ru = TxnStateCommitted).
Definition ru_IsAborted (ru : WiredTigerRecoveryUnit) : bool :=
  bool_decide (state ru = TxnStateAborted).

Definition GetReadTimestamp (ru : WiredTigerRecoveryUnit) : Z := readTimestamp ru.

(** [SetCommitTimestamp]; its one error is "只能在活动事务中设置提交时间戳",
    [false] here. *)
Definition SetCommitTimestamp (ts : Z) (ru : WiredTigerRecoveryUnit)
    : WiredTigerRecoveryUnit * bool :=
  if decide (state ru = TxnStateActive) then
    ({| state := state ru; readTimestamp := readTimestamp ru;
        commitTimestamp := ts; changes := changes ru; snapshot := snapshot ru |}, true)
  else (ru, false).

(** ** Session ([server/storage/session.go]) *)

Record WiredTigerSession := mkSession {
  sessionId : string;
  recoveryUnit : WiredTigerRecoveryUnit;
  active : bool;
  inTransaction : bool;
  createdAt : Z;
}.



(** The result of a session operation that may run callbacks. *)
Record session_result := mkSessionResult {
  sr_session : WiredTigerSession;
  sr_world : World;
  sr_calls : list nat;
  sr_err : option Error;
}.

Definition session_End (s : WiredTigerSession) (w : World) : option session_result :=
  if negb (active s) then
    Some {| sr_session := s; sr_world := w; sr_calls := []; sr_err := None |}
  else if inTransaction s then
    r ← Rollback (recoveryUnit s) w;
    match tr_err r with
    | Some err =>
        Some {| sr_session := {| sessionId := sessionId s; recoveryUnit := tr_unit r;
                                 active := active s; inTransaction := inTransaction s;
                                 createdAt := createdAt s |};
                sr_world := tr_world r; sr_calls := tr_calls r;
                sr_err := Some (ErrWrap WrapSessionEnd err) |}
    | None =>
        Some {| sr_session := {| sessionId := sessionId s; recoveryUnit := tr_unit r;
                                 active := false; inTransaction := false;
                                 createdAt := createdAt s |};
                sr_world := tr_world r; sr_calls := tr_calls r; sr_err := None |}
    end
  else
    Some {| sr_session := {| sessionId := sessionId s; recoveryUnit := recoveryUnit s;
                             active := false; inTransaction := inTransaction s;
                             createdAt := createdAt s |};
            sr_world := w; sr_calls := []; sr_err := None |}.

Definition session_BeginTransaction (now : Z) (s : WiredTigerSession)
    : WiredTigerSession * option Error :=
  if negb (active s) then (s, Some ErrSessionNotActive)
  else if inTransaction s then (s, Some ErrSessionInTxn)
  else
    let '(ru', e) := ru_BeginTransaction now (recoveryUnit s) in
    match e with
    | Some err => (s, Some err)
    | None => ({| sessionId := sessionId s; recoveryUnit := ru'; active := active s;
                  inTransaction := true; createdAt := createdAt s |}, None)
    end.

Definition session_CommitTransaction (now : Z) (s : WiredTigerSession) (w : World)
    : session_result :=
  if negb (inTransaction s) then
    {| sr_session := s; sr_world := w; sr_calls := []; sr_err := Some ErrSessionNoTxn |}
  else
    let r := Commit now (recoveryUnit s) w in
    match tr_err r with
    | Some err =>
        {| sr_session := {| sessionId := sessionId s; recoveryUnit := tr_unit r;
                            active := active s; inTransaction := inTransaction s;
                            createdAt := createdAt s |};
           sr_world := tr_world r; sr_calls := tr_calls r; sr_err := Some err |}
    | None =>
        {| sr_session := {| sessionId := sessionId s; recoveryUnit := tr_unit r;
                            active := active s; inTransaction := false;
                            createdAt := createdAt s |};
           sr_world := tr_world r; sr_calls := tr_calls r; sr_err := None |}
    end.

Definition session_RollbackTransaction (s : WiredTigerSession) (w : World)
    : option session_result :=
  if negb (inTransaction s) then
    Some {| sr_session := s; sr_world := w; sr_calls := []; sr_err := Some ErrSessionNoTxn |}
  else
    r ← Rollback (recoveryUnit s) w;
    match tr_err r with
    | Some err =>
        Some {| sr_session := {| sessionId := sessionId s; recoveryUnit := tr_unit r;
                                 active := active s; inTransaction := inTransaction s;
                                 createdAt := createdAt s |};
                sr_world := tr_world r; sr_calls := tr_calls r; sr_err := Some err |}
    | None =>
        Some {| sr_session := {| sessionId := sessionId s; recoveryUnit := tr_unit r;
                                 active := active s; inTransaction := false;
                                 createdAt := createdAt s |};
                sr_world := tr_world r; sr_calls := tr_calls r; sr_err := None |}
    end.

Definition GetSessionId (s : WiredTigerSession) : string := sessionId s.
Definition GetRecoveryUnit (s : WiredTigerSession) : WiredTigerRecoveryUnit :=
  recoveryUnit s.

Definition session_IsActive (s : WiredTigerSession) : bool := active s.
Definition session_InTransaction (s : WiredTigerSession) : bool := inTransaction s.

(** ** KV engine (the [WiredTigerKVEngine]) *)

Record KVEngineConfig := mkConfig {
  CacheSize : Z;
  MaxSessions : Z;
  CheckpointEnabled : bool;
}.

Record WiredTigerKVEngine := mkEngine {
  running : bool;
  recordStores : gmap string BTreeRecordStore;   (* namespace -> RecordStore *)
  indexes : gmap string BTreeIndex;              (* namespace.indexName -> index *)
  sessions : gmap string WiredTigerSession;
  sessionCount : Z;
  config : KVEngineConfig;
}.


Definition Start (e : WiredTigerKVEngine) : res WiredTigerKVEngine :=
  if running e then Err ErrEngineAlreadyRunning
  else Ok {| running := true; recordStores := recordStores e; indexes := indexes e;
             sessions := sessions e; sessionCount := sessionCount e; config := config e |}.

Definition makeIndexKey (namespace indexName : string) : string :=
  (namespace ++ "." ++ indexName)%string.



(** [len(key) > len(namespace) && key[:len(namespace)] == namespace] *)
Definition index_key_matches (namespace key : string) : bool :=
  (String.length namespace <? String.length key)%nat
  && String.eqb (substring 0 (String.length namespace) key) namespace.

(** [for key := range e.indexes { if ... { delete(e.indexes, key) } }] *)
Definition drop_matching_indexes (namespace : string) (m : gmap string BTreeIndex)
    : gmap string BTreeIndex :=
  foldr (λ key acc, if index_key_matches namespace key then delete key acc else acc)
    m (map_to_list m).*1.

Definition DropRecordStore (namespace : string) (e : WiredTigerKVEngine)
    : res WiredTigerKVEngine :=
  match recordStores e !! namespace with
  | None => Err (ErrStoreMissing namespace)
  | Some _ =>
      Ok {| running := running e; recordStores := delete namespace (recordStores e);
            indexes := drop_matching_indexes namespace (indexes e);
            sessions := sessions e; sessionCount := sessionCount e; config := config e |}
  end.



(** [for _, session := range e.sessions { session.End(ctx) }]. The map
    holds the session objects themselves, which their clients share with
    the engine; [ids] is the order in which the [range] visits the map,
    which Go leaves open. The error of [End] is dropped. *)
Fixpoint end_sessions (ids : list string) (m : gmap string WiredTigerSession) (w : World)
    : option (gmap string WiredTigerSession * World) :=
  match ids with
  | [] => Some (m, w)
  | id :: ids' =>
      s ← m !! id;
      r ← session_End s w;
      end_sessions ids' (<[id := sr_session r]> m) (sr_world r)
  end.

(** The result of [Stop]: the engine, the session objects it has let go
    of, as [End] left them, and the world after their callbacks. *)
Record stop_result := mkStopResult {
  st_engine : WiredTigerKVEngine;
  st_ended : gmap string WiredTigerSession;
  st_world : World;
}.

Definition Stop (ids : list string) (e : WiredTigerKVEngine) (w : World)
    : option stop_result :=
  if negb (running e) then Some {| st_engine := e; st_ended := ∅; st_world := w |}
  else
    '(m, w') ← end_sessions ids (sessions e) w;
    Some {| st_engine := {| running := false; recordStores := recordStores e;
                            indexes := indexes e; sessions := ∅;
                            sessionCount := sessionCount e; config := config e |};
            st_ended := m; st_world := w' |}.

Definition GetRecordStore (namespace : string) (e : WiredTigerKVEngine)
    : res BTreeRecordStore :=
  match recordStores e !! namespace with
  | Some rs => Ok rs
  | None => Err (ErrStoreMissing namespace)
  end.

Definition GetSortedDataInterface (namespace indexName : string)
    (e : WiredTigerKVEngine) : res BTreeIndex :=
  match indexes e !! makeIndexKey namespace indexName with
  | Some idx => Ok idx
  | None => Err (ErrIndexMissing namespace indexName)
  end.

End transactions.

Arguments Change : clear implicits.
Arguments WiredTigerRecoveryUnit : clear implicits.
Arguments WiredTigerSession : clear implicits.
Arguments WiredTigerKVEngine : clear implicits.
Arguments callrun : clear implicits.
Arguments txn_result : clear implicits.
Arguments session_result : clear implicits.
Arguments stop_result : clear implicits.

(** * Specification vocabulary

    Definitions used to state the properties: runs of callbacks, the
    concrete units, sessions, engines, trees and indexes of the examples,
    and the invariants of the B+Tree arena. *)

Section callbacks.

Context {World : Type}.

(** A sequence of callbacks run one after the other: every one of them
    succeeds in the world it is run in, and the world they leave. *)
Fixpoint all_succeed (acts : list (World → World * option Error)) w : Prop :=
  match acts with
  | [] => True
  | a :: acts' => (a w).2 = None ∧ all_succeed acts' (a w).1
  end.

Fixpoint world_after (acts : list (World → World * option Error)) w : World :=
  match acts with
  | [] => w
  | a :: acts' => world_after acts' (a w).1
  end.

End callbacks.

(** The world of these examples is a log that every callback appends
    its name to. *)
Definition logging_change (name : string) : Change (list string) :=
  {| change_Commit := λ w, (w ++ [("commit " ++ name)%string], None);
     change_Rollback := λ w, (w ++ [("rollback " ++ name)%string], None) |}.

Definition failing_rollback (name : string) : Change (list string) :=
  {| change_Commit := λ w, (w ++ [("commit " ++ name)%string], None);
     change_Rollback := λ w, (w ++ [("rollback " ++ name)%string],
                              Some (ErrCallback "rollback refused")) |}.

Definition active_unit (cs : list (Change (list string)))
    : WiredTigerRecoveryUnit (list string) :=
  {| state := TxnStateActive; readTimestamp := 1; commitTimestamp := 0;
     changes := cs; snapshot := ∅ |}.

Definition three_changes : list (Change (list string)) :=
  [logging_change "C1"; logging_change "C2"; logging_change "C3"].

Definition refusing_changes : list (Change (list string)) :=
  [logging_change "C1"; failing_rollback "C2"; logging_change "C3"].

Definition open_session (cs : list (Change (list string))) : WiredTigerSession (list string) :=
  {| sessionId := "s-1"; recoveryUnit := active_unit cs; active := true;
     inTransaction := true; createdAt := 0 |}.


(** Two namespaces, one a prefix of the other as a string, and an index
    of the longer one. *)
Definition two_stores_engine : WiredTigerKVEngine unit :=
  {| running := true;
     recordStores := <["db.c" := NewRecordStore "db.c"]>
                       (<["db.c2" := NewRecordStore "db.c2"]> ∅);
     indexes := <[makeIndexKey "db.c2" "i" := NewSortedDataInterface "i" false]> ∅;
     sessions := ∅; sessionCount := 0;
     config := {| CacheSize := 1048576; MaxSessions := 10; CheckpointEnabled := false |} |}.

Fixpoint insert_all (t : btree.BTree) (kvs : list (bytes * bytes)) : res btree.BTree :=
  match kvs with
  | [] => Ok t
  | (k, v) :: kvs' =>
      match btree.Insert t k v with
      | Ok t' => insert_all t' kvs'
      | r => r
      end
  end.

(** Eight inserts into a tree of order 3, one-byte keys. The fifth and
    sixth fill the leaf in the middle of the root; its split fills the
    root, which splits in turn and moves the new leaf under the new
    right-hand node, while [splitLeaf] then points the new leaf's
    [parent] back at the left-hand node. The seventh splits that leaf
    and so hangs its new sibling under the wrong node, out of reach of
    [findLeaf]; the eighth inserts key 27 a second time. *)
Definition drifting_inserts : list (bytes * bytes) :=
  [([x0a], [x01]); ([x14], [x01]); ([x1e], [x01]); ([x28], [x01]);
   ([x16], [x01]); ([x19], [x01]); ([x1b], [x01]); ([x1b], [x02])].

Definition two_key_index : res BTreeIndex :=
  match idx_Insert (NewSortedDataInterface "by_tag" false) [x01] (NewRecordIdFromLong 1) with
  | Ok idx => idx_Insert idx [x02] (NewRecordIdFromLong 2)
  | r => r
  end.

(** ** Vocabulary of the B+Tree invariants *)

Definition key_lt (a b : bytes) : Prop := bytes_Compare a b < 0.

(** A separator key that sends the smallest non-empty key, [[00]], to
    the left. *)
Definition sep_ok (k : bytes) : Prop := bytes_Compare [x00] k < 0.

Definition sum_len (vs : list bytes) : Z := foldr (λ v acc, (blen v + acc)%Z) 0%Z vs.

(** The data of a leaf: as many values as keys, keys strictly
    ascending and non-empty. *)
Record leaf_ok (n : btree.Node) : Prop := {
  lo_values : length (btree.values n) = length (btree.keys n);
  lo_sorted : StronglySorted key_lt (btree.keys n);
  lo_nonempty : Forall (λ k, k ≠ []) (btree.keys n);
}.

(** What every node of the arena satisfies. [lvl] gives the height of
    each node above the leaves, [len] is the size of the arena, and
    [orph] holds of the nodes that a split has created and not yet given
    a parent. Parent pointers are only required to point one level up,
    not to the node that lists this one as a child: the code does not
    keep the latter. *)
Record node_ok (orph : nat → Prop) (lvl : nat → nat) (len root id : nat)
    (n : btree.Node) : Prop := {
  nk_leaf : btree.isLeaf n = true ↔ lvl id = 0%nat;
  nk_kids : btree.isLeaf n = false →
            length (btree.children n) = S (length (btree.keys n))
            ∧ ∀ c, c ∈ btree.children n → (c < len)%nat ∧ S (lvl c) = lvl id;
  nk_parent : ∀ p, btree.parent n = Some p → (p < len)%nat ∧ lvl p = S (lvl id);
  nk_noparent : btree.parent n = None → id = root ∨ orph id;
  nk_seps : btree.isLeaf n = false → Forall sep_ok (btree.keys n);
  nk_data : btree.isLeaf n = true → leaf_ok n;
}.

Record shape (orph : nat → Prop) (lvl : nat → nat) (t : btree.BTree) : Prop := {
  sh_root : (btree.root t < length (btree.nodes t))%nat;
  sh_top : ∀ id, (id < length (btree.nodes t))%nat → (lvl id ≤ lvl (btree.root t))%nat;
  sh_height : (lvl (btree.root t) < length (btree.nodes t))%nat;
  sh_order : 3 ≤ btree.order t;
  sh_nodes : ∀ id n, btree.nodes t !! id = Some n →
             node_ok orph lvl (length (btree.nodes t)) (btree.root t) id n;
}.

(** What the upward part of a split leaves alone in a node. *)
Record node_frame (n n' : btree.Node) : Prop := {
  nf_leaf : btree.isLeaf n' = btree.isLeaf n;
  nf_data : btree.isLeaf n = true →
            btree.keys n' = btree.keys n ∧ btree.values n' = btree.values n
            ∧ btree.next n' = btree.next n;
  nf_first : btree.isLeaf n = false → btree.children n' !! 0%nat = btree.children n !! 0%nat;
  nf_parent : btree.parent n ≠ None → btree.parent n' ≠ None;
}.

Record extends (h h' : list btree.Node) : Prop := {
  ex_len : (length h ≤ length h')%nat;
  ex_old : ∀ id n, h !! id = Some n → ∃ n', h' !! id = Some n' ∧ node_frame n n';
  ex_new : ∀ id n', (length h ≤ id)%nat → h' !! id = Some n' → btree.isLeaf n' = false;
}.

(** Following first children from a node ends in node 0, the leaf the
    tree was created with. *)
Inductive lmost (h : list btree.Node) : nat → Prop :=
  | lmost_leaf n :
      h !! 0%nat = Some n → btree.isLeaf n = true → lmost h 0%nat
  | lmost_node id n c :
      h !! id = Some n → btree.isLeaf n = false →
      btree.children n !! 0%nat = Some c → lmost h c → lmost h id.

(** [ids] is the chain of leaves that starts at [start] and follows
    [next] to [nil]. *)
Fixpoint linked (h : list btree.Node) (start : option nat) (ids : list nat) : Prop :=
  match ids with
  | [] => start = None
  | id :: ids' =>
      start = Some id
      ∧ ∃ n, h !! id = Some n ∧ btree.isLeaf n = true ∧ linked h (btree.next n) ids'
  end.

Definition leaf_keys (h : list btree.Node) (id : nat) : list bytes :=
  match h !! id with Some n => btree.keys n | None => [] end.

Definition leaf_values (h : list btree.Node) (id : nat) : list bytes :=
  match h !! id with Some n => btree.values n | None => [] end.

Definition chain_keys (h : list btree.Node) (ids : list nat) : list bytes :=
  ids ≫= leaf_keys h.

Definition chain_values (h : list btree.Node) (ids : list nat) : list bytes :=
  ids ≫= leaf_values h.

(** The invariant of a tree between two operations; [ids] is its chain
    of leaves. *)
Record tree_inv (t : btree.BTree) (ids : list nat) : Prop := {
  ti_shape : ∃ lvl, shape (λ _, False) lvl t;
  ti_lmost : lmost (btree.nodes t) (btree.root t);
  ti_linked : linked (btree.nodes t) (Some 0%nat) ids;
  ti_nodup : NoDup ids;
  ti_leaves : ∀ id n, btree.nodes t !! id = Some n → btree.isLeaf n = true → id ∈ ids;
}.

(** The invariant of a record store: its counters are the totals of the
    leaf chain. *)
Definition rs_inv (rs : BTreeRecordStore) : Prop :=
  ∃ ids,
    tree_inv (rs_tree rs) ids
    ∧ numRecords rs
      = wrap64 (Z.of_nat (length (chain_keys (btree.nodes (rs_tree rs)) ids)))
    ∧ dataSize rs = wrap64 (sum_len (chain_values (btree.nodes (rs_tree rs)) ids)).

(** Operations of a record store, and a client that runs a sequence of
    them, going on after an operation that returned an error. *)
Inductive rs_op :=
  | OpInsert (recordId : RecordId) (d : bytes)
  | OpUpdate (recordId : RecordId) (d : bytes)
  | OpDelete (recordId : RecordId)
  | OpTruncate.

Definition rs_step (rs : BTreeRecordStore) (op : rs_op) : res BTreeRecordStore :=
  match op with
  | OpInsert r d => InsertRecord rs r d
  | OpUpdate r d => UpdateRecord rs r d
  | OpDelete r => DeleteRecord rs r
  | OpTruncate => Ok (Truncate rs)
  end.

Fixpoint rs_run (rs : BTreeRecordStore) (ops : list rs_op) : option BTreeRecordStore :=
  match ops with
  | [] => Some rs
  | op :: ops' =>
      match rs_step rs op with
      | Ok rs' => rs_run rs' ops'
      | Err _ => rs_run rs ops'
      | Stuck => None
      end
  end.

(** [lvl] with node [id] put at level [l]. *)
Definition lvl_with (lvl : nat → nat) (id l : nat) : nat → nat :=
  λ x, if decide (x = id) then l else lvl x.

(** A short life of a record store: two inserts, an update that grows
    a payload, a delete, an insert that is refused. *)
Definition demo_ops : list rs_op :=
  [OpInsert (NewRecordIdFromLong 1) [x61; x62];
   OpInsert (NewRecordIdFromLong 2) [x63];
   OpUpdate (NewRecordIdFromLong 1) [x78; x79; x7a];
   OpDelete (NewRecordIdFromLong 2);
   OpInsert (NewRecordIdFromLong 1) [x64];
   OpInsert (NewRecordIdFromLong 3) []].

(** ** The search structure of a well-formed B+Tree *)

Definition key_le (a b : bytes) : Prop := bytes_Compare a b ≤ 0.

(** Bounds of a subtree: keys [k] with [lo ≤ k < hi], [None] for no
    bound. *)
Definition in_lo (lo : option bytes) (k : bytes) : Prop :=
  match lo with None => True | Some l => key_le l k end.

Definition in_hi (hi : option bytes) (k : bytes) : Prop :=
  match hi with None => True | Some u => key_lt k u end.

(** The children [cs] of an internal node with separators [seps]: the
    child to the left of a separator [s] holds keys below [s], the rest
    hold keys from [s] on; [leaves] are the leaves below, left to
    right. *)
Fixpoint forest (sub : nat → option bytes → option bytes → list nat → Prop)
    (cs : list nat) (seps : list bytes) (lo hi : option bytes) (leaves : list nat) : Prop :=
  match cs with
  | [] => False
  | c :: cs' =>
      match seps with
      | [] => cs' = [] ∧ sub c lo hi leaves
      | s :: seps' =>
          in_lo lo s ∧ in_hi hi s
          ∧ ∃ l1 l2, leaves = l1 ++ l2
                   ∧ sub c lo (Some s) l1
                   ∧ forest sub cs' seps' (Some s) hi l2
      end
  end.

(** The subtree at [id], of height below [fuel], is a search tree for
    the keys in [lo, hi). *)
Fixpoint subtree (fuel : nat) (h : list btree.Node) (id : nat)
    (lo hi : option bytes) (leaves : list nat) : Prop :=
  match fuel with
  | O => False
  | S fuel' =>
      ∃ n, h !! id = Some n
         ∧ if btree.isLeaf n
           then leaves = [id] ∧ leaf_ok n
                ∧ Forall (λ k, in_lo lo k ∧ in_hi hi k) (btree.keys n)
           else forest (subtree fuel' h) (btree.children n) (btree.keys n) lo hi leaves
  end.

(** The data-model invariant of the ordered store: separators bound
    their subtrees, and the leaves are linked left to right. *)
Record btree_wf (t : btree.BTree) (ids : list nat) : Prop := {
  wf_tree : subtree (S (length (btree.nodes t))) (btree.nodes t) (btree.root t) None None ids;
  wf_linked : linked (btree.nodes t) (head ids) ids;
  wf_nodup : NoDup ids;
}.

(** A unique index that holds one entry, key [6b] ("k") for record 1. *)
Definition one_entry_index : res BTreeIndex :=
  idx_Insert (NewSortedDataInterface "by_name" true) [x6b] (NewRecordIdFromLong 1).

(** The keys in the leaves listed by [sub] lie within its bounds. *)
Definition bounded (h : list btree.Node)
    (sub : nat → option bytes → option bytes → list nat → Prop) : Prop :=
  ∀ c lo hi l, sub c lo hi l →
    ∀ L k, L ∈ l → k ∈ leaf_keys h L → in_lo lo k ∧ in_hi hi k.

(** What a range scan has collected when it stops, either way. *)
Definition scanned (r : list bytes * list bytes + list bytes * list bytes)
    : list bytes * list bytes :=
  match r with inl out => out | inr out => out end.

(** The four-byte big-endian length prefix of a composite key. *)
Definition be32 (n : Z) : bytes :=
  [byte_of_Z (Z.shiftr n 24); byte_of_Z (Z.shiftr n 16);
   byte_of_Z (Z.shiftr n 8); byte_of_Z n].

(** Record ids [from], [from + step], ..., [n] of them. *)
Fixpoint id_run (n : nat) (from step : Z) : list Z :=
  match n with
  | O => []
  | S m => from :: id_run m (from + step) step
  end.

(** Inserts that bring the defect of [splitLeaf] to a record store,
    whose tree has order 128: 8192 records with ids 0, 1000, 2000, ...
    fill 128 leaves under one root; 64 records right after id 4096000
    split the leaf in the middle of the root and with it the root; 64
    records right after id 4097000 split the new leaf, whose parent
    pointer is wrong. *)
Definition crowding_ops : list rs_op :=
  (λ i, OpInsert (NewRecordIdFromLong i) [x61])
    <$> (id_run (Z.to_nat 8192) 0 1000 ++ id_run 64 4096001 1 ++ id_run 64 4097001 1).

(** ** Vocabulary of the further properties *)

(** The test of [Range] on one key: [k >= startKey], and [k < endKey]
    when there is an [endKey]. *)
Definition in_range (s : bytes) (e : option bytes) (k : bytes) : bool :=
  (0 <=? bytes_Compare k s)
  && negb (match e with Some u => 0 <=? bytes_Compare k u | None => false end).

(** The value stored under [k] in a leaf with keys [ks] and values
    [vs]: the one at the first position of [k]. *)
Definition leaf_get (ks vs : list bytes) (k : bytes) : option bytes :=
  i ← btree.index_of k ks; vs !! i.

(** ** A search tree whose parent pointers are right

    The subtree at [id] has exactly [height] levels, is a search tree
    for the keys in [lo, hi), and the [parent] of every node in it is
    the node that lists it as a child ([par] for [id] itself). This is
    what [splitLeaf] and [insertIntoParent] rely on. *)
Fixpoint ptree (height : nat) (h : list btree.Node) (par : option nat) (id : nat)
    (lo hi : option bytes) (leaves : list nat) : Prop :=
  match height with
  | O => False
  | S height' =>
      ∃ n, h !! id = Some n
         ∧ btree.parent n = par
         ∧ if btree.isLeaf n
           then height' = 0%nat ∧ leaves = [id] ∧ leaf_ok n
                ∧ Forall (λ k, in_lo lo k ∧ in_hi hi k) (btree.keys n)
           else forest (ptree height' h (Some id)) (btree.children n) (btree.keys n)
                  lo hi leaves
  end.

Record btree_ok (t : btree.BTree) (ids : list nat) : Prop := {
  ok_tree : ∃ height, (height ≤ S (length (btree.nodes t)))%nat
                    ∧ ptree height (btree.nodes t) None (btree.root t) None None ids;
  ok_linked : linked (btree.nodes t) (head ids) ids;
  ok_nodup : NoDup ids;
  ok_order : 3 ≤ btree.order t;
}.

(** A lower bound that lies strictly below [k], and one bound at least
    as tight as another. *)
Definition lo_lt (lo : option bytes) (k : bytes) : Prop :=
  match lo with None => True | Some b => key_lt b k end.

Definition lo_le (lo lo' : option bytes) : Prop :=
  match lo, lo' with
  | None, _ => True
  | Some a, Some b => key_le a b
  | Some _, None => False
  end.

(** The entries of a tree, read off its leaf chain. *)
Definition entries (t : btree.BTree) (ids : list nat) : list (bytes * bytes) :=
  zip (chain_keys (btree.nodes t) ids) (chain_values (btree.nodes t) ids).

(** A change whose commit callback returns an error. *)
Definition failing_commit (name : string) : Change (list string) :=
  {| change_Commit := λ w, (w ++ [("commit " ++ name)%string],
                            Some (ErrCallback "commit refused"));
     change_Rollback := λ w, (w ++ [("rollback " ++ name)%string], None) |}.

Definition refusing_commit_changes : list (Change (list string)) :=
  [logging_change "C1"; failing_commit "C2"; logging_change "C3"].

(** ** The split defect in a unique index *)

(** A client that inserts entries one after the other and stops at the
    first insert that is refused. *)
Fixpoint index_insert_all (idx : BTreeIndex) (es : list (bytes * RecordId))
    : res BTreeIndex :=
  match es with
  | [] => Ok idx
  | (k, r) :: es' =>
      match idx_Insert idx k r with
      | Ok idx' => index_insert_all idx' es'
      | e => e
      end
  end.

(** The keys [pre ++ be32 from], [pre ++ be32 (from + 1)], ..., [n] of
    them. *)
Definition keys_from (pre : bytes) (from n : Z) : list bytes :=
  (λ i, pre ++ be32 i) <$> id_run (Z.to_nat n) from 1.

(** 8321 distinct application keys, in an order that a unique index
    accepts. The first 8192, ascending as composite keys (4097 of four
    bytes, 63 of five and 4032 of seven), fill 128 leaves under one
    root. The next 64, of four bytes, go to the leaf in the middle of
    the root, which splits and with it the root; the 64 after them fill
    the new leaf, whose [parent] is wrong, and the last of them, [be32
    4224], splits it: it ends up in a leaf that hangs under the wrong
    node. The six-byte key goes to the leaf on the left of that one. *)
Definition crowding_keys : list bytes :=
  keys_from [] 0 4097 ++ keys_from [xff] 0 63 ++ keys_from [xff; xff; xff] 0 4032
  ++ keys_from [] 4097 64 ++ keys_from [] 4161 64
  ++ [[x00; x00; x00; x00; x00; x00]].

(** The key at position [i] gets the record id [i + 1]. *)
Definition crowding_entries : list (bytes * RecordId) :=
  zip crowding_keys (NewRecordIdFromLong <$> id_run (length crowding_keys) 1 1).

Definition used_key : bytes := be32 4224.

(** The smallest of the seven-byte keys above. *)
Definition scan_bound : bytes := [xff; xff; xff] ++ be32 0.

(** The entries for the application key [k] that a client reads from
    the cursor of [SeekRange(k, scan_bound)]. *)
Definition entries_of (idx : BTreeIndex) (k : bytes) : option (list (option bytes * RecordId)) :=
  match SeekRange idx (Some k) (Some scan_bound) with
  | Ok c => Some (filter (λ e, e.1 = Some k) (icursor_all c))
  | _ => None
  end.

(* end of definitions *)

(** * Properties *)

(** ** RecordId round trip *)

Lemma AsBytes_of_long (x : Z) :
  AsBytes (NewRecordIdFromLong x) = (PutUint64 (x mod 2 ^ 64), true).
Proof. reflexivity. Qed.

(** C3. For every int64 [x] the RecordId rebuilt from the bytes of
    [NewRecordIdFromLong x] carries the bytes tag, so [Compare] against
    the original, which carries the integer tag, returns 1 and not 0;
    the other way round it returns -1. The bytes themselves survive the
    round trip. *)
Theorem C3_roundtrip_compare_is_one (x : Z) :
  let original := NewRecordIdFromLong x in
  let rebuilt := NewRecordIdFromBytes (AsBytes original).1 in
  Compare rebuilt original = 1
  ∧ Compare original rebuilt = -1
  ∧ AsBytes rebuilt = AsBytes original.
Proof.
  cbn zeta. rewrite AsBytes_of_long. repeat split.
Qed.

(** The call of the repository's own test ([TestKVEngine], index
    operations): record id 100 read back through its bytes. *)
Example C3_roundtrip_100 :
  Compare (NewRecordIdFromBytes (AsBytes (NewRecordIdFromLong 100)).1)
          (NewRecordIdFromLong 100) = 1.
Proof. reflexivity. Qed.

(** ** Recovery unit: order of the callbacks *)

Section transaction_properties.

Context {World : Type}.
Implicit Types (w : World) (cs : list (Change World)) (ru : WiredTigerRecoveryUnit World).

Lemma all_succeed_app acts1 acts2 w :
  all_succeed (acts1 ++ acts2) w ↔
  all_succeed acts1 w ∧ all_succeed acts2 (world_after acts1 w).
Proof.
  revert w. induction acts1 as [|a acts1 IH]; intros w; simpl.
  - tauto.
  - rewrite IH. tauto.
Qed.

Lemma world_after_app acts1 acts2 w :
  world_after (acts1 ++ acts2) w = world_after acts2 (world_after acts1 w).
Proof. revert w. induction acts1 as [|a acts1 IH]; intros w; simpl; auto. Qed.

Lemma commit_loop_calls_prefix i cs w :
  run_calls (commit_loop i cs w) `prefix_of` seq i (length cs).
Proof.
  revert i w. induction cs as [|c cs IH]; intros i w; simpl.
  - done.
  - destruct (change_Commit c w) as [w' [err|]]; simpl.
    + apply prefix_cons, prefix_nil.
    + apply prefix_cons, IH.
Qed.

Lemma commit_loop_all_succeed i cs w :
  all_succeed (map change_Commit cs) w →
  commit_loop i cs w =
    {| run_world := world_after (map change_Commit cs) w;
       run_calls := seq i (length cs); run_err := None |}.
Proof.
  revert i w. induction cs as [|c cs IH]; intros i w; simpl.
  - done.
  - intros [Hc Hrest]. destruct (change_Commit c w) as [w' e]; simpl in *.
    subst e. by rewrite (IH (S i) w' Hrest).
Qed.

(** Committing stops at the first callback that fails: the earlier
    changes have been committed, the later ones are not called. *)
Lemma commit_loop_fails i pre c post w err :
  all_succeed (map change_Commit pre) w →
  (change_Commit c (world_after (map change_Commit pre) w)).2 = Some err →
  commit_loop i (pre ++ c :: post) w =
    {| run_world := (change_Commit c (world_after (map change_Commit pre) w)).1;
       run_calls := seq i (S (length pre)); run_err := Some err |}.
Proof.
  revert i w. induction pre as [|d pre IH]; intros i w; simpl.
  - intros _ Herr. destruct (change_Commit c w) as [w' e]; simpl in *. by subst e.
  - intros [Hd Hok] Herr. destruct (change_Commit d w) as [w' e]; simpl in *. subst e.
    by rewrite (IH (S i) w' Hok Herr).
Qed.

Lemma rollback_loop_total n cs w :
  (n ≤ length cs)%nat → is_Some (rollback_loop n cs w).
Proof.
  revert w. induction n as [|i IH]; intros w Hn; simpl.
  - by eexists.
  - destruct (lookup_lt_is_Some_2 cs i) as [c Hc]; [lia|]. rewrite Hc. simpl.
    destruct (change_Rollback c w) as [w' [err|]]; [by eexists|].
    destruct (IH w') as [r Hr]; [lia|]. rewrite Hr. by eexists.
Qed.

Lemma rollback_loop_calls_prefix n cs w r :
  rollback_loop n cs w = Some r → run_calls r `prefix_of` reverse (seq 0 n).
Proof.
  revert w r. induction n as [|i IH]; intros w r.
  - intros [= <-]. done.
  - rewrite seq_S, reverse_snoc. simpl.
    destruct (cs !! i) as [c|]; [simpl|done].
    destruct (change_Rollback c w) as [w' [err|]].
    + intros [= <-]. apply prefix_cons, prefix_nil.
    + destruct (rollback_loop i cs w') as [r'|] eqn:Hr; [simpl|done].
      intros [= <-]. simpl. apply prefix_cons. by eapply IH.
Qed.

(** Rolling back the first [n] changes, when every callback succeeds. *)
Lemma rollback_loop_all_succeed n cs w :
  (n ≤ length cs)%nat →
  all_succeed (map change_Rollback (reverse (take n cs))) w →
  rollback_loop n cs w =
    Some {| run_world := world_after (map change_Rollback (reverse (take n cs))) w;
            run_calls := reverse (seq 0 n); run_err := None |}.
Proof.
  revert w. induction n as [|i IH]; intros w Hn.
  - by rewrite take_0.
  - destruct (lookup_lt_is_Some_2 cs i) as [c Hc]; [lia|].
    rewrite (take_S_r _ _ _ Hc), reverse_snoc, seq_S, reverse_snoc. simpl.
    intros [Hhead Hrest]. rewrite Hc. simpl.
    destruct (change_Rollback c w) as [w' e]; simpl in *. subst e.
    rewrite (IH w'); [done|lia|done].
Qed.

(** Rolling back stops at the first callback that fails: the later
    changes have been rolled back, the earlier ones are not called. *)
Lemma rollback_loop_fails pre c post w err :
  all_succeed (map change_Rollback (reverse post)) w →
  (change_Rollback c (world_after (map change_Rollback (reverse post)) w)).2 = Some err →
  rollback_loop (length (pre ++ c :: post)) (pre ++ c :: post) w =
    Some {| run_world :=
              (change_Rollback c (world_after (map change_Rollback (reverse post)) w)).1;
            run_calls := reverse (seq (length pre) (S (length post)));
            run_err := Some err |}.
Proof.
  revert w. induction post as [|d post IH] using rev_ind; intros w Hok Herr.
  - simpl in *. rewrite length_app. simpl.
    replace (length pre + 1)%nat with (S (length pre)) by lia. simpl.
    rewrite list_lookup_middle by done. simpl.
    destruct (change_Rollback c w) as [w' e]; simpl in *. by subst e.
  - rewrite reverse_snoc in Hok, Herr. simpl in Hok, Herr.
    destruct Hok as [Hd Hok].
    replace (pre ++ c :: post ++ [d]) with ((pre ++ c :: post) ++ [d])
      by (by rewrite <- app_assoc).
    rewrite (length_app _ [d]). simpl.
    replace (length (pre ++ c :: post) + 1)%nat with (S (length (pre ++ c :: post))) by lia.
    simpl. rewrite list_lookup_middle by done. simpl.
    destruct (change_Rollback d w) as [w' e] eqn:Hdw; simpl in *. subst e.
    assert (Hpre : ∀ n cs' w0, (n ≤ length cs')%nat →
              rollback_loop n (cs' ++ [d]) w0 = rollback_loop n cs' w0).
    { clear. induction n as [|i IHn]; intros cs' w0 Hn; simpl; [done|].
      rewrite lookup_app_l by lia. destruct (cs' !! i) as [c0|]; simpl; [|done].
      destruct (change_Rollback c0 w0) as [w1 [e1|]]; [done|].
      rewrite IHn by lia. done. }
    rewrite Hpre by done. rewrite (IH w' Hok Herr). simpl.
    rewrite reverse_snoc. simpl. rewrite Hdw. simpl.
    rewrite (length_app post [d]). simpl.
    replace (length post + 1)%nat with (S (length post)) by lia.
    change (length pre :: seq (S (length pre)) (S (length post)))
      with (seq (length pre) (S (S (length post)))).
    rewrite (seq_S (S (length post))), reverse_snoc.
    rewrite length_app. simpl. done.
Qed.

(** C10. If, while an Active unit rolls back, the rollback callback of
    some change returns an error after the callbacks of all
    later-registered changes have succeeded, then [Rollback] returns
    that error (wrapped by its message), the unit is exactly as before,
    so still Active with its change log, and the callbacks called are
    those of the later changes, last registered first, then the failing
    one. *)
Theorem C10_rollback_failure_keeps_active ru w pre c post err :
  state ru = TxnStateActive →
  changes ru = pre ++ c :: post →
  all_succeed (map change_Rollback (reverse post)) w →
  (change_Rollback c (world_after (map change_Rollback (reverse post)) w)).2 = Some err →
  ∃ r, Rollback ru w = Some r
     ∧ tr_err r = Some (ErrWrap WrapRollbackChange err)
     ∧ tr_unit r = ru
     ∧ ru_IsActive (tr_unit r) = true
     ∧ changes (tr_unit r) = pre ++ c :: post
     ∧ tr_calls r = reverse (seq (length pre) (S (length post))).
Proof.
  intros Hact Hcs Hok Herr. unfold Rollback.
  rewrite decide_True by done. rewrite Hcs.
  rewrite (rollback_loop_fails pre c post w err Hok Herr). simpl.
  eexists. split; [done|]. simpl. repeat split; try done.
  unfold ru_IsActive. by rewrite bool_decide_true.
Qed.

(** C5, as the code has it. In an Active unit with change log
    [C1..Cn], [Commit] calls the commit callbacks in the order
    [C1..Cn], stopping at the first failure: when the callback of [Ck]
    is the first to fail, the callbacks called are exactly those of
    [C1..Ck], the error is returned (wrapped) and the unit is not
    Committed; when all succeed, all are called and the unit is
    Committed with an empty log. [Rollback] calls the rollback callbacks
    in the order [Cn..C1], stopping at the first failure: when the
    callback of [Ck] is the first to fail, the callbacks called are
    exactly those of [Cn..Ck], the error is returned (wrapped) and the
    unit is left as it was; when all succeed, all are called and the
    unit is Aborted with an empty log. *)
Theorem C5_commit_and_rollback_order (now : Z) ru w :
  state ru = TxnStateActive →
  (let r := Commit now ru w in
   tr_calls r `prefix_of` seq 0 (length (changes ru))
   ∧ (all_succeed (map change_Commit (changes ru)) w →
      tr_calls r = seq 0 (length (changes ru))
      ∧ tr_world r = world_after (map change_Commit (changes ru)) w
      ∧ tr_err r = None
      ∧ state (tr_unit r) = TxnStateCommitted
      ∧ changes (tr_unit r) = [])
   ∧ (∀ pre c post err,
        changes ru = pre ++ c :: post →
        all_succeed (map change_Commit pre) w →
        (change_Commit c (world_after (map change_Commit pre) w)).2 = Some err →
        tr_calls r = seq 0 (S (length pre))
        ∧ tr_world r = (change_Commit c (world_after (map change_Commit pre) w)).1
        ∧ tr_err r = Some (ErrWrap WrapCommitChange err)
        ∧ state (tr_unit r) = TxnStateAborted
        ∧ changes (tr_unit r) = changes ru))
  ∧ (∃ r, Rollback ru w = Some r
      ∧ tr_calls r `prefix_of` reverse (seq 0 (length (changes ru)))
      ∧ (all_succeed (map change_Rollback (reverse (changes ru))) w →
         tr_calls r = reverse (seq 0 (length (changes ru)))
         ∧ tr_world r = world_after (map change_Rollback (reverse (changes ru))) w
         ∧ tr_err r = None
         ∧ state (tr_unit r) = TxnStateAborted
         ∧ changes (tr_unit r) = [])
      ∧ (∀ pre c post err,
           changes ru = pre ++ c :: post →
           all_succeed (map change_Rollback (reverse post)) w →
           (change_Rollback c (world_after (map change_Rollback (reverse post)) w)).2
             = Some err →
           tr_calls r = reverse (seq (length pre) (S (length post)))
           ∧ tr_world r
             = (change_Rollback c (world_after (map change_Rollback (reverse post)) w)).1
           ∧ tr_err r = Some (ErrWrap WrapRollbackChange err)
           ∧ tr_unit r = ru)).
Proof.
  intros Hact. split.
  - cbn zeta. unfold Commit. rewrite decide_True by done. split_and!.
    + pose proof (commit_loop_calls_prefix 0 (changes ru) w) as Hp.
      by destruct (run_err (commit_loop 0 (changes ru) w)).
    + intros Hok. by rewrite (commit_loop_all_succeed 0 _ _ Hok).
    + intros pre c post err Hcs Hok Herr.
      pose proof (commit_loop_fails 0 pre c post w err Hok Herr) as Hcl.
      rewrite <- Hcs in Hcl. by rewrite Hcl.
  - assert (Hfail : ∀ r pre c post err,
              rollback_loop (length (changes ru)) (changes ru) w = Some r →
              changes ru = pre ++ c :: post →
              all_succeed (map change_Rollback (reverse post)) w →
              (change_Rollback c (world_after (map change_Rollback (reverse post)) w)).2
                = Some err →
              r = {| run_world :=
                       (change_Rollback c
                          (world_after (map change_Rollback (reverse post)) w)).1;
                     run_calls := reverse (seq (length pre) (S (length post)));
                     run_err := Some err |}).
    { intros r pre c post err Hr Hcs Hok Herr. rewrite Hcs in Hr.
      rewrite (rollback_loop_fails pre c post w err Hok Herr) in Hr. congruence. }
    unfold Rollback. rewrite decide_True by done.
    destruct (rollback_loop_total (length (changes ru)) (changes ru) w) as [r Hr]; [done|].
    rewrite Hr. simpl.
    pose proof (rollback_loop_calls_prefix _ _ _ _ Hr) as Hp.
    assert (Hall : all_succeed (map change_Rollback (reverse (changes ru))) w →
              r = {| run_world := world_after (map change_Rollback (reverse (changes ru))) w;
                     run_calls := reverse (seq 0 (length (changes ru)));
                     run_err := None |}).
    { intros Hok.
      pose proof (rollback_loop_all_succeed (length (changes ru)) (changes ru) w) as H.
      rewrite firstn_all in H. rewrite H in Hr by done. congruence. }
    destruct (run_err r) as [err|] eqn:He; eexists; (split; [done|]); simpl;
      (split; [done|]); split.
    + intros Hok. specialize (Hall Hok). subst r. discriminate.
    + intros pre c post err' Hcs Hok Herr.
      rewrite (Hfail r pre c post err' Hr Hcs Hok Herr) in He |- *. simpl in *.
      by injection He as ->.
    + intros Hok. specialize (Hall Hok). by subst r.
    + intros pre c post err' Hcs Hok Herr.
      rewrite (Hfail r pre c post err' Hr Hcs Hok Herr) in He. discriminate.
Qed.

(** ** Session *)

(** C7, as the code has it. [End] on an active session with an open
    transaction first rolls the transaction back. If the rollback
    fails, [End] returns its error (wrapped) and the session is still
    active and still in its transaction; if it succeeds, the session is
    inactive and has no transaction. *)
Theorem C7_end_rolls_back_first (s : WiredTigerSession World) w :
  active s = true →
  inTransaction s = true →
  ∃ tr r,
    Rollback (recoveryUnit s) w = Some tr
    ∧ session_End s w = Some r
    ∧ sr_calls r = tr_calls tr
    ∧ sr_world r = tr_world tr
    ∧ recoveryUnit (sr_session r) = tr_unit tr
    ∧ match tr_err tr with
      | Some err =>
          sr_err r = Some (ErrWrap WrapSessionEnd err)
          ∧ session_IsActive (sr_session r) = true
          ∧ session_InTransaction (sr_session r) = true
      | None =>
          sr_err r = None
          ∧ session_IsActive (sr_session r) = false
          ∧ session_InTransaction (sr_session r) = false
      end.
Proof.
  intros Hact Htxn. unfold session_End. rewrite Hact, Htxn. simpl.
  assert (is_Some (Rollback (recoveryUnit s) w)) as [tr Htr].
  { unfold Rollback. destruct (decide _); [|by eexists].
    destruct (rollback_loop_total (length (changes (recoveryUnit s)))
                (changes (recoveryUnit s)) w) as [r Hr]; [done|].
    rewrite Hr. simpl. destruct (run_err r); by eexists. }
  rewrite Htr. simpl. exists tr.
  destruct (tr_err tr) as [err|] eqn:Herr; eexists; (split; [done|]); by rewrite ?Herr.
Qed.

End transaction_properties.

(** ** Recovery unit and session on concrete changes *)

Example commit_three_in_order :
  tr_world (Commit 7 (active_unit three_changes) [])
    = ["commit C1"; "commit C2"; "commit C3"]%string
  ∧ state (tr_unit (Commit 7 (active_unit three_changes) [])) = TxnStateCommitted.
Proof. split; reflexivity. Qed.

Example rollback_three_in_reverse :
  tr_world <$> Rollback (active_unit three_changes) []
    = Some ["rollback C3"; "rollback C2"; "rollback C1"]%string.
Proof. reflexivity. Qed.

(** Witness of C5: three changes that all succeed. *)
Lemma C5_witness :
  (let r := Commit 7 (active_unit three_changes) [] in
   tr_calls r = [0; 1; 2]%nat ∧ state (tr_unit r) = TxnStateCommitted)
  ∧ (∃ r, Rollback (active_unit three_changes) [] = Some r
      ∧ tr_calls r = [2; 1; 0]%nat ∧ state (tr_unit r) = TxnStateAborted).
Proof.
  destruct (C5_commit_and_rollback_order 7 (active_unit three_changes) [] eq_refl)
    as [(_ & Hc & _) (r & Hr & _ & Hb & _)].
  split.
  - destruct Hc as (H1 & _ & _ & H2 & _); [simpl; auto|]. split; [exact H1|exact H2].
  - exists r. split; [exact Hr|].
    destruct Hb as (H1 & _ & _ & H2 & _); [simpl; auto|]. split; [exact H1|exact H2].
Defined.

(** The stopping points of C5 on three changes whose second callback
    fails: [Commit] calls the callbacks of C1 and C2 and no more,
    [Rollback] those of C3 and C2 and no more. *)
Example commit_and_rollback_stop_at_failure :
  (let r := Commit 7 (active_unit refusing_commit_changes) [] in
   tr_calls r = [0; 1]%nat
   ∧ tr_world r = ["commit C1"; "commit C2"]%string
   ∧ tr_err r = Some (ErrWrap WrapCommitChange (ErrCallback "commit refused"))
   ∧ state (tr_unit r) = TxnStateAborted)
  ∧ (tr_calls <$> Rollback (active_unit refusing_changes) []) = Some [2; 1]%nat.
Proof. split; [repeat split|reflexivity]. Qed.

(** C5 as stated fails: with a change whose rollback callback returns
    an error, [Rollback] on an Active unit calls only the callbacks of
    C3 and C2 and the unit does not become Aborted. *)
Lemma C5_rollback_can_stay_active :
  ∃ r, Rollback (active_unit refusing_changes) [] = Some r
     ∧ state (tr_unit r) = TxnStateActive
     ∧ state (tr_unit r) ≠ TxnStateAborted
     ∧ tr_calls r = [2; 1]%nat
     ∧ tr_world r = ["rollback C3"; "rollback C2"]%string.
Proof. eexists. split; [reflexivity|]. simpl. repeat split. discriminate. Qed.

(** Witness of C10: the rollback of C2 fails after C3 was rolled back. *)
Lemma C10_witness :
  ∃ r, Rollback (active_unit refusing_changes) [] = Some r
     ∧ tr_err r = Some (ErrWrap WrapRollbackChange (ErrCallback "rollback refused"))
     ∧ tr_unit r = active_unit refusing_changes
     ∧ ru_IsActive (tr_unit r) = true
     ∧ changes (tr_unit r) = [logging_change "C1"] ++ failing_rollback "C2" :: [logging_change "C3"]
     ∧ tr_calls r = reverse (seq 1 2).
Proof.
  apply (C10_rollback_failure_keeps_active (active_unit refusing_changes) []
           [logging_change "C1"] (failing_rollback "C2") [logging_change "C3"]
           (ErrCallback "rollback refused")).
  - reflexivity.
  - reflexivity.
  - simpl. auto.
  - reflexivity.
Defined.

(** C7 as stated fails: when the forced rollback fails, [End] returns
    the error and the session is still active. *)
Lemma C7_end_can_leave_session_active :
  ∃ r, session_End (open_session refusing_changes) [] = Some r
     ∧ sr_err r = Some (ErrWrap WrapSessionEnd
                          (ErrWrap WrapRollbackChange (ErrCallback "rollback refused")))
     ∧ session_IsActive (sr_session r) = true.
Proof. eexists. split; [reflexivity|]. split; reflexivity. Qed.

(** Witness of C7, on a session whose rollback succeeds. *)
Lemma C7_witness :
  ∃ tr r,
    Rollback (recoveryUnit (open_session three_changes)) [] = Some tr
    ∧ session_End (open_session three_changes) [] = Some r
    ∧ sr_calls r = tr_calls tr
    ∧ sr_world r = tr_world tr
    ∧ recoveryUnit (sr_session r) = tr_unit tr
    ∧ match tr_err tr with
      | Some err =>
          sr_err r = Some (ErrWrap WrapSessionEnd err)
          ∧ session_IsActive (sr_session r) = true
          ∧ session_InTransaction (sr_session r) = true
      | None =>
          sr_err r = None
          ∧ session_IsActive (sr_session r) = false
          ∧ session_InTransaction (sr_session r) = false
      end.
Proof.
  apply (C7_end_rolls_back_first (open_session three_changes) []); reflexivity.
Defined.

(** ** KV engine *)

Section engine_properties.

Context {World : Type}.
Implicit Types (e : WiredTigerKVEngine World).


(** The loop of [DropRecordStore] removes exactly the matching keys. *)
Lemma drop_matching_indexes_lookup ns (m : gmap string BTreeIndex) key :
  drop_matching_indexes ns m !! key =
    if index_key_matches ns key then None else m !! key.
Proof.
  unfold drop_matching_indexes.
  assert (Hgen : ∀ (l : list string) (acc : gmap string BTreeIndex),
            foldr (λ k a, if index_key_matches ns k then delete k a else a) acc l !! key
            = if index_key_matches ns key && bool_decide (key ∈ l) then None else acc !! key).
  { induction l as [|k l IH]; intros acc; simpl.
    - rewrite andb_false_r. done.
    - destruct (index_key_matches ns k) eqn:Hk.
      + destruct (decide (k = key)) as [->|Hne].
        * rewrite lookup_delete_eq, Hk. simpl.
          rewrite bool_decide_true by set_solver. done.
        * rewrite lookup_delete_ne by done. rewrite IH.
          destruct (index_key_matches ns key); simpl; [|done].
          destruct (decide (key ∈ l)).
          -- rewrite !bool_decide_true by set_solver. done.
          -- rewrite !bool_decide_false by set_solver. done.
      + rewrite IH. destruct (index_key_matches ns key) eqn:Hkey; simpl; [|done].
        destruct (decide (key ∈ l)).
        * rewrite !bool_decide_true by set_solver. done.
        * rewrite !bool_decide_false; [done| |done].
          intros [->|?]%elem_of_cons; congruence. }
  rewrite Hgen. destruct (index_key_matches ns key); simpl; [|done].
  destruct (m !! key) as [v|] eqn:Hm.
  - rewrite bool_decide_true; [done|].
    apply list_elem_of_fmap. exists (key, v). split; [done|].
    by apply elem_of_map_to_list.
  - by destruct (bool_decide _).
Qed.

(** What [DropRecordStore] does remove: the store, and every index
    registered as [namespace.indexName]. *)
Lemma DropRecordStore_removes_own ns e e' :
  DropRecordStore ns e = Ok e' →
  recordStores e' !! ns = None
  ∧ ∀ name, indexes e' !! makeIndexKey ns name = None.
Proof.
  unfold DropRecordStore. destruct (recordStores e !! ns); [|done].
  intros [= <-]. simpl. split; [apply lookup_delete_eq|].
  intros name. rewrite drop_matching_indexes_lookup.
  assert (index_key_matches ns (makeIndexKey ns name) = true) as ->; [|done].
  unfold index_key_matches, makeIndexKey. apply andb_true_iff. split.
  - apply Nat.ltb_lt. clear. induction ns as [|a ns IH]; simpl; lia.
  - apply String.eqb_eq. clear. induction ns as [|a ns IH]; simpl.
    + by destruct name.
    + by rewrite IH.
Qed.

End engine_properties.



(** C9 on that engine: dropping the record store ["db.c"] succeeds and
    also removes the index ["db.c2.i"], which belongs to the namespace
    ["db.c2"] and to no index name of ["db.c"]. *)
Theorem C9_drop_removes_index_of_other_namespace :
  indexes two_stores_engine !! makeIndexKey "db.c2" "i" = Some (NewSortedDataInterface "i" false)
  ∧ (∀ name, makeIndexKey "db.c" name ≠ makeIndexKey "db.c2" "i")
  ∧ ∃ e', DropRecordStore "db.c" two_stores_engine = Ok e'
        ∧ recordStores e' !! "db.c2"%string = Some (NewRecordStore "db.c2")
        ∧ indexes e' !! makeIndexKey "db.c2" "i" = None.
Proof.
  split; [apply lookup_insert_eq|]. split; [intros name; discriminate|].
  unfold DropRecordStore. simpl. rewrite lookup_insert_eq.
  eexists. split; [reflexivity|]. simpl. split.
  - rewrite lookup_delete_ne by done. rewrite lookup_insert_ne by done.
    apply lookup_insert_eq.
  - rewrite drop_matching_indexes_lookup. reflexivity.
Qed.

(** ** B+Tree: a sequence of inserts that breaks the leaf chain *)

(** C1 on that sequence: every key is non-empty, and [Range(nil, nil)]
    returns 10, 20, 22, 27, 25, 27, 30, 40: out of order, key 27 twice,
    once with the value of the earlier insert. *)
Theorem C1_range_after_drifting_inserts :
  Forall (λ kv, kv.1 ≠ []) drifting_inserts
  ∧ ∃ t, insert_all (btree.NewBTree 3) drifting_inserts = Ok t
       ∧ btree.Range t [] None =
           Some ([[x0a]; [x14]; [x16]; [x1b]; [x19]; [x1b]; [x1e]; [x28]],
                 [[x01]; [x01]; [x01]; [x02]; [x01]; [x01]; [x01]; [x01]]).
Proof.
  split.
  - unfold drifting_inserts. repeat constructor; discriminate.
  - eexists. split; vm_compute; reflexivity.
Qed.

(** ** Index: an exact-match seek that returns another key *)

(** C2 on a non-unique index holding one entry under key [01] and one
    under key [02]: [Seek([01])] yields both entries, the second with
    application key [02]. The upper bound built by [makeNextKey] has the
    length prefix of a two-byte key, so every composite key of a
    one-byte application key lies below it. *)
Theorem C2_seek_yields_other_key :
  ∃ idx c, two_key_index = Ok idx
         ∧ Seek idx [x01] = Ok c
         ∧ icursor_all c =
             [(Some [x01], NewRecordIdFromBytes (AsBytes (NewRecordIdFromLong 1)).1);
              (Some [x02], NewRecordIdFromBytes (AsBytes (NewRecordIdFromLong 2)).1)].
Proof. eexists _, _. repeat split; vm_compute; reflexivity. Qed.


(** * The record store's counters

    The rest of the development proves that the record store's counters
    always agree with a full scan. The B+Tree can lose its search
    structure (the parent pointer set by a split can be wrong), so the proof
    rests on what the tree keeps in every reachable state: the shape of
    the arena (levels, child and parent pointers in range), the chain
    of leaves, and sorted keys inside each leaf. *)

(** ** The order on byte strings *)

Lemma byte_val_inj (x y : byte) : byte_val x = byte_val y → x = y.
Proof.
  unfold byte_val. intros H. apply N2Z.inj in H.
  pose proof (Byte.of_to_N x) as Hx. rewrite H, Byte.of_to_N in Hx. congruence.
Qed.

Lemma bytes_Compare_refl (a : bytes) : bytes_Compare a a = 0.
Proof. induction a as [|x a IH]; simpl; [done|]. rewrite Z.ltb_irrefl. done. Qed.

Lemma bytes_Compare_eq (a b : bytes) : bytes_Compare a b = 0 → a = b.
Proof.
  revert b. induction a as [|x a IH]; intros [|y b]; simpl; try done.
  destruct (Z.ltb_spec (byte_val x) (byte_val y)); [done|].
  destruct (Z.ltb_spec (byte_val y) (byte_val x)); [done|].
  intros Heq. f_equal; [apply byte_val_inj; lia|by apply IH].
Qed.

Lemma bytes_Compare_antisym (a b : bytes) : bytes_Compare b a = - bytes_Compare a b.
Proof.
  revert b. induction a as [|x a IH]; intros [|y b]; simpl; try done.
  destruct (Z.ltb_spec (byte_val x) (byte_val y)), (Z.ltb_spec (byte_val y) (byte_val x));
    try done; try lia.
Qed.

Lemma key_lt_trans (a b c : bytes) : key_lt a b → key_lt b c → key_lt a c.
Proof.
  unfold key_lt. revert b c.
  induction a as [|x a IH]; intros [|y b] [|z c]; simpl; try done.
  destruct (Z.ltb_spec (byte_val x) (byte_val y)),
           (Z.ltb_spec (byte_val y) (byte_val x)),
           (Z.ltb_spec (byte_val y) (byte_val z)),
           (Z.ltb_spec (byte_val z) (byte_val y)),
           (Z.ltb_spec (byte_val x) (byte_val z)),
           (Z.ltb_spec (byte_val z) (byte_val x));
    try done; try lia.
  apply IH.
Qed.

Lemma key_lt_irrefl (a : bytes) : ¬ key_lt a a.
Proof. unfold key_lt. rewrite bytes_Compare_refl. lia. Qed.

Lemma bytes_Compare_gt (a b : bytes) : 0 < bytes_Compare a b ↔ key_lt b a.
Proof. unfold key_lt. rewrite (bytes_Compare_antisym b a). lia. Qed.

Lemma bytes_Equal_true (a b : bytes) : bytes_Equal a b = true ↔ a = b.
Proof. unfold bytes_Equal. apply bool_decide_eq_true. Qed.

Lemma sep_ok_above (a k : bytes) : a ≠ [] → key_lt a k → sep_ok k.
Proof.
  unfold sep_ok, key_lt. destruct a as [|x a]; [done|]. intros _.
  destruct k as [|y k]; simpl; [lia|].
  change (byte_val "000") with 0.
  assert (0 ≤ byte_val y) as Hy by (unfold byte_val; lia).
  assert (0 ≤ byte_val x) as Hx by (unfold byte_val; lia).
  destruct (Z.ltb_spec 0 (byte_val y)); [lia|].
  destruct (Z.ltb_spec (byte_val y) 0); [lia|].
  destruct (Z.ltb_spec (byte_val x) (byte_val y)); [lia|].
  destruct (Z.ltb_spec (byte_val y) (byte_val x)); [lia|].
  destruct a, k; simpl; lia.
Qed.

Lemma nonempty_above_zero (k : bytes) : k ≠ [] → 0 ≤ bytes_Compare k [x00].
Proof.
  destruct k as [|y k]; [done|]. intros _. simpl.
  change (byte_val "000") with 0.
  assert (0 ≤ byte_val y) as Hy by (unfold byte_val; lia).
  destruct (Z.ltb_spec (byte_val y) 0); [lia|].
  destruct (Z.ltb_spec 0 (byte_val y)); [lia|].
  destruct k; simpl; lia.
Qed.

(** ** Inside one leaf *)

Section leaf.
Local Open Scope nat_scope.
Import btree.

Lemma sum_len_app vs1 vs2 : sum_len (vs1 ++ vs2) = (sum_len vs1 + sum_len vs2)%Z.
Proof. induction vs1 as [|v vs1 IH]; simpl; [done|]. rewrite IH. lia. Qed.

Lemma sum_len_cons v vs : sum_len (v :: vs) = (blen v + sum_len vs)%Z.
Proof. done. Qed.

Lemma insert_pos_le key ks : insert_pos key ks ≤ length ks.
Proof. induction ks as [|k ks IH]; simpl; [done|]. destruct (_ <? _)%Z; lia. Qed.

Lemma descend_pos_le key ks : descend_pos key ks ≤ length ks.
Proof. induction ks as [|k ks IH]; simpl; [done|]. destruct (_ <=? _)%Z; lia. Qed.

Lemma insert_pos_before key ks :
  Forall (λ k, key_lt k key) (take (insert_pos key ks) ks).
Proof.
  induction ks as [|k ks IH]; simpl; [done|].
  destruct (Z.ltb_spec 0 (bytes_Compare key k)); simpl; [|done].
  constructor; [by apply bytes_Compare_gt|done].
Qed.

Lemma insert_pos_at key ks k :
  ks !! insert_pos key ks = Some k → (bytes_Compare key k ≤ 0)%Z.
Proof.
  induction ks as [|k0 ks IH]; simpl; [done|].
  destruct (Z.ltb_spec 0 (bytes_Compare key k0)); simpl; [done|].
  intros [= <-]. done.
Qed.

Lemma index_of_Some key ks i :
  index_of key ks = Some i → ks !! i = Some key.
Proof.
  revert i. induction ks as [|k ks IH]; intros i; simpl; [done|].
  destruct (bytes_Equal k key) eqn:He.
  - intros [= <-]. simpl. f_equal. by apply bytes_Equal_true.
  - destruct (index_of key ks); simpl; [|done]. intros [= <-]. simpl. by apply IH.
Qed.

Lemma index_of_None key ks : index_of key ks = None → key ∉ ks.
Proof.
  induction ks as [|k ks IH]; simpl; [set_solver|].
  destruct (bytes_Equal k key) eqn:He; [done|].
  destruct (index_of key ks); simpl; [done|]. intros _.
  apply not_elem_of_cons. split; [|by apply IH].
  intros ->. rewrite (proj2 (bytes_Equal_true k k)) in He; done.
Qed.

(** In a sorted leaf the position found by [insertIntoLeaf] is the
    position found by the lookup loop. *)
Lemma insert_pos_index_of key ks i :
  StronglySorted key_lt ks → index_of key ks = Some i → insert_pos key ks = i.
Proof.
  revert i. induction ks as [|k ks IH]; intros i Hs; simpl; [done|].
  apply StronglySorted_cons in Hs as [Hall Hs].
  destruct (bytes_Equal k key) eqn:He.
  - intros [= <-]. apply bytes_Equal_true in He as ->.
    rewrite bytes_Compare_refl. done.
  - destruct (index_of key ks) as [j|] eqn:Hj; simpl; [|done]. intros [= <-].
    assert (key_lt k key) as Hlt.
    { apply index_of_Some in Hj. rewrite Forall_forall in Hall.
      apply Hall. by eapply list_elem_of_lookup_2. }
    apply bytes_Compare_gt in Hlt.
    destruct (Z.ltb_spec 0 (bytes_Compare key k)); [|lia].
    f_equal. by apply IH.
Qed.

Lemma insert_pos_absent key ks k :
  key ∉ ks → ks !! insert_pos key ks = Some k → key_lt key k.
Proof.
  intros Hnot Hk. pose proof (insert_pos_at _ _ _ Hk) as Hle.
  unfold key_lt. destruct (decide (bytes_Compare key k = 0%Z)) as [He|]; [|lia].
  apply bytes_Compare_eq in He as ->.
  exfalso. apply Hnot. by eapply list_elem_of_lookup_2.
Qed.

Lemma sorted_insert_at key ks :
  StronglySorted key_lt ks → key ∉ ks →
  StronglySorted key_lt (insert_at (insert_pos key ks) key ks).
Proof.
  intros Hs Hnot. unfold insert_at.
  pose proof (insert_pos_before key ks) as Hbefore.
  rewrite <- (take_drop (insert_pos key ks) ks) in Hs.
  apply StronglySorted_app in Hs as (Hcross & Hl & Hr).
  assert (Hafter : Forall (key_lt key) (drop (insert_pos key ks) ks)).
  { destruct (drop (insert_pos key ks) ks) as [|k rest] eqn:Hd; [done|].
    assert (ks !! insert_pos key ks = Some k) as Hk.
    { rewrite <- (Nat.add_0_r (insert_pos key ks)), <- lookup_drop, Hd. done. }
    pose proof (insert_pos_absent _ _ _ Hnot Hk) as Hlt.
    apply StronglySorted_cons in Hr as [Hall _].
    constructor; [done|]. eapply Forall_impl; [exact Hall|].
    intros k' Hk'. by eapply key_lt_trans. }
  apply StronglySorted_app. split_and!; [|done|].
  - intros x1 x2 Hx1 [->|Hx2]%elem_of_cons.
    + rewrite Forall_forall in Hbefore. by apply Hbefore.
    + by apply Hcross.
  - apply StronglySorted_cons. done.
Qed.

Lemma sorted_remove_at i ks :
  StronglySorted key_lt ks → StronglySorted key_lt (remove_at i ks).
Proof.
  intros Hs. unfold remove_at.
  rewrite <- (take_drop i ks) in Hs.
  apply StronglySorted_app in Hs as (Hcross & Hl & Hr).
  assert (Hd : drop (S i) ks = drop 1 (drop i ks)).
  { rewrite drop_drop. f_equal. lia. }
  rewrite Hd. apply StronglySorted_app. split_and!; [|done|].
  - intros x1 x2 Hx1 Hx2. apply Hcross; [done|].
    destruct (drop i ks); simpl in *; set_solver.
  - destruct (drop i ks); simpl; [constructor|].
    rewrite drop_0. by apply StronglySorted_cons in Hr as [_ ?].
Qed.

Lemma length_insert_at {A} i (x : A) l : i ≤ length l → length (insert_at i x l) = S (length l).
Proof.
  intros Hi. unfold insert_at. rewrite length_app, length_take. simpl.
  rewrite length_drop. lia.
Qed.

Lemma length_remove_at {A} i (l : list A) : i < length l → length (remove_at i l) = pred (length l).
Proof.
  intros Hi. unfold remove_at. rewrite length_app, length_take, length_drop. lia.
Qed.

Lemma sum_len_insert_at i v vs : sum_len (insert_at i v vs) = (sum_len vs + blen v)%Z.
Proof.
  unfold insert_at. rewrite sum_len_app, sum_len_cons.
  rewrite <- (take_drop i vs) at 3. rewrite sum_len_app. lia.
Qed.

Lemma sum_len_remove_at i v vs :
  vs !! i = Some v → sum_len (remove_at i vs) = (sum_len vs - blen v)%Z.
Proof.
  intros Hv. unfold remove_at.
  rewrite <- (take_drop_middle vs i v Hv) at 3.
  rewrite !sum_len_app, sum_len_cons. lia.
Qed.

Lemma sum_len_update i v old vs :
  vs !! i = Some old → sum_len (<[i := v]> vs) = (sum_len vs + (blen v - blen old))%Z.
Proof.
  intros Hv. rewrite insert_take_drop by (by eapply lookup_lt_Some).
  rewrite <- (take_drop_middle vs i old Hv) at 3.
  rewrite !sum_len_app, !sum_len_cons. lia.
Qed.

End leaf.

(** ** The arena: stores, allocation, shape *)

Section arena.
Local Open Scope nat_scope.
Import btree.

Implicit Types (h : list Node) (n : Node) (t : BTree) (lvl : nat → nat) (orph : nat → Prop).

Lemma modify_Some h id f h' :
  modify h id f = Some h' ↔ ∃ n, h !! id = Some n ∧ h' = <[id := f n]> h.
Proof.
  unfold modify. destruct (h !! id) as [n|]; simpl.
  - split; [intros [= <-]; eauto|intros (n' & [= <-] & ->); done].
  - split; [done|intros (n' & ? & _); done].
Qed.

Lemma modify_total h id f :
  id < length h → ∃ n, h !! id = Some n ∧ modify h id f = Some (<[id := f n]> h).
Proof.
  intros Hid. destruct (lookup_lt_is_Some_2 h id Hid) as [n Hn].
  exists n. split; [done|]. unfold modify. by rewrite Hn.
Qed.

Lemma lookup_alloc_old h n id : id < length h → (h ++ [n]) !! id = h !! id.
Proof. intros. by apply lookup_app_l. Qed.

Lemma lookup_alloc_new h n : (h ++ [n]) !! length h = Some n.
Proof. by rewrite list_lookup_middle. Qed.

(** Node-level facts do not depend on the rest of the arena. *)
Lemma node_ok_mono orph orph' lvl lvl' len len' root root' id n :
  node_ok orph lvl len root id n →
  id < len → len ≤ len' →
  (∀ x, x < len → lvl' x = lvl x) →
  (parent n = None → id = root ∨ orph id → id = root' ∨ orph' id) →
  node_ok orph' lvl' len' root' id n.
Proof.
  intros [H1 H2 H3 H4 H5 H6] Hid Hlen Hlvl Horph. split; try done.
  - by rewrite Hlvl.
  - intros Hint. destruct (H2 Hint) as [Hl Hc]. split; [done|].
    intros c Hcin. destruct (Hc c Hcin) as [Hc1 Hc2].
    rewrite !Hlvl by done. split; [lia|done].
  - intros p Hp. destruct (H3 p Hp) as [Hp1 Hp2].
    rewrite !Hlvl by done. split; [lia|done].
  - intros Hnone. apply Horph; [done|]. by apply H4.
Qed.

Lemma shape_update orph lvl t id n' :
  shape orph lvl t →
  id < length (nodes t) →
  node_ok orph lvl (length (nodes t)) (root t) id n' →
  shape orph lvl (with_nodes (<[id := n']> (nodes t)) t).
Proof.
  intros [H1 H2 H3 H4 H5] Hid Hok. split; simpl; rewrite ?length_insert; try done.
  intros id0 n0 Hn0. destruct (decide (id0 = id)) as [->|Hne].
  - rewrite list_lookup_insert_eq in Hn0 by done. by injection Hn0 as <-.
  - rewrite list_lookup_insert_ne in Hn0 by done. by apply H5.
Qed.

Lemma lvl_with_old lvl id l x : x ≠ id → lvl_with lvl id l x = lvl x.
Proof. intros. unfold lvl_with. by rewrite decide_False. Qed.

Lemma lvl_with_new lvl id l : lvl_with lvl id l id = l.
Proof. unfold lvl_with. by rewrite decide_True. Qed.

(** Allocating a node below or at the level of the root. *)
Lemma shape_alloc orph orph' lvl t n l :
  shape orph lvl t →
  l ≤ lvl (root t) →
  (∀ x, orph x → orph' x) →
  node_ok orph' (lvl_with lvl (length (nodes t)) l) (S (length (nodes t))) (root t)
    (length (nodes t)) n →
  shape orph' (lvl_with lvl (length (nodes t)) l) (with_nodes (nodes t ++ [n]) t).
Proof.
  intros [H1 H2 H3 H4 H5] Hl Horph Hok.
  split; simpl; rewrite ?length_app; simpl; rewrite ?Nat.add_1_r; try done.
  - lia.
  - intros id Hid. rewrite (lvl_with_old _ _ _ (root t)) by lia.
    destruct (decide (id = length (nodes t))) as [->|Hne].
    + by rewrite lvl_with_new.
    + rewrite lvl_with_old by done. apply H2. lia.
  - rewrite lvl_with_old by lia. lia.
  - intros id n0 Hn0. destruct (decide (id = length (nodes t))) as [->|Hne].
    + rewrite lookup_alloc_new in Hn0. by injection Hn0 as <-.
    + assert (id < length (nodes t)) as Hid.
      { apply lookup_lt_Some in Hn0. rewrite length_app in Hn0. simpl in Hn0. lia. }
      rewrite lookup_alloc_old in Hn0 by done.
      eapply node_ok_mono; [by apply H5|done|lia| |].
      * intros x Hx. apply lvl_with_old. lia.
      * intros _ [?|?]; [by left|right; by apply Horph].
Qed.

Lemma shape_orph orph orph' lvl t :
  shape orph lvl t →
  (∀ id n, nodes t !! id = Some n → parent n = None → orph id → id = root t ∨ orph' id) →
  shape orph' lvl t.
Proof.
  intros [H1 H2 H3 H4 H5] Horph. split; try done.
  intros id n Hn. eapply node_ok_mono; [by apply H5|by eapply lookup_lt_Some|done|done|].
  intros Hnone [?|?]; [by left|by eapply Horph].
Qed.

(** Changing one field of a good node. *)
Lemma node_ok_set_parent orph0 orph lvl len root0 root id n p :
  node_ok orph0 lvl len root0 id n →
  p < len → lvl p = S (lvl id) →
  node_ok orph lvl len root id (set_parent (Some p) n).
Proof.
  intros [H1 H2 H3 H4 H5 H6] Hp Hl. split; simpl; try done.
  - intros p' [= <-]. done.
  - intros Hleaf. destruct (H6 Hleaf). by split.
Qed.

(** The descent of [findLeaf] ends in a leaf when the fuel exceeds the
    level of the start node. *)
Lemma findLeaf_from_total orph lvl t key fuel id :
  shape orph lvl t →
  id < length (nodes t) →
  lvl id < fuel →
  ∃ leaf n, findLeaf_from fuel (nodes t) id key = Some leaf
          ∧ nodes t !! leaf = Some n ∧ isLeaf n = true.
Proof.
  intros Hsh. revert id. induction fuel as [|fuel IH]; intros id Hid Hfuel; [lia|].
  destruct (lookup_lt_is_Some_2 _ _ Hid) as [n Hn]. simpl. rewrite Hn. simpl.
  destruct (isLeaf n) eqn:Hleaf; [by eauto|].
  destruct (sh_nodes _ _ _ Hsh id n Hn) as [H1 H2 _ _ _ _].
  destruct (H2 Hleaf) as [Hlen Hkids].
  pose proof (descend_pos_le key (keys n)) as Hpos.
  destruct (lookup_lt_is_Some_2 (children n) (descend_pos key (keys n))) as [c Hc]; [lia|].
  rewrite Hc. simpl.
  destruct (Hkids c) as [Hc1 Hc2]; [by eapply list_elem_of_lookup_2|].
  apply IH; [done|lia].
Qed.

Lemma findLeaf_total orph lvl t key :
  shape orph lvl t →
  ∃ leaf n, findLeaf t key = Some leaf ∧ nodes t !! leaf = Some n ∧ isLeaf n = true.
Proof.
  intros Hsh. unfold findLeaf. eapply findLeaf_from_total; [done|apply Hsh|].
  pose proof (sh_height _ _ _ Hsh). lia.
Qed.

End arena.

(** ** Frames: what a split leaves alone *)

Section frames.
Local Open Scope nat_scope.
Import btree.

Implicit Types (h : list Node) (n : Node) (t : BTree) (lvl : nat → nat) (orph : nat → Prop).

Lemma node_frame_refl n : node_frame n n.
Proof. by split. Qed.

Lemma node_frame_trans n1 n2 n3 : node_frame n1 n2 → node_frame n2 n3 → node_frame n1 n3.
Proof.
  intros [A1 A2 A3 A4] [B1 B2 B3 B4]. split.
  - congruence.
  - intros Hl. destruct (A2 Hl) as (Ak & Av & An).
    destruct B2 as (Bk & Bv & Bn); [congruence|]. split_and!; congruence.
  - intros Hl. rewrite <- A3 by done. apply B3. congruence.
  - auto.
Qed.

Lemma node_frame_set_parent n p : node_frame n (set_parent (Some p) n).
Proof. by split. Qed.

Lemma extends_refl h : extends h h.
Proof.
  split; [done| |].
  - intros id n Hn. exists n. split; [done|apply node_frame_refl].
  - intros id n' Hid Hn'. apply lookup_lt_Some in Hn'. lia.
Qed.

Lemma extends_trans h1 h2 h3 : extends h1 h2 → extends h2 h3 → extends h1 h3.
Proof.
  intros [A1 A2 A3] [B1 B2 B3]. split; [lia| |].
  - intros id n Hn. destruct (A2 id n Hn) as (n2 & Hn2 & Hf2).
    destruct (B2 id n2 Hn2) as (n3 & Hn3 & Hf3).
    exists n3. split; [done|by eapply node_frame_trans].
  - intros id n' Hid Hn'. destruct (decide (length h2 ≤ id)) as [Hge|Hlt].
    + by eapply B3.
    + destruct (lookup_lt_is_Some_2 h2 id) as [n2 Hn2]; [lia|].
      destruct (B2 id n2 Hn2) as (n3 & Hn3 & [Hf _ _ _]).
      rewrite Hn' in Hn3. injection Hn3 as <-. rewrite Hf. by eapply A3.
Qed.

Lemma extends_update h id n n' :
  h !! id = Some n → node_frame n n' → extends h (<[id := n']> h).
Proof.
  intros Hn Hf. split; rewrite ?length_insert; [done| |].
  - intros id0 n0 Hn0. destruct (decide (id0 = id)) as [->|Hne].
    + exists n'. rewrite list_lookup_insert_eq by (by eapply lookup_lt_Some).
      split; [done|]. congruence.
    + exists n0. rewrite list_lookup_insert_ne by done.
      split; [done|apply node_frame_refl].
  - intros id0 n0 Hid Hn0. apply lookup_lt_Some in Hn0.
    rewrite length_insert in Hn0. lia.
Qed.

Lemma extends_alloc h n : isLeaf n = false → extends h (h ++ [n]).
Proof.
  intros Hint. split; [rewrite length_app; lia| |].
  - intros id n0 Hn0. exists n0.
    rewrite lookup_app_l by (by eapply lookup_lt_Some).
    split; [done|apply node_frame_refl].
  - intros id n0 Hid Hn0.
    assert (id = length h) as ->.
    { apply lookup_lt_Some in Hn0. rewrite length_app in Hn0. simpl in Hn0. lia. }
    rewrite list_lookup_middle in Hn0 by done. by injection Hn0 as <-.
Qed.

Lemma lmost_extends h h' id : extends h h' → lmost h id → lmost h' id.
Proof.
  intros Hex. induction 1 as [n Hn Hl|id n c Hn Hl Hc _ IH].
  - destruct (ex_old _ _ Hex _ _ Hn) as (n' & Hn' & [Hf _ _ _]).
    eapply lmost_leaf; [done|congruence].
  - destruct (ex_old _ _ Hex _ _ Hn) as (n' & Hn' & [Hf _ Hfirst _]).
    eapply lmost_node; [done|congruence| |done].
    rewrite Hfirst by done. done.
Qed.

Lemma linked_extends h h' start ids : extends h h' → linked h start ids → linked h' start ids.
Proof.
  intros Hex. revert start. induction ids as [|id ids IH]; intros start; simpl; [done|].
  intros (-> & n & Hn & Hl & Hrest). split; [done|].
  destruct (ex_old _ _ Hex _ _ Hn) as (n' & Hn' & [Hf Hd _ _]).
  destruct (Hd Hl) as (_ & _ & Hnext).
  exists n'. split_and!; [done|congruence|]. rewrite Hnext. by apply IH.
Qed.

Lemma leaves_extends h h' (ids : list nat) :
  extends h h' →
  (∀ id n, h !! id = Some n → isLeaf n = true → id ∈ ids) →
  ∀ id n', h' !! id = Some n' → isLeaf n' = true → id ∈ ids.
Proof.
  intros Hex Hall id n' Hn' Hl. destruct (decide (length h ≤ id)) as [Hge|Hlt].
  - pose proof (ex_new _ _ Hex _ _ Hge Hn'). congruence.
  - destruct (lookup_lt_is_Some_2 h id) as [n Hn]; [lia|].
    destruct (ex_old _ _ Hex _ _ Hn) as (n2 & Hn2 & [Hf _ _ _]).
    eapply Hall; [done|]. congruence.
Qed.

Lemma leaf_keys_extends h h' id n :
  extends h h' → h !! id = Some n → isLeaf n = true →
  leaf_keys h' id = leaf_keys h id ∧ leaf_values h' id = leaf_values h id.
Proof.
  intros Hex Hn Hl. destruct (ex_old _ _ Hex _ _ Hn) as (n' & Hn' & [_ Hd _ _]).
  destruct (Hd Hl) as (Hk & Hv & _).
  unfold leaf_keys, leaf_values. by rewrite Hn, Hn', Hk, Hv.
Qed.

Lemma linked_leaf h start ids id :
  linked h start ids → id ∈ ids → ∃ n, h !! id = Some n ∧ isLeaf n = true.
Proof.
  revert start. induction ids as [|id0 ids IH]; intros start; simpl; [set_solver|].
  intros (-> & n & Hn & Hl & Hrest) [->|Hin]%elem_of_cons; [eauto|]. by eapply IH.
Qed.

Lemma chain_extends h h' start ids :
  extends h h' → linked h start ids →
  chain_keys h' ids = chain_keys h ids ∧ chain_values h' ids = chain_values h ids.
Proof.
  intros Hex. revert start. unfold chain_keys, chain_values.
  induction ids as [|id ids IH]; intros start Hlk; [done|].
  destruct Hlk as (-> & n & Hn & Hl & Hrest). rewrite !bind_cons.
  destruct (leaf_keys_extends _ _ _ _ Hex Hn Hl) as [-> ->].
  destruct (IH _ Hrest) as [-> ->]. done.
Qed.

(** The loop that re-parents the children moved to a new node. *)
Lemma reparent_spec h cs p :
  (∀ c, c ∈ cs → c < length h) →
  ∃ h', reparent h cs p = Some h'
      ∧ length h' = length h
      ∧ ∀ id, h' !! id =
          if decide (id ∈ cs) then set_parent (Some p) <$> h !! id else h !! id.
Proof.
  revert h. induction cs as [|c cs IH]; intros h Hcs; cbn [reparent].
  - exists h. split_and!; [done..|]. intros id. case_decide; [set_solver|done].
  - destruct (modify_total h c (set_parent (Some p))) as (n & Hn & ->); [set_solver|].
    simpl. destruct (IH (<[c := set_parent (Some p) n]> h)) as (h' & -> & Hlen & Hlook).
    { intros c' Hc'. rewrite length_insert. set_solver. }
    exists h'. split_and!; [done|by rewrite Hlen, length_insert|].
    intros id. rewrite Hlook. destruct (decide (id = c)) as [->|Hne].
    + rewrite list_lookup_insert_eq by (by eapply lookup_lt_Some).
      rewrite Hn. repeat case_decide; try done; set_solver.
    + rewrite list_lookup_insert_ne by done.
      repeat case_decide; try done; set_solver.
Qed.

Lemma shape_reparent orph lvl t cs p h' :
  shape orph lvl t →
  (∀ c, c ∈ cs → c < length (nodes t) ∧ lvl p = S (lvl c)) →
  p < length (nodes t) →
  reparent (nodes t) cs p = Some h' →
  shape orph lvl (with_nodes h' t)
  ∧ extends (nodes t) h'
  ∧ length h' = length (nodes t)
  ∧ ∀ id n, nodes t !! id = Some n → id ∉ cs → h' !! id = Some n.
Proof.
  intros Hsh Hcs Hp Hre.
  destruct (reparent_spec (nodes t) cs p) as (h2 & Hre2 & Hlen & Hlook);
    [intros c Hc; by apply Hcs|].
  rewrite Hre in Hre2. injection Hre2 as <-.
  split_and!; [| |done|].
  - destruct Hsh as [H1 H2 H3 H4 H5]. split; simpl; rewrite ?Hlen; try done.
    intros id n' Hn'. rewrite Hlook in Hn'. destruct (decide (id ∈ cs)) as [Hin|Hnin].
    + destruct (nodes t !! id) as [n|] eqn:Hn; [|done]. injection Hn' as <-.
      destruct (Hcs id Hin) as [_ Hl].
      eapply node_ok_set_parent; [by apply H5|done|done].
    + by apply H5.
  - split; [lia| |].
    + intros id n Hn. rewrite Hlook, Hn. destruct (decide (id ∈ cs)); simpl.
      * eexists. split; [done|apply node_frame_set_parent].
      * eexists. split; [done|apply node_frame_refl].
    + intros id n' Hid Hn'. apply lookup_lt_Some in Hn'. lia.
  - intros id n Hn Hnin. rewrite Hlook. by case_decide.
Qed.

End frames.

(** ** Splitting internal nodes *)

Section internal_split.
Local Open Scope nat_scope.
Import btree.

Implicit Types (h : list Node) (n : Node) (t : BTree) (lvl : nat → nat) (orph : nat → Prop).

Lemma insert_at_first {A} i (x : A) l : 0 < length l → insert_at (S i) x l !! 0 = l !! 0.
Proof. intros Hl. destruct l; simpl in *; [lia|done]. Qed.

Lemma elem_of_insert_at {A} i (x y : A) l : y ∈ insert_at i x l → y = x ∨ y ∈ l.
Proof.
  unfold insert_at. rewrite elem_of_app, elem_of_cons.
  intros [Hin|[->|Hin]]; [right|by left|right].
  - by eapply subseteq_take.
  - by eapply subseteq_drop.
Qed.

Lemma Forall_insert_at {A} (P : A → Prop) i x l :
  P x → Forall P l → Forall P (insert_at i x l).
Proof.
  intros Hx Hl. unfold insert_at. apply Forall_app. split.
  - by apply Forall_take.
  - constructor; [done|by apply Forall_drop].
Qed.

Lemma node_ok_insert_child orph lvl len root p n key rc i :
  node_ok orph lvl len root p n →
  isLeaf n = false →
  rc < len → lvl p = S (lvl rc) → sep_ok key →
  i ≤ length (keys n) →
  let n' := set_children (insert_at (S i) rc (children n))
              (set_keys (insert_at i key (keys n)) n) in
  node_ok orph lvl len root p n' ∧ node_frame n n'.
Proof.
  intros [H1 H2 H3 H4 H5 H6] Hint Hrc Hlvl Hkey Hi.
  destruct (H2 Hint) as [Hlen Hkids]. split.
  - split; simpl; try done.
    + intros _. split.
      * rewrite !length_insert_at by lia. lia.
      * intros c [->|Hc]%elem_of_insert_at; [done|by apply Hkids].
    + intros _. apply Forall_insert_at; [done|by apply H5].
    + congruence.
  - split; simpl; try done; [congruence|].
    intros _. apply insert_at_first. lia.
Qed.

Lemma node_ok_split_left orph lvl len root p n mid :
  node_ok orph lvl len root p n →
  isLeaf n = false →
  mid < length (keys n) →
  let n' := set_children (take (S mid) (children n)) (set_keys (take mid (keys n)) n) in
  node_ok orph lvl len root p n' ∧ node_frame n n'.
Proof.
  intros [H1 H2 H3 H4 H5 H6] Hint Hmid.
  destruct (H2 Hint) as [Hlen Hkids]. split.
  - split; simpl; try done.
    + intros _. split.
      * rewrite !length_take_le by lia. done.
      * intros c Hc. apply Hkids. by eapply subseteq_take.
    + intros _. apply Forall_take. by apply H5.
    + congruence.
  - split; simpl; try done; [congruence|].
    intros _. by rewrite lookup_take_lt by lia.
Qed.

Lemma node_ok_split_right orph orph' lvl len root p n mid :
  node_ok orph lvl len root p n →
  isLeaf n = false →
  mid < length (keys n) →
  orph' len →
  node_ok orph' (lvl_with lvl len (lvl p)) (S len) root len
    (set_children (drop (S mid) (children n))
       (set_keys (drop (S mid) (keys n)) newInternalNode)).
Proof.
  intros [H1 H2 H3 H4 H5 H6] Hint Hmid Horph.
  destruct (H2 Hint) as [Hlen Hkids]. split; simpl; try done.
  - rewrite lvl_with_new. split; [done|]. intros Hz. apply H1 in Hz. congruence.
  - intros _. split.
    + rewrite !length_drop. lia.
    + intros c Hc. destruct (Hkids c) as [Hc1 Hc2]; [by eapply subseteq_drop|].
      rewrite lvl_with_new, lvl_with_old by lia. split; [lia|done].
  - intros _. by right.
  - intros _. apply Forall_drop. by apply H5.
Qed.

End internal_split.

Section split_steps.
Local Open Scope nat_scope.
Import btree.

Implicit Types (h : list Node) (n : Node) (t : BTree) (lvl : nat → nat) (orph : nat → Prop).

Lemma shape_internal orph lvl t id n :
  shape orph lvl t → nodes t !! id = Some n → lvl id ≠ 0 → isLeaf n = false.
Proof.
  intros Hsh Hn Hl. destruct (isLeaf n) eqn:E; [|done].
  apply (nk_leaf _ _ _ _ _ _ (sh_nodes _ _ _ Hsh _ _ Hn)) in E. lia.
Qed.

(** The first half of [splitInternal]: the new right-hand node is
    allocated, takes the upper children and becomes their parent, and
    the old node keeps the lower ones. The new node has no parent yet. *)
Lemma split_phase1 orph lvl t p n mid :
  shape orph lvl t →
  nodes t !! p = Some n →
  isLeaf n = false →
  mid < length (keys n) →
  let N := length (nodes t) in
  let newNode := set_children (drop (S mid) (children n))
                   (set_keys (drop (S mid) (keys n)) newInternalNode) in
  let n3 := set_children (take (S mid) (children n)) (set_keys (take mid (keys n)) n) in
  ∃ h2,
    reparent (nodes t ++ [newNode]) (drop (S mid) (children n)) N = Some h2
    ∧ h2 !! p = Some n
    ∧ shape (λ x, x = N ∨ orph x) (lvl_with lvl N (lvl p)) (with_nodes (<[p := n3]> h2) t)
    ∧ extends (nodes t) (<[p := n3]> h2)
    ∧ length h2 = S (length (nodes t)).
Proof.
  intros Hsh Hn Hint Hmid N newNode n3.
  pose proof (sh_nodes _ _ _ Hsh _ _ Hn) as Hok.
  pose proof (lookup_lt_Some _ _ _ Hn) as Hp.
  destruct (nk_kids _ _ _ _ _ _ Hok Hint) as [Hlen Hkids].
  set (orph1 := λ x, x = N ∨ orph x).
  set (lvl1 := lvl_with lvl N (lvl p)).
  assert (Hsh1 : shape orph1 lvl1 (with_nodes (nodes t ++ [newNode]) t)).
  { apply shape_alloc with (orph := orph); [done| |by right|].
    - apply (sh_top _ _ _ Hsh). done.
    - eapply node_ok_split_right; [exact Hok|done|done|by left]. }
  destruct (reparent_spec (nodes t ++ [newNode]) (drop (S mid) (children n)) N)
    as (h2 & Hre & _ & _).
  { intros c Hc. rewrite length_app. simpl.
    destruct (Hkids c) as [? _]; [by eapply subseteq_drop|]. lia. }
  destruct (shape_reparent orph1 lvl1 (with_nodes (nodes t ++ [newNode]) t)
              (drop (S mid) (children n)) N h2) as (Hsh2 & Hex2 & Hlen2 & Hsame);
    [done| | |done|].
  { intros c Hc. simpl. rewrite length_app. simpl.
    destruct (Hkids c) as [Hc1 Hc2]; [by eapply subseteq_drop|].
    split; [lia|]. unfold lvl1. rewrite lvl_with_new, lvl_with_old by (unfold N; lia). done. }
  { simpl. rewrite length_app. simpl. unfold N. lia. }
  simpl in Hlen2, Hsame. rewrite length_app in Hlen2. simpl in Hlen2.
  assert (h2 !! p = Some n) as Hp2.
  { apply Hsame; [by rewrite lookup_app_l|].
    intros Hin. destruct (Hkids p) as [_ Hl]; [by eapply subseteq_drop|]. lia. }
  exists h2. split_and!; [done|done| | |lia].
  - destruct (node_ok_split_left orph1 lvl1 (length h2) (root t) p n mid) as [Hok3 _];
      [|done|done|].
    { apply (sh_nodes _ _ _ Hsh2 p n). done. }
    apply (shape_update _ _ (with_nodes h2 t)); [done|simpl; lia|done].
  - eapply extends_trans; [|eapply extends_trans; [exact Hex2|]].
    + by apply extends_alloc.
    + eapply extends_update; [done|].
      by destruct (node_ok_split_left orph lvl (length (nodes t)) (root t) p n mid).
Qed.

(** The root has split into [a] and [b]: a new root is allocated above
    them. *)
Lemma shape_new_root orph1 orph lvl t a b pk :
  shape orph1 lvl t →
  root t = a →
  b < length (nodes t) → a ≠ b → lvl b = lvl a →
  (∀ x, orph1 x → x = b ∨ orph x) →
  sep_ok pk →
  let NR := length (nodes t) in
  let newRoot := set_children [a; b] (set_keys [pk] newInternalNode) in
  ∃ h4 h5,
    modify (nodes t ++ [newRoot]) a (set_parent (Some NR)) = Some h4
    ∧ modify h4 b (set_parent (Some NR)) = Some h5
    ∧ shape orph (lvl_with lvl NR (S (lvl a))) {| nodes := h5; root := NR; order := order t |}
    ∧ extends (nodes t) h5
    ∧ (lmost (nodes t) a → lmost h5 NR).
Proof.
  intros Hsh Hroot Hb Hab Hlvl Horph Hpk NR newRoot.
  pose proof (sh_root _ _ _ Hsh) as Ha. rewrite Hroot in Ha.
  destruct (lookup_lt_is_Some_2 _ _ Ha) as [na Hna].
  destruct (lookup_lt_is_Some_2 _ _ Hb) as [nb Hnb].
  set (h3 := nodes t ++ [newRoot]).
  set (h4 := <[a := set_parent (Some NR) na]> h3).
  set (h5 := <[b := set_parent (Some NR) nb]> h4).
  assert (h3 !! a = Some na) as Ha3 by (unfold h3; by rewrite lookup_app_l).
  assert (h4 !! b = Some nb) as Hb4.
  { unfold h4. rewrite list_lookup_insert_ne by done. unfold h3. by rewrite lookup_app_l. }
  assert (length h5 = S (length (nodes t))) as Hlen5.
  { unfold h5, h4, h3. rewrite !length_insert, length_app. simpl. lia. }
  exists h4, h5. split_and!.
  - unfold modify. by rewrite Ha3.
  - unfold modify. by rewrite Hb4.
  - set (lvl' := lvl_with lvl NR (S (lvl a))).
    assert (Hold : ∀ x, x < length (nodes t) → lvl' x = lvl x).
    { intros x Hx. apply lvl_with_old. unfold NR. lia. }
    split; simpl; rewrite ?Hlen5.
    + unfold NR. lia.
    + intros id Hid. unfold lvl' at 2. rewrite lvl_with_new.
      destruct (decide (id = NR)) as [->|Hne].
      * unfold lvl'. by rewrite lvl_with_new.
      * rewrite Hold by (unfold NR in Hne; lia).
        pose proof (sh_top _ _ _ Hsh id) as Htop. rewrite Hroot in Htop.
        unfold NR in Hne. assert (id < length (nodes t)) by lia. specialize (Htop H). lia.
    + unfold lvl'. rewrite lvl_with_new.
      pose proof (sh_height _ _ _ Hsh) as Hh. rewrite Hroot in Hh. lia.
    + apply Hsh.
    + intros id n0 Hn0.
      assert (Hlift : ∀ id1 n1, nodes t !! id1 = Some n1 →
                node_ok orph1 lvl' (S (length (nodes t))) a id1 n1).
      { intros id1 n1 Hn1.
        eapply node_ok_mono; [by apply (sh_nodes _ _ _ Hsh)|by eapply lookup_lt_Some|lia|done|].
        rewrite Hroot. done. }
      assert (HNR : lvl' NR = S (lvl a)) by (unfold lvl'; by rewrite lvl_with_new).
      destruct (decide (id = b)) as [->|Hneb].
      { unfold h5 in Hn0. rewrite list_lookup_insert_eq in Hn0
          by (unfold h4, h3; rewrite length_insert, length_app; simpl; lia).
        injection Hn0 as <-. eapply node_ok_set_parent; [by apply Hlift|unfold NR; lia|].
        rewrite HNR, Hold by done. lia. }
      unfold h5 in Hn0. rewrite list_lookup_insert_ne in Hn0 by done.
      destruct (decide (id = a)) as [->|Hnea].
      { unfold h4 in Hn0. rewrite list_lookup_insert_eq in Hn0
          by (unfold h3; rewrite length_app; simpl; lia).
        injection Hn0 as <-. eapply node_ok_set_parent; [by apply Hlift|unfold NR; lia|].
        rewrite HNR, Hold by done. done. }
      unfold h4 in Hn0. rewrite list_lookup_insert_ne in Hn0 by done.
      destruct (decide (id = NR)) as [->|HneR].
      { unfold h3, NR in Hn0. rewrite lookup_alloc_new in Hn0. injection Hn0 as <-.
        split; simpl; try done.
        - rewrite HNR. done.
        - intros _. split; [done|]. intros c Hc. rewrite HNR.
          apply elem_of_cons in Hc as [->|Hc]; [|apply list_elem_of_singleton in Hc as ->].
          + rewrite Hold by done. split; [lia|done].
          + rewrite Hold by done. split; [lia|by rewrite Hlvl].
        - intros _. by left.
        - intros _. by constructor. }
      assert (id < length (nodes t)) as Hid.
      { apply lookup_lt_Some in Hn0. unfold h3 in Hn0. rewrite length_app in Hn0.
        simpl in Hn0. unfold NR in HneR. lia. }
      unfold h3 in Hn0. rewrite lookup_alloc_old in Hn0 by done.
      eapply node_ok_mono; [by apply (sh_nodes _ _ _ Hsh)|done|lia|done|].
      rewrite Hroot. intros _ [?|Ho]; [done|].
      destruct (Horph _ Ho); [done|by right].
  - assert (extends (nodes t) h3) as Hex3 by (by apply extends_alloc).
    assert (extends h3 h4) as Hex4.
    { eapply extends_update; [done|apply node_frame_set_parent]. }
    assert (extends h4 h5) as Hex5.
    { eapply extends_update; [done|apply node_frame_set_parent]. }
    eauto using extends_trans.
  - intros Hlm.
    assert (extends (nodes t) h5) as Hex.
    { assert (extends (nodes t) h3) as Hex3 by (by apply extends_alloc).
      assert (extends h3 h4) as Hex4.
      { eapply extends_update; [done|apply node_frame_set_parent]. }
      assert (extends h4 h5) as Hex5.
      { eapply extends_update; [done|apply node_frame_set_parent]. }
      eauto using extends_trans. }
    eapply (lmost_node h5 NR newRoot a); [|done|done|by eapply lmost_extends].
    unfold h5, h4. rewrite !list_lookup_insert_ne by (unfold NR; lia).
    unfold h3, NR. apply lookup_alloc_new.
Qed.

End split_steps.

Section insert_into_parent.
Local Open Scope nat_scope.
Import btree.

Implicit Types (h : list Node) (n : Node) (t : BTree) (lvl : nat → nat) (orph : nat → Prop).

(** [insertIntoParent] returns, keeps the shape of the arena and leaves
    the leaves' data alone. [rc] is the node a split has just created;
    it and the other nodes in [orph] have no parent yet and lie below
    [p]. *)
Lemma insertIntoParent_ok fuel : ∀ orph lvl t p key rc,
  shape orph lvl t →
  p < length (nodes t) → rc < length (nodes t) →
  lvl p = S (lvl rc) →
  (∀ x, orph x → lvl x < lvl p) →
  sep_ok key →
  lvl (root t) - lvl p < fuel →
  ∃ t' lvl',
    insertIntoParent fuel t p key rc = Some t'
    ∧ shape orph lvl' t'
    ∧ extends (nodes t) (nodes t')
    ∧ (∀ x, x < length (nodes t) → lvl' x = lvl x)
    ∧ (lmost (nodes t) (root t) → lmost (nodes t') (root t')).
Proof.
  induction fuel as [|fuel IH];
    intros orph lvl t p key rc Hsh Hp Hrc Hlvl Horph Hkey Hfuel; [lia|].
  destruct (lookup_lt_is_Some_2 _ _ Hp) as [n Hn].
  cbn [insertIntoParent]. rewrite Hn. cbn [mbind option_bind].
  pose proof (sh_nodes _ _ _ Hsh p n Hn) as Hok.
  assert (isLeaf n = false) as Hint by (eapply shape_internal; [done..|lia]).
  destruct (nk_kids _ _ _ _ _ _ Hok Hint) as [Hlen Hkids].
  pose proof (insert_pos_le key (keys n)) as Hi.
  rewrite (leb_correct (S (insert_pos key (keys n))) (length (children n))) by lia.
  destruct (node_ok_insert_child orph lvl _ _ p n key rc (insert_pos key (keys n))
              Hok Hint Hrc Hlvl Hkey Hi) as [Hok' Hfr'].
  set (n' := set_children (insert_at (S (insert_pos key (keys n))) rc (children n))
               (set_keys (insert_at (insert_pos key (keys n)) key (keys n)) n)) in *.
  set (t1 := with_nodes (<[p := n']> (nodes t)) t).
  assert (Hsh1 : shape orph lvl t1) by (by apply shape_update).
  assert (Hex1 : extends (nodes t) (nodes t1)) by (by eapply extends_update).
  assert (Hn1 : nodes t1 !! p = Some n') by (by apply list_lookup_insert_eq).
  assert (Hlen1 : length (nodes t1) = length (nodes t)) by apply length_insert.
  destruct (order t <=? Z.of_nat (length (keys n')))%Z eqn:Hfull.
  2: { exists t1, lvl. split_and!; try done. intros Hlm. by eapply lmost_extends. }
  apply Z.leb_le in Hfull. pose proof (sh_order _ _ _ Hsh) as Hord.
  set (mid := length (keys n') / 2).
  assert (1 ≤ mid ∧ mid < length (keys n')) as [Hmid1 Hmid2].
  { assert (3 ≤ length (keys n')) by lia. unfold mid. split.
    - apply Nat.div_le_lower_bound; lia.
    - apply Nat.div_lt; lia. }
  destruct (lookup_lt_is_Some_2 (keys n') mid Hmid2) as [pk Hpk].
  assert (sep_ok pk) as Hsep.
  { pose proof (nk_seps _ _ _ _ _ _ Hok' Hint) as Hall.
    rewrite Forall_lookup in Hall. by eapply Hall. }
  destruct (split_phase1 orph lvl t1 p n' mid Hsh1 Hn1 Hint Hmid2)
    as (h2 & Hre & Hp2 & Hsh3 & Hex3 & Hlen2).
  unfold splitInternal_with. rewrite Hn1. cbn [mbind option_bind].
  fold mid. rewrite Hpk. cbn [mbind option_bind]. unfold alloc.
  rewrite Hre. cbn [mbind option_bind].
  assert (Hm : ∀ f, modify h2 p f = Some (<[p := f n']> h2))
    by (intros f; unfold modify; by rewrite Hp2).
  rewrite Hm. cbn [mbind option_bind].
  set (n3 := set_children (take (S mid) (children n')) (set_keys (take mid (keys n')) n')) in *.
  set (h3 := <[p := n3]> h2) in *.
  set (N := length (nodes t1)) in *.
  set (orph1 := λ x, x = N ∨ orph x) in *.
  set (lvl1 := lvl_with lvl N (lvl p)) in *.
  assert (Hlen3 : length h3 = S (length (nodes t))).
  { unfold h3. rewrite length_insert. lia. }
  assert (Hp3 : h3 !! p = Some n3).
  { unfold h3. apply list_lookup_insert_eq. lia. }
  rewrite Hp3. cbn [mbind option_bind].
  assert (Hlvl1 : ∀ x, x < length (nodes t) → lvl1 x = lvl x).
  { intros x Hx. apply lvl_with_old. unfold N. lia. }
  assert (HlvlN : lvl1 N = lvl p) by apply lvl_with_new.
  change (parent n3) with (parent n).
  destruct (parent n) as [pp|] eqn:Hpar.
  - (* the split node has a parent: go up *)
    destruct (nk_parent _ _ _ _ _ _ Hok pp Hpar) as [Hpp Hlpp].
    pose proof (sh_top _ _ _ Hsh pp Hpp) as Htop.
    destruct (IH orph1 lvl1 (with_nodes h3 t1) pp pk N) as (t4 & lvl4 & Hrec & Hsh4 & Hex4 & Hlvl4 & Hlm4).
    + exact Hsh3.
    + simpl. lia.
    + simpl. unfold N. lia.
    + rewrite HlvlN, Hlvl1 by done. done.
    + intros x [->|Hx].
      * rewrite HlvlN, Hlvl1 by done. lia.
      * rewrite (Hlvl1 pp) by done. destruct (decide (x = N)) as [->|Hne].
        -- rewrite HlvlN. lia.
        -- unfold lvl1. rewrite lvl_with_old by done. specialize (Horph x Hx). lia.
    + done.
    + simpl. rewrite !Hlvl1 by (done || apply Hsh). lia.
    + rewrite Hrec. cbn [mbind option_bind].
      simpl in Hex4, Hlvl4, Hlm4.
      destruct (ex_old _ _ Hex4 p n3 Hp3) as (n4 & Hn4 & Hfr4).
      rewrite Hn4. cbn [mbind option_bind].
      destruct (parent n4) as [q|] eqn:Hq.
      2: { exfalso. eapply (nf_parent _ _ Hfr4); [|done]. simpl. by rewrite Hpar. }
      pose proof (ex_len _ _ Hex4) as Hlen4. simpl in Hlen4.
      destruct (modify_total (nodes t4) N (set_parent (Some q))) as (nN & HnN & ->);
        [unfold N; lia|].
      cbn [mbind option_bind].
      destruct (nk_parent _ _ _ _ _ _ (sh_nodes _ _ _ Hsh4 _ _ Hn4) q Hq) as [Hq1 Hq2].
      set (t5 := with_nodes (<[N := set_parent (Some q) nN]> (nodes t4)) t4).
      assert (Hsh5 : shape orph1 lvl4 t5).
      { apply shape_update; [done|unfold N; lia|].
        eapply node_ok_set_parent; [by apply (sh_nodes _ _ _ Hsh4)|done|].
        rewrite Hq2, !Hlvl4 by (rewrite Hlen3; unfold N; lia).
        rewrite HlvlN, Hlvl1 by done. done. }
      exists t5, lvl4. split_and!; [done| | | |].
      * eapply shape_orph; [exact Hsh5|].
        intros id n0 Hn0 Hnone [->|Ho]; [|by right].
        unfold t5 in Hn0. simpl in Hn0.
        rewrite list_lookup_insert_eq in Hn0 by (unfold N; lia).
        injection Hn0 as <-. done.
      * eapply extends_trans; [exact Hex1|]. eapply extends_trans; [exact Hex3|].
        eapply extends_trans; [exact Hex4|].
        eapply extends_update; [done|apply node_frame_set_parent].
      * intros x Hx. rewrite Hlvl4 by lia. by apply Hlvl1.
      * intros Hlm. eapply lmost_extends.
        -- eapply (extends_update (nodes t4)); [done|apply node_frame_set_parent].
        -- apply Hlm4. eapply lmost_extends; [|exact Hlm].
           eapply extends_trans; [exact Hex1|exact Hex3].
  - (* the split node is the root *)
    assert (p = root t) as Hroot.
    { destruct (nk_noparent _ _ _ _ _ _ Hok Hpar) as [?|Ho]; [done|].
      specialize (Horph _ Ho). lia. }
    destruct (shape_new_root orph1 orph lvl1 (with_nodes h3 t1) p N pk)
      as (h4 & h5 & Hm4 & Hm5 & Hsh5 & Hex5 & Hlm5).
    + exact Hsh3.
    + done.
    + simpl. unfold N. lia.
    + unfold N. lia.
    + rewrite HlvlN, Hlvl1 by done. done.
    + intros x [->|?]; [by left|by right].
    + done.
    + simpl in Hm4, Hm5, Hsh5, Hex5, Hlm5.
      rewrite Hlen3 in Hm4, Hm5, Hsh5, Hlm5.
      unfold alloc. rewrite Hlen3.
      assert (S N = S (length (nodes t))) as HSN by (unfold N; lia).
      rewrite Hm4. cbn [mbind option_bind]. rewrite Hm5. cbn [mbind option_bind].
      eexists _, _. split_and!; [done|exact Hsh5| | |].
      * simpl. eapply extends_trans; [exact Hex1|]. eapply extends_trans; [exact Hex3|done].
      * intros x Hx. rewrite lvl_with_old by lia. by apply Hlvl1.
      * simpl. intros Hlm. apply Hlm5. rewrite Hroot.
        eapply lmost_extends; [|exact Hlm].
        eapply extends_trans; [exact Hex1|exact Hex3].
Qed.

End insert_into_parent.

Section leaf_split.
Local Open Scope nat_scope.
Import btree.

Implicit Types (h : list Node) (n : Node) (t : BTree) (lvl : nat → nat) (orph : nat → Prop).

(** The spine of the tree: which nodes are leaves, and the first child
    of each internal node. This is all that the leftmost descent
    reads. *)
Lemma lmost_spine h h' id :
  (∀ i n, h !! i = Some n →
     ∃ n', h' !! i = Some n' ∧ isLeaf n' = isLeaf n
         ∧ (isLeaf n = false → children n' !! 0 = children n !! 0)) →
  lmost h id → lmost h' id.
Proof.
  intros Hsp. induction 1 as [n Hn Hl|id n c Hn Hl Hc _ IH].
  - destruct (Hsp _ _ Hn) as (n' & Hn' & Hf & _).
    eapply lmost_leaf; [done|congruence].
  - destruct (Hsp _ _ Hn) as (n' & Hn' & Hf & Hfirst).
    eapply lmost_node; [done|congruence| |done]. rewrite Hfirst by done. done.
Qed.

Lemma sorted_first_below (ks : list bytes) k0 k i :
  StronglySorted key_lt ks → ks !! 0 = Some k0 → ks !! i = Some k → 0 < i → key_lt k0 k.
Proof.
  destruct ks as [|k0' ks]; [done|]. intros Hs [= ->] Hk Hi.
  apply StronglySorted_cons in Hs as [Hall _]. rewrite Forall_forall in Hall.
  apply Hall. destruct i; [lia|]. simpl in Hk. by eapply list_elem_of_lookup_2.
Qed.

Lemma leaf_ok_halves n mid :
  leaf_ok n →
  leaf_ok (set_next (next n) (set_values (drop mid (values n))
                                (set_keys (drop mid (keys n)) newLeafNode)))
  ∧ ∀ nx, leaf_ok (set_next nx (set_values (take mid (values n))
                                  (set_keys (take mid (keys n)) n))).
Proof.
  intros [Hv Hs Hne].
  rewrite <- (take_drop mid (keys n)) in Hs.
  apply StronglySorted_app in Hs as (_ & Hl & Hr).
  split; [|intros nx]; split; simpl.
  - rewrite !length_drop. lia.
  - done.
  - by apply Forall_drop.
  - rewrite !length_take. lia.
  - done.
  - by apply Forall_take.
Qed.

(** [splitLeaf] on a leaf that holds at least three keys. The arena
    after the split extends the arena [h2] in which the leaf has been
    cut in two and nothing else has happened yet. *)
Lemma splitLeaf_ok fuel lvl t leaf n :
  shape (λ _, False) lvl t →
  nodes t !! leaf = Some n →
  isLeaf n = true →
  3 ≤ length (keys n) →
  lvl (root t) < fuel →
  let mid := length (keys n) / 2 in
  let nr := set_next (next n) (set_values (drop mid (values n))
                                 (set_keys (drop mid (keys n)) newLeafNode)) in
  let nl := set_next (Some (length (nodes t)))
              (set_values (take mid (values n)) (set_keys (take mid (keys n)) n)) in
  let h2 := <[leaf := nl]> (nodes t ++ [nr]) in
  ∃ t' lvl',
    splitLeaf fuel t leaf = Some t'
    ∧ shape (λ _, False) lvl' t'
    ∧ extends h2 (nodes t')
    ∧ (lmost (nodes t) (root t) → lmost (nodes t') (root t')).
Proof.
  intros Hsh Hn Hleaf Hlen3 Hfuel mid nr nl h2.
  pose proof (sh_nodes _ _ _ Hsh _ _ Hn) as Hok.
  pose proof (lookup_lt_Some _ _ _ Hn) as Hlt.
  pose proof (nk_data _ _ _ _ _ _ Hok Hleaf) as Hdata.
  destruct (leaf_ok_halves n mid Hdata) as [Hokr Hokl].
  assert (lvl leaf = 0) as Hl0 by (by apply (nk_leaf _ _ _ _ _ _ Hok)).
  assert (1 ≤ mid ∧ mid < length (keys n)) as [Hmid1 Hmid2].
  { unfold mid. split; [apply Nat.div_le_lower_bound; lia|apply Nat.div_lt; lia]. }
  set (N := length (nodes t)) in *.
  set (orph1 := λ x, x = N).
  set (lvl1 := lvl_with lvl N 0).
  assert (Hlvl1 : ∀ x, x < length (nodes t) → lvl1 x = lvl x).
  { intros x Hx. apply lvl_with_old. unfold N. lia. }
  assert (HlvlN : lvl1 N = 0) by apply lvl_with_new.
  assert (Hsh1 : shape orph1 lvl1 (with_nodes (nodes t ++ [nr]) t)).
  { apply shape_alloc with (orph := λ _, False); [done|lia|done|].
    split; simpl; try done.
    intros _. by right. }
  assert (Hsh2 : shape orph1 lvl1 (with_nodes h2 t)).
  { apply (shape_update _ _ (with_nodes (nodes t ++ [nr]) t)); [done| |].
    - simpl. rewrite length_app. lia.
    - pose proof (sh_nodes _ _ _ Hsh1 leaf n) as Hok1. simpl in Hok1.
      rewrite lookup_alloc_old in Hok1 by done. specialize (Hok1 Hn).
      destruct Hok1 as [H1 H2 H3 H4 H5 H6].
      split; simpl; try done; try (intros ?; congruence).
      intros _. apply Hokl. }
  assert (Hlen2 : length h2 = S (length (nodes t))).
  { unfold h2. rewrite length_insert, length_app. simpl. lia. }
  assert (Hl2 : h2 !! leaf = Some nl).
  { unfold h2. apply list_lookup_insert_eq. rewrite length_app. lia. }
  assert (HN2 : h2 !! N = Some nr).
  { unfold h2. rewrite list_lookup_insert_ne by (unfold N; lia). apply lookup_alloc_new. }
  assert (Hspine : lmost (nodes t) (root t) → lmost h2 (root t)).
  { apply lmost_spine. intros i n0 Hn0. destruct (decide (i = leaf)) as [->|Hne].
    - exists nl. rewrite Hl2. split; [done|]. rewrite Hn in Hn0. injection Hn0 as <-.
      split; [done|]. congruence.
    - exists n0. unfold h2. rewrite list_lookup_insert_ne by done.
      rewrite lookup_alloc_old by (by eapply lookup_lt_Some). done. }
  destruct (lookup_lt_is_Some_2 (keys n) mid Hmid2) as [pk Hpk].
  assert (drop mid (keys n) !! 0 = Some pk) as Hpk0.
  { rewrite lookup_drop, Nat.add_0_r. done. }
  assert (sep_ok pk) as Hsep.
  { destruct (lookup_lt_is_Some_2 (keys n) 0) as [k0 Hk0]; [lia|].
    apply (sep_ok_above k0).
    - pose proof (lo_nonempty _ Hdata) as Hne. rewrite Forall_lookup in Hne. by eapply Hne.
    - eapply sorted_first_below; [apply Hdata|done|done|lia]. }
  unfold splitLeaf. rewrite Hn. cbn [mbind option_bind]. unfold alloc.
  assert (Hm : ∀ f, modify (nodes t ++ [nr]) leaf f = Some (<[leaf := f n]> (nodes t ++ [nr]))).
  { intros f. unfold modify. rewrite lookup_alloc_old by done. by rewrite Hn. }
  fold mid. fold nr. rewrite Hm. cbn [mbind option_bind].
  fold N. fold nl. fold h2. rewrite Hpk0. cbn [mbind option_bind].
  rewrite Hl2. cbn [mbind option_bind].
  change (parent nl) with (parent n).
  destruct (parent n) as [p|] eqn:Hpar.
  - destruct (nk_parent _ _ _ _ _ _ Hok p Hpar) as [Hp Hlp].
    destruct (insertIntoParent_ok fuel orph1 lvl1 (with_nodes h2 t) p pk N)
      as (t3 & lvl3 & Hrec & Hsh3 & Hex3 & Hlvl3 & Hlm3).
    + done.
    + simpl. lia.
    + simpl. unfold N. lia.
    + rewrite HlvlN, Hlvl1 by done. lia.
    + intros x ->. rewrite HlvlN, Hlvl1 by done. lia.
    + done.
    + simpl. rewrite Hlvl1 by apply Hsh. lia.
    + rewrite Hrec. cbn [mbind option_bind]. simpl in Hex3, Hlvl3, Hlm3.
      destruct (ex_old _ _ Hex3 leaf nl Hl2) as (n3 & Hn3 & Hfr3).
      rewrite Hn3. cbn [mbind option_bind].
      destruct (parent n3) as [q|] eqn:Hq.
      2: { exfalso. eapply (nf_parent _ _ Hfr3); [|done]. simpl. by rewrite Hpar. }
      pose proof (ex_len _ _ Hex3) as Hlen3'.
      destruct (modify_total (nodes t3) N (set_parent (Some q))) as (nN & HnN & ->);
        [unfold N; lia|].
      cbn [mbind option_bind].
      destruct (nk_parent _ _ _ _ _ _ (sh_nodes _ _ _ Hsh3 _ _ Hn3) q Hq) as [Hq1 Hq2].
      set (t5 := with_nodes (<[N := set_parent (Some q) nN]> (nodes t3)) t3).
      assert (Hsh5 : shape orph1 lvl3 t5).
      { apply shape_update; [done|unfold N; lia|].
        eapply node_ok_set_parent; [by apply (sh_nodes _ _ _ Hsh3)|done|].
        rewrite Hq2, !Hlvl3 by (rewrite Hlen2; unfold N; lia).
        rewrite HlvlN, Hlvl1 by done. lia. }
      exists t5, lvl3. split_and!; [done| | |].
      * eapply shape_orph; [exact Hsh5|].
        intros id n0 Hn0 Hnone ->. unfold t5 in Hn0. simpl in Hn0.
        rewrite list_lookup_insert_eq in Hn0 by (unfold N; lia).
        injection Hn0 as <-. done.
      * eapply extends_trans; [exact Hex3|].
        eapply extends_update; [done|apply node_frame_set_parent].
      * intros Hlm. eapply lmost_extends.
        -- eapply (extends_update (nodes t3)); [done|apply node_frame_set_parent].
        -- apply Hlm3. by apply Hspine.
  - assert (leaf = root t) as Hroot.
    { by destruct (nk_noparent _ _ _ _ _ _ Hok Hpar). }
    destruct (shape_new_root orph1 (λ _, False) lvl1 (with_nodes h2 t) leaf N pk)
      as (h4 & h5 & Hm4 & Hm5 & Hsh5 & Hex5 & Hlm5).
    + done.
    + done.
    + simpl. unfold N. lia.
    + unfold N. lia.
    + rewrite HlvlN, Hlvl1 by done. lia.
    + intros x ->. by left.
    + done.
    + simpl in Hm4, Hm5, Hsh5, Hex5, Hlm5.
      rewrite Hlen2 in Hm4, Hm5, Hsh5, Hlm5. rewrite Hlen2.
      rewrite Hm4. cbn [mbind option_bind]. rewrite Hm5. cbn [mbind option_bind].
      eexists _, _. split_and!; [done|exact Hsh5|done|].
      simpl. intros Hlm. apply Hlm5. rewrite Hroot. by apply Hspine.
Qed.

End leaf_split.

(** ** The chain of leaves *)

Section chain.
Local Open Scope nat_scope.
Import btree.

Implicit Types (h : list Node) (n : Node) (t : BTree) (ids pre post : list nat).

Lemma leaf_keys_lookup h id n :
  h !! id = Some n → leaf_keys h id = keys n ∧ leaf_values h id = values n.
Proof. intros Hn. unfold leaf_keys, leaf_values. by rewrite Hn. Qed.

Lemma chain_cons h id ids :
  chain_keys h (id :: ids) = leaf_keys h id ++ chain_keys h ids
  ∧ chain_values h (id :: ids) = leaf_values h id ++ chain_values h ids.
Proof. unfold chain_keys, chain_values. by rewrite !bind_cons. Qed.

Lemma chain_app h ids1 ids2 :
  chain_keys h (ids1 ++ ids2) = chain_keys h ids1 ++ chain_keys h ids2
  ∧ chain_values h (ids1 ++ ids2) = chain_values h ids1 ++ chain_values h ids2.
Proof. unfold chain_keys, chain_values. by rewrite !bind_app. Qed.

Lemma chain_agree h h' ids :
  (∀ id, id ∈ ids → h' !! id = h !! id) →
  chain_keys h' ids = chain_keys h ids ∧ chain_values h' ids = chain_values h ids.
Proof.
  induction ids as [|id ids IH]; intros Hag; [done|].
  destruct (chain_cons h id ids) as [-> ->].
  destruct (chain_cons h' id ids) as [-> ->].
  destruct IH as [-> ->]; [intros; apply Hag; set_solver|].
  unfold leaf_keys, leaf_values. rewrite Hag by set_solver. done.
Qed.

Lemma linked_agree h h' start ids :
  (∀ id, id ∈ ids → h' !! id = h !! id) → linked h start ids → linked h' start ids.
Proof.
  revert start. induction ids as [|id ids IH]; intros start Hag; simpl; [done|].
  intros (-> & n & Hn & Hl & Hrest). split; [done|]. exists n.
  rewrite Hag by set_solver. split_and!; [done..|]. apply IH; [|done].
  intros; apply Hag; set_solver.
Qed.

Lemma linked_tail h start pre id post n :
  linked h start (pre ++ id :: post) → h !! id = Some n → linked h (next n) post.
Proof.
  revert start. induction pre as [|x pre IH]; intros start; simpl.
  - intros (-> & n' & Hn' & _ & Hrest) Hn. congruence.
  - intros (-> & n' & Hn' & _ & Hrest) Hn. by eapply IH.
Qed.

Lemma linked_replace h h' start pre id post post' n' :
  linked h start (pre ++ id :: post) →
  (∀ x, x ∈ pre → h' !! x = h !! x) →
  h' !! id = Some n' → isLeaf n' = true →
  linked h' (next n') post' →
  linked h' start (pre ++ id :: post').
Proof.
  revert start. induction pre as [|x pre IH]; intros start; simpl.
  - intros (-> & _) _ Hn' Hl Hrest. split; [done|]. eauto.
  - intros (-> & nx & Hnx & Hlx & Hrest) Hag Hn' Hl Hrest'. split; [done|].
    exists nx. rewrite Hag by set_solver. split_and!; [done..|].
    apply IH; [done| |done..]. intros; apply Hag; set_solver.
Qed.

Lemma linked_lt h start ids id : linked h start ids → id ∈ ids → id < length h.
Proof.
  intros Hlk Hin. destruct (linked_leaf _ _ _ _ Hlk Hin) as (n & Hn & _).
  by eapply lookup_lt_Some.
Qed.

Lemma tree_inv_split_ids t ids leaf n :
  tree_inv t ids → nodes t !! leaf = Some n → isLeaf n = true →
  ∃ pre post, ids = pre ++ leaf :: post ∧ (leaf ∉ pre) ∧ (leaf ∉ post).
Proof.
  intros Hinv Hn Hl.
  destruct (list_elem_of_split ids leaf) as (pre & post & ->);
    [by eapply (ti_leaves _ _ Hinv)|].
  pose proof (ti_nodup _ _ Hinv) as Hnd.
  apply NoDup_app in Hnd as (_ & Hdis & Hnd2).
  apply NoDup_cons in Hnd2 as [Hnot _].
  exists pre, post. split_and!; [done| |done].
  intros Hin. apply (Hdis _ Hin). set_solver.
Qed.

(** Rewriting the data of one leaf in place. *)
Lemma leaf_update_inv t ids leaf n n1 :
  tree_inv t ids →
  nodes t !! leaf = Some n → isLeaf n = true →
  isLeaf n1 = true → leaf_ok n1 →
  children n1 = children n → next n1 = next n → parent n1 = parent n →
  tree_inv (with_nodes (<[leaf := n1]> (nodes t)) t) ids.
Proof.
  intros Hinv Hn Hl Hl1 Hok1 Hc1 Hx1 Hp1.
  pose proof (lookup_lt_Some _ _ _ Hn) as Hlt.
  destruct (tree_inv_split_ids _ _ _ _ Hinv Hn Hl) as (pre & post & -> & Hpre & Hpost).
  destruct Hinv as [[lvl Hsh] Hlm Hlk Hnd Hlv]. split; simpl.
  - exists lvl. apply shape_update; [done..|].
    destruct (sh_nodes _ _ _ Hsh _ _ Hn) as [H1 H2 H3 H4 H5 H6].
    split; try done; rewrite ?Hl1, ?Hp1; try done; try (intros ?; congruence).
    rewrite <- H1. by rewrite Hl.
  - eapply lmost_spine; [|done]. intros i n0 Hn0.
    destruct (decide (i = leaf)) as [->|Hne].
    + exists n1. rewrite list_lookup_insert_eq by done. split; [done|].
      rewrite Hn in Hn0. injection Hn0 as <-. split; [congruence|]. congruence.
    + exists n0. rewrite list_lookup_insert_ne by done. done.
  - eapply linked_replace; [done| | |done|].
    + intros x Hx. rewrite list_lookup_insert_ne; [done|]. intros ->. done.
    + by apply list_lookup_insert_eq.
    + rewrite Hx1. eapply linked_agree; [|by eapply linked_tail].
      intros x Hx. rewrite list_lookup_insert_ne; [done|]. intros ->. done.
  - done.
  - intros id n0 Hn0 Hl0. destruct (decide (id = leaf)) as [->|Hne].
    + set_solver.
    + rewrite list_lookup_insert_ne in Hn0 by done. by eapply Hlv.
Qed.

Lemma leaf_update_chain h ids pre post leaf n1 :
  ids = pre ++ leaf :: post → leaf ∉ pre → leaf ∉ post → leaf < length h →
  chain_keys (<[leaf := n1]> h) ids = chain_keys h pre ++ keys n1 ++ chain_keys h post
  ∧ chain_values (<[leaf := n1]> h) ids
    = chain_values h pre ++ values n1 ++ chain_values h post.
Proof.
  intros -> Hpre Hpost Hlt.
  destruct (chain_app (<[leaf := n1]> h) pre (leaf :: post)) as [-> ->].
  destruct (chain_cons (<[leaf := n1]> h) leaf post) as [-> ->].
  destruct (leaf_keys_lookup (<[leaf := n1]> h) leaf n1) as [-> ->];
    [by apply list_lookup_insert_eq|].
  destruct (chain_agree h (<[leaf := n1]> h) pre) as [-> ->].
  { intros x Hx. rewrite list_lookup_insert_ne; [done|]. intros ->. done. }
  destruct (chain_agree h (<[leaf := n1]> h) post) as [-> ->].
  { intros x Hx. rewrite list_lookup_insert_ne; [done|]. intros ->. done. }
  done.
Qed.

Lemma chain_at h ids pre post leaf n :
  ids = pre ++ leaf :: post → h !! leaf = Some n →
  chain_keys h ids = chain_keys h pre ++ keys n ++ chain_keys h post
  ∧ chain_values h ids = chain_values h pre ++ values n ++ chain_values h post.
Proof.
  intros -> Hn.
  destruct (chain_app h pre (leaf :: post)) as [-> ->].
  destruct (chain_cons h leaf post) as [-> ->].
  destruct (leaf_keys_lookup h leaf n Hn) as [-> ->]. done.
Qed.

(** Splitting a leaf keeps the invariant and the contents of the chain. *)
Lemma split_inv t ids leaf n :
  tree_inv t ids →
  nodes t !! leaf = Some n → isLeaf n = true →
  3 ≤ length (keys n) →
  ∃ t' ids',
    splitLeaf (S (length (nodes t))) t leaf = Some t'
    ∧ tree_inv t' ids'
    ∧ chain_keys (nodes t') ids' = chain_keys (nodes t) ids
    ∧ chain_values (nodes t') ids' = chain_values (nodes t) ids.
Proof.
  intros Hinv Hn Hl Hlen3.
  pose proof (lookup_lt_Some _ _ _ Hn) as Hlt.
  destruct (tree_inv_split_ids _ _ _ _ Hinv Hn Hl) as (pre & post & Hids & Hpre & Hpost).
  destruct Hinv as [[lvl Hsh] Hlm Hlk Hnd Hlv].
  destruct (splitLeaf_ok (S (length (nodes t))) lvl t leaf n Hsh Hn Hl Hlen3)
    as (t' & lvl' & Hsplit & Hsh' & Hex & Hlm').
  { pose proof (sh_height _ _ _ Hsh). lia. }
  set (mid := length (keys n) / 2) in *.
  set (N := length (nodes t)) in *.
  set (nr := set_next (next n) (set_values (drop mid (values n))
                                  (set_keys (drop mid (keys n)) newLeafNode))) in *.
  set (nl := set_next (Some N) (set_values (take mid (values n))
                                  (set_keys (take mid (keys n)) n))) in *.
  set (h2 := <[leaf := nl]> (nodes t ++ [nr])) in *.
  assert (Hold : ∀ x, x ∈ ids → x ≠ leaf → h2 !! x = nodes t !! x).
  { intros x Hx Hne. unfold h2. rewrite list_lookup_insert_ne by done.
    apply lookup_alloc_old. by eapply linked_lt. }
  assert (Hl2 : h2 !! leaf = Some nl).
  { unfold h2. apply list_lookup_insert_eq. rewrite length_app. lia. }
  assert (HN2 : h2 !! N = Some nr).
  { unfold h2. rewrite list_lookup_insert_ne by (unfold N; lia). apply lookup_alloc_new. }
  assert (HNids : N ∉ ids).
  { intros Hin. pose proof (linked_lt _ _ _ _ Hlk Hin). unfold N in *. lia. }
  set (ids' := pre ++ leaf :: N :: post).
  assert (Hlk2 : linked h2 (Some 0) ids').
  { subst ids. eapply linked_replace; [exact Hlk| |exact Hl2|done|].
    - intros x Hx. apply Hold; [set_solver|]. intros ->. done.
    - simpl. split; [done|]. exists nr. split_and!; [done|done|]. simpl.
      eapply linked_agree; [|by eapply linked_tail].
      intros x Hx. apply Hold; [set_solver|]. intros ->. done. }
  exists t', ids'. split_and!; [done| | |].
  - split.
    + by exists lvl'.
    + by apply Hlm'.
    + by eapply linked_extends.
    + subst ids. unfold ids'. apply NoDup_app in Hnd as (Hnd1 & Hdis & Hnd2).
      apply NoDup_cons in Hnd2 as [Hnot Hnd3].
      apply NoDup_app. split_and!; [done| |].
      * intros x Hx [->|[->|Hin]%elem_of_cons]%elem_of_cons.
        -- done.
        -- apply HNids. set_solver.
        -- apply (Hdis x Hx). set_solver.
      * apply NoDup_cons. split; [|apply NoDup_cons; split; [|done]].
        -- intros [->|Hin]%elem_of_cons; [unfold N in *; lia|done].
        -- intros Hin. apply HNids. set_solver.
    + eapply leaves_extends; [exact Hex|].
      intros id n0 Hn0 Hl0. destruct (decide (id = leaf)) as [->|Hne1]; [set_solver|].
      destruct (decide (id = N)) as [->|Hne2]; [set_solver|].
      unfold h2 in Hn0. rewrite list_lookup_insert_ne in Hn0 by done.
      assert (id < length (nodes t)).
      { apply lookup_lt_Some in Hn0. rewrite length_app in Hn0. simpl in Hn0.
        unfold N in *. lia. }
      rewrite lookup_alloc_old in Hn0 by done.
      pose proof (Hlv _ _ Hn0 Hl0) as Hin. subst ids. unfold ids'. set_solver.
  - destruct (chain_extends _ _ _ _ Hex Hlk2) as [-> _].
    destruct (chain_at (nodes t) ids pre post leaf n Hids Hn) as [-> _].
    unfold ids'.
    destruct (chain_app h2 pre (leaf :: N :: post)) as [-> _].
    destruct (chain_cons h2 leaf (N :: post)) as [-> _].
    destruct (chain_cons h2 N post) as [-> _].
    destruct (leaf_keys_lookup h2 leaf nl Hl2) as [-> _].
    destruct (leaf_keys_lookup h2 N nr HN2) as [-> _].
    destruct (chain_agree (nodes t) h2 pre) as [-> _].
    { intros x Hx. apply Hold; [subst ids; set_solver|]. intros ->. done. }
    destruct (chain_agree (nodes t) h2 post) as [-> _].
    { intros x Hx. apply Hold; [subst ids; set_solver|]. intros ->. done. }
    simpl. rewrite (app_assoc (take mid (keys n))), take_drop. done.
  - destruct (chain_extends _ _ _ _ Hex Hlk2) as [_ ->].
    destruct (chain_at (nodes t) ids pre post leaf n Hids Hn) as [_ ->].
    unfold ids'.
    destruct (chain_app h2 pre (leaf :: N :: post)) as [_ ->].
    destruct (chain_cons h2 leaf (N :: post)) as [_ ->].
    destruct (chain_cons h2 N post) as [_ ->].
    destruct (leaf_keys_lookup h2 leaf nl Hl2) as [_ ->].
    destruct (leaf_keys_lookup h2 N nr HN2) as [_ ->].
    destruct (chain_agree (nodes t) h2 pre) as [_ ->].
    { intros x Hx. apply Hold; [subst ids; set_solver|]. intros ->. done. }
    destruct (chain_agree (nodes t) h2 post) as [_ ->].
    { intros x Hx. apply Hold; [subst ids; set_solver|]. intros ->. done. }
    simpl. rewrite (app_assoc (take mid (values n))), take_drop. done.
Qed.

End chain.

(** ** Tree operations on a tree that satisfies the invariant *)

Section tree_ops.
Local Open Scope nat_scope.
Import btree.

Implicit Types (h : list Node) (n : Node) (t : BTree) (ids pre post : list nat).

Lemma insertIntoLeaf_node_ok n key value :
  leaf_ok n → key ≠ [] →
  ∃ n1,
    insertIntoLeaf_node n key value = Some n1
    ∧ isLeaf n1 = isLeaf n ∧ children n1 = children n
    ∧ next n1 = next n ∧ parent n1 = parent n
    ∧ leaf_ok n1
    ∧ match index_of key (keys n) with
      | Some i =>
          ∃ old, values n !! i = Some old
               ∧ keys n1 = keys n ∧ values n1 = <[i := value]> (values n)
      | None =>
          keys n1 = insert_at (insert_pos key (keys n)) key (keys n)
          ∧ values n1 = insert_at (insert_pos key (keys n)) value (values n)
      end.
Proof.
  intros [Hv Hs Hne] Hkey. unfold insertIntoLeaf_node.
  pose proof (insert_pos_le key (keys n)) as Hpos.
  destruct (index_of key (keys n)) as [i|] eqn:Hidx.
  - pose proof (insert_pos_index_of _ _ _ Hs Hidx) as ->.
    pose proof (index_of_Some _ _ _ Hidx) as Hki. rewrite Hki.
    rewrite (proj2 (bytes_Equal_true key key)) by done.
    pose proof (lookup_lt_Some _ _ _ Hki) as Hlt.
    rewrite (proj2 (Nat.ltb_lt i (length (values n)))) by lia.
    destruct (lookup_lt_is_Some_2 (values n) i) as [old Hold]; [lia|].
    eexists. split_and!; [done..| |eauto].
    split; simpl; [by rewrite length_insert|done|done].
  - pose proof (index_of_None _ _ Hidx) as Hnot.
    assert (Hins : leaf_ok (set_values (insert_at (insert_pos key (keys n)) value (values n))
                     (set_keys (insert_at (insert_pos key (keys n)) key (keys n)) n))).
    { split; simpl.
      - rewrite !length_insert_at by lia. lia.
      - by apply sorted_insert_at.
      - by apply Forall_insert_at. }
    destruct (keys n !! insert_pos key (keys n)) as [k|] eqn:Hk.
    + assert (bytes_Equal key k = false) as ->.
      { apply not_true_is_false. rewrite bytes_Equal_true. intros ->.
        apply Hnot. by eapply list_elem_of_lookup_2. }
      eexists. split_and!; done.
    + eexists. split_and!; done.
Qed.

Lemma key_nonempty_length (key : bytes) : key ≠ [] → (length key =? 0) = false.
Proof. destruct key; [done|]. done. Qed.

(** [Insert] with a non-empty key returns; in the leaf that [findLeaf]
    reaches it either overwrites the value stored under the key or adds
    one entry. *)
Lemma Insert_ok t ids key value :
  tree_inv t ids → key ≠ [] →
  ∃ leaf n t' ids',
    findLeaf t key = Some leaf ∧ nodes t !! leaf = Some n ∧ isLeaf n = true
    ∧ Insert t key value = Ok t'
    ∧ tree_inv t' ids'
    ∧ match index_of key (keys n) with
      | Some i =>
          ∃ old, values n !! i = Some old
               ∧ length (chain_keys (nodes t') ids') = length (chain_keys (nodes t) ids)
               ∧ sum_len (chain_values (nodes t') ids')
                 = (sum_len (chain_values (nodes t) ids) + (blen value - blen old))%Z
      | None =>
          length (chain_keys (nodes t') ids') = S (length (chain_keys (nodes t) ids))
          ∧ sum_len (chain_values (nodes t') ids')
            = (sum_len (chain_values (nodes t) ids) + blen value)%Z
      end.
Proof.
  intros Hinv Hkey.
  destruct (ti_shape _ _ Hinv) as [lvl Hsh].
  destruct (findLeaf_total _ _ _ key Hsh) as (leaf & n & Hfind & Hn & Hl).
  pose proof (lookup_lt_Some _ _ _ Hn) as Hlt.
  pose proof (nk_data _ _ _ _ _ _ (sh_nodes _ _ _ Hsh _ _ Hn) Hl) as Hdata.
  destruct (insertIntoLeaf_node_ok n key value Hdata Hkey)
    as (n1 & Hins & Hl1 & Hc1 & Hx1 & Hp1 & Hok1 & Heff).
  set (t1 := with_nodes (<[leaf := n1]> (nodes t)) t).
  assert (Hinv1 : tree_inv t1 ids).
  { eapply leaf_update_inv; [done|done|done|congruence|done..]. }
  assert (Hn1 : nodes t1 !! leaf = Some n1) by (by apply list_lookup_insert_eq).
  destruct (tree_inv_split_ids _ _ _ _ Hinv Hn Hl) as (pre & post & Hids & Hpre & Hpost).
  destruct (leaf_update_chain (nodes t) ids pre post leaf n1 Hids Hpre Hpost Hlt)
    as [Hk1 Hv1].
  destruct (chain_at (nodes t) ids pre post leaf n Hids Hn) as [Hk0 Hv0].
  assert (Hstep : ∃ t' ids',
            Insert t key value = Ok t' ∧ tree_inv t' ids'
            ∧ chain_keys (nodes t') ids' = chain_keys (nodes t1) ids
            ∧ chain_values (nodes t') ids' = chain_values (nodes t1) ids).
  { unfold Insert. rewrite key_nonempty_length by done. rewrite Hfind.
    cbn [mbind option_bind]. unfold insertIntoLeaf. rewrite Hn.
    cbn [mbind option_bind]. rewrite Hins. cbn [mbind option_bind].
    fold t1. rewrite Hn1. cbn [mbind option_bind].
    destruct (order t1 <=? Z.of_nat (length (keys n1)))%Z eqn:Hfull.
    - apply Z.leb_le in Hfull. pose proof (sh_order _ _ _ Hsh) as Hord.
      destruct (split_inv t1 ids leaf n1 Hinv1 Hn1) as (t' & ids' & Hsp & Hinv' & Hk' & Hv').
      { congruence. }
      { simpl in Hfull. lia. }
      rewrite Hsp. by exists t', ids'.
    - by exists t1, ids. }
  destruct Hstep as (t' & ids' & HI & Hinv' & Hk' & Hv').
  exists leaf, n, t', ids'. split_and!; [done..|].
  rewrite Hk', Hv'. simpl. rewrite Hk1, Hv1, Hk0, Hv0.
  rewrite !length_app, !sum_len_app.
  destruct (index_of key (keys n)) as [i|].
  - destruct Heff as (old & Hold & -> & ->). exists old. split_and!; [done..|].
    rewrite (sum_len_update _ _ _ _ Hold). lia.
  - destruct Heff as [-> ->].
    pose proof (insert_pos_le key (keys n)).
    rewrite length_insert_at by done. rewrite sum_len_insert_at. lia.
Qed.

Lemma Get_ok t ids key :
  tree_inv t ids → key ≠ [] →
  ∃ leaf n,
    findLeaf t key = Some leaf ∧ nodes t !! leaf = Some n ∧ isLeaf n = true
    ∧ match index_of key (keys n) with
      | Some i => ∃ v, values n !! i = Some v ∧ Get t key = Some (Some v)
      | None => Get t key = Some None
      end.
Proof.
  intros Hinv Hkey.
  destruct (ti_shape _ _ Hinv) as [lvl Hsh].
  destruct (findLeaf_total _ _ _ key Hsh) as (leaf & n & Hfind & Hn & Hl).
  pose proof (nk_data _ _ _ _ _ _ (sh_nodes _ _ _ Hsh _ _ Hn) Hl) as Hdata.
  exists leaf, n. split_and!; [done..|].
  unfold Get. rewrite key_nonempty_length by done. rewrite Hfind.
  cbn [mbind option_bind]. rewrite Hn. cbn [mbind option_bind].
  destruct (index_of key (keys n)) as [i|] eqn:Hidx; [|done].
  pose proof (lookup_lt_Some _ _ _ (index_of_Some _ _ _ Hidx)) as Hlt.
  destruct (lookup_lt_is_Some_2 (values n) i) as [v Hv]; [rewrite (lo_values _ Hdata); lia|].
  exists v. rewrite Hv. done.
Qed.

(** [Delete] of a key that the lookup loop finds removes one entry. *)
Lemma Delete_ok t ids key leaf n i old :
  tree_inv t ids → key ≠ [] →
  findLeaf t key = Some leaf → nodes t !! leaf = Some n → isLeaf n = true →
  index_of key (keys n) = Some i → values n !! i = Some old →
  ∃ t',
    Delete t key = Ok t'
    ∧ tree_inv t' ids
    ∧ S (length (chain_keys (nodes t') ids)) = length (chain_keys (nodes t) ids)
    ∧ sum_len (chain_values (nodes t') ids)
      = (sum_len (chain_values (nodes t) ids) - blen old)%Z.
Proof.
  intros Hinv Hkey Hfind Hn Hl Hidx Hold.
  destruct (ti_shape _ _ Hinv) as [lvl Hsh].
  pose proof (lookup_lt_Some _ _ _ Hn) as Hlt.
  pose proof (nk_data _ _ _ _ _ _ (sh_nodes _ _ _ Hsh _ _ Hn) Hl) as [Hv Hs Hne].
  pose proof (lookup_lt_Some _ _ _ (index_of_Some _ _ _ Hidx)) as Hi.
  set (n1 := set_values (remove_at i (values n)) (set_keys (remove_at i (keys n)) n)).
  assert (leaf_ok n1) as Hok1.
  { split; simpl.
    - rewrite !length_remove_at by lia. lia.
    - by apply sorted_remove_at.
    - unfold remove_at. apply Forall_app. split; [by apply Forall_take|by apply Forall_drop]. }
  exists (with_nodes (<[leaf := n1]> (nodes t)) t). split_and!.
  - unfold Delete. rewrite key_nonempty_length by done. rewrite Hfind, Hn, Hidx.
    rewrite (proj2 (Nat.ltb_lt i (length (values n)))) by lia. done.
  - eapply leaf_update_inv; [done|done|done|done|done|done..].
  - simpl.
    destruct (tree_inv_split_ids _ _ _ _ Hinv Hn Hl) as (pre & post & Hids & Hpre & Hpost).
    destruct (leaf_update_chain (nodes t) ids pre post leaf n1 Hids Hpre Hpost Hlt) as [-> _].
    destruct (chain_at (nodes t) ids pre post leaf n Hids Hn) as [-> _].
    rewrite !length_app. simpl. rewrite length_remove_at by lia. lia.
  - simpl.
    destruct (tree_inv_split_ids _ _ _ _ Hinv Hn Hl) as (pre & post & Hids & Hpre & Hpost).
    destruct (leaf_update_chain (nodes t) ids pre post leaf n1 Hids Hpre Hpost Hlt) as [_ ->].
    destruct (chain_at (nodes t) ids pre post leaf n Hids Hn) as [_ ->].
    rewrite !sum_len_app. simpl. rewrite (sum_len_remove_at _ _ _ Hold). lia.
Qed.

Lemma NewBTree_inv (ord : Z) : tree_inv (NewBTree ord) [0].
Proof.
  split; simpl.
  - exists (λ _, 0). split; simpl.
    + lia.
    + intros. lia.
    + lia.
    + destruct (Z.ltb_spec ord 3); lia.
    + intros [|id] n Hn; [|done]. injection Hn as <-.
      split; simpl; try done.
      * intros _. by left.
      * intros _. split; simpl; [done|constructor|constructor].
  - by eapply lmost_leaf.
  - split; [done|]. exists newLeafNode. done.
  - apply NoDup_singleton.
  - intros [|id] n Hn _; [set_solver|done].
Qed.

(** *** The full scan *)

Lemma range_leaf_all ks vs acc :
  length vs = length ks → Forall (λ k, k ≠ []) ks →
  range_leaf ks vs [x00] None acc = Some (inr (acc.1 ++ ks, acc.2 ++ vs)).
Proof.
  revert vs acc. induction ks as [|k ks IH]; intros vs acc Hlen Hne; simpl.
  - destruct vs; [|done]. rewrite !app_nil_r. by destruct acc.
  - destruct vs as [|v vs]; [done|].
    apply Forall_cons in Hne as [Hk Hne].
    pose proof (nonempty_above_zero k Hk) as Hge.
    rewrite (proj2 (Z.leb_le 0 (bytes_Compare k [x00]))) by done.
    rewrite IH by (simpl in Hlen; (lia || done)). simpl.
    by rewrite <- !app_assoc.
Qed.

Lemma range_chain_all fuel h start ids acc :
  linked h start ids →
  (∀ id n, id ∈ ids → h !! id = Some n → leaf_ok n) →
  length ids ≤ fuel →
  range_chain fuel h start [x00] None acc
    = Some (acc.1 ++ chain_keys h ids, acc.2 ++ chain_values h ids).
Proof.
  revert fuel start acc. induction ids as [|id ids IH]; intros fuel start acc Hlk Hok Hfuel.
  - simpl in Hlk. subst start. unfold chain_keys, chain_values. simpl.
    rewrite !app_nil_r. by destruct fuel, acc.
  - destruct Hlk as (-> & n & Hn & Hl & Hrest).
    destruct fuel as [|fuel]; [simpl in Hfuel; lia|].
    destruct (chain_cons h id ids) as [-> ->].
    destruct (leaf_keys_lookup h id n Hn) as [-> ->].
    cbn [range_chain]. rewrite Hn. cbn [mbind option_bind].
    destruct (Hok id n) as [Hv Hs Hne]; [by left|done|].
    rewrite range_leaf_all by done. cbn [mbind option_bind].
    rewrite (IH fuel (next n)); [|done| |simpl in Hfuel; lia].
    + simpl. by rewrite <- !app_assoc.
    + intros id0 n0 Hin0 Hn0. apply (Hok id0 n0); [by right|done].
Qed.

Lemma descend_pos_first (ks : list bytes) : Forall sep_ok ks → descend_pos [x00] ks = 0.
Proof.
  destruct ks as [|k ks]; [done|]. intros [Hk _]%Forall_cons. cbn [descend_pos].
  unfold sep_ok in Hk. destruct (Z.leb_spec 0 (bytes_Compare [x00] k)); [lia|done].
Qed.

Lemma findLeaf_first orph lvl t fuel id :
  shape orph lvl t → lmost (nodes t) id → lvl id < fuel →
  findLeaf_from fuel (nodes t) id [x00] = Some 0.
Proof.
  intros Hsh Hlm. revert fuel. induction Hlm as [n Hn Hl|id n c Hn Hl Hc _ IH];
    intros fuel Hfuel; (destruct fuel as [|fuel]; [lia|]); simpl; rewrite Hn; simpl;
    rewrite Hl; [done|].
  destruct (sh_nodes _ _ _ Hsh _ _ Hn) as [_ H2 _ _ H5 _].
  rewrite descend_pos_first by auto. rewrite Hc. simpl.
  apply IH. destruct (H2 Hl) as [_ Hk].
  destruct (Hk c) as [_ Hlc]; [by eapply list_elem_of_lookup_2|]. lia.
Qed.

Lemma nodup_bounded (ids : list nat) (m : nat) :
  NoDup ids → (∀ x, x ∈ ids → x < m) → length ids ≤ m.
Proof.
  intros Hnd Hlt. transitivity (length (seq 0 m)); [|by rewrite length_seq].
  apply submseteq_length, NoDup_submseteq; [done|].
  intros x Hx. apply elem_of_seq. specialize (Hlt x Hx). lia.
Qed.

(** On a tree that satisfies the invariant, the range query from
    [[00]] without upper bound returns the whole leaf chain. *)
Lemma Range_full t ids :
  tree_inv t ids →
  Range t [x00] None = Some (chain_keys (nodes t) ids, chain_values (nodes t) ids).
Proof.
  intros [[lvl Hsh] Hlm Hlk Hnd Hlv]. unfold Range, findLeaf.
  rewrite (findLeaf_first _ _ _ _ _ Hsh Hlm) by (pose proof (sh_height _ _ _ Hsh); lia).
  cbn [mbind option_bind].
  rewrite (range_chain_all _ _ _ ids); [done|done| |].
  - intros id n Hin Hn. destruct (linked_leaf _ _ _ _ Hlk Hin) as (n' & Hn' & Hl').
    rewrite Hn in Hn'. injection Hn' as <-.
    by apply (nk_data _ _ _ _ _ _ (sh_nodes _ _ _ Hsh _ _ Hn)).
  - apply nodup_bounded; [done|]. intros x Hx. by eapply linked_lt.
Qed.

Lemma chain_lengths t ids :
  tree_inv t ids →
  length (chain_values (nodes t) ids) = length (chain_keys (nodes t) ids).
Proof.
  intros [[lvl Hsh] Hlm Hlk Hnd Hlv]. clear Hnd Hlv Hlm. revert Hlk.
  generalize (Some 0). induction ids as [|id ids IH]; intros start; [done|].
  intros (-> & n & Hn & Hl & Hrest).
  destruct (chain_cons (nodes t) id ids) as [-> ->].
  destruct (leaf_keys_lookup _ _ _ Hn) as [-> ->].
  rewrite !length_app.
  rewrite (lo_values _ (nk_data _ _ _ _ _ _ (sh_nodes _ _ _ Hsh _ _ Hn) Hl)).
  by rewrite (IH _ Hrest).
Qed.

End tree_ops.

(** ** The record store *)

Section record_store.
Import btree.

Lemma wrap64_add (a b : Z) : wrap64 (wrap64 a + b) = wrap64 (a + b).
Proof.
  unfold wrap64.
  replace ((a + 2 ^ 63) mod 2 ^ 64 - 2 ^ 63 + b + 2 ^ 63)
    with ((a + 2 ^ 63) mod 2 ^ 64 + b) by lia.
  rewrite Zplus_mod_idemp_l. f_equal. f_equal. lia.
Qed.

Lemma wrap64_small (a : Z) : - 2 ^ 63 ≤ a < 2 ^ 63 → wrap64 a = a.
Proof. intros Ha. unfold wrap64. rewrite Z.mod_small; lia. Qed.

Lemma NewRecordStore_inv ns : rs_inv (NewRecordStore ns).
Proof. exists [0%nat]. split; [apply NewBTree_inv|]. done. Qed.

Lemma Truncate_inv rs : rs_inv (Truncate rs).
Proof. exists [0%nat]. split; [apply NewBTree_inv|]. done. Qed.

Lemma Get_empty t : Get t [] = Some None.
Proof. done. Qed.

Lemma Insert_empty t v : Insert t [] v = Err ErrEmptyKey.
Proof. done. Qed.

Lemma Delete_empty t : Delete t [] = Err ErrEmptyKey.
Proof. done. Qed.

Lemma InsertRecord_inv rs rid d :
  rs_inv rs →
  match InsertRecord rs rid d with
  | Ok rs' => rs_inv rs'
  | Err _ => True
  | Stuck => False
  end.
Proof.
  intros (ids & Hinv & Hnum & Hsize). unfold InsertRecord.
  destruct (IsNull rid); [done|].
  destruct (AsBytes rid) as [key ok]. destruct ok; simpl; [|done].
  destruct (decide (key = [])) as [->|Hkey].
  { by rewrite Get_empty, Insert_empty. }
  destruct (Insert_ok _ _ key d Hinv Hkey)
    as (leaf & n & t' & ids' & Hfind & Hn & Hl & HI & Hinv' & Heff).
  destruct (Get_ok _ _ key Hinv Hkey) as (leaf2 & n2 & Hfind2 & Hn2 & _ & HG).
  rewrite Hfind in Hfind2. injection Hfind2 as <-.
  rewrite Hn in Hn2. injection Hn2 as <-.
  destruct (index_of key (keys n)) as [i|].
  - destruct HG as (v & _ & ->). done.
  - rewrite HG, HI. destruct Heff as [Hk Hv].
    exists ids'. split; [done|]. simpl. rewrite Hk, Hv, Hnum, Hsize, !wrap64_add.
    split; f_equal; lia.
Qed.

Lemma UpdateRecord_inv rs rid d :
  rs_inv rs →
  match UpdateRecord rs rid d with
  | Ok rs' => rs_inv rs'
  | Err _ => True
  | Stuck => False
  end.
Proof.
  intros (ids & Hinv & Hnum & Hsize). unfold UpdateRecord.
  destruct (IsNull rid); [done|].
  destruct (AsBytes rid) as [key ok]. destruct ok; simpl; [|done].
  destruct (decide (key = [])) as [->|Hkey].
  { by rewrite Get_empty. }
  destruct (Insert_ok _ _ key d Hinv Hkey)
    as (leaf & n & t' & ids' & Hfind & Hn & Hl & HI & Hinv' & Heff).
  destruct (Get_ok _ _ key Hinv Hkey) as (leaf2 & n2 & Hfind2 & Hn2 & _ & HG).
  rewrite Hfind in Hfind2. injection Hfind2 as <-.
  rewrite Hn in Hn2. injection Hn2 as <-.
  destruct (index_of key (keys n)) as [i|].
  - destruct HG as (v & Hv & ->). rewrite HI.
    destruct Heff as (old & Hold & Hk & Hs).
    rewrite Hv in Hold. injection Hold as <-.
    exists ids'. split; [done|]. simpl. rewrite Hk, Hs, Hnum, Hsize, !wrap64_add.
    done.
  - by rewrite HG.
Qed.

Lemma DeleteRecord_inv rs rid :
  rs_inv rs →
  match DeleteRecord rs rid with
  | Ok rs' => rs_inv rs'
  | Err _ => True
  | Stuck => False
  end.
Proof.
  intros (ids & Hinv & Hnum & Hsize). unfold DeleteRecord.
  destruct (IsNull rid); [done|].
  destruct (AsBytes rid) as [key ok]. destruct ok; simpl; [|done].
  destruct (decide (key = [])) as [->|Hkey].
  { by rewrite Get_empty. }
  destruct (Get_ok _ _ key Hinv Hkey) as (leaf & n & Hfind & Hn & Hl & HG).
  destruct (index_of key (keys n)) as [i|] eqn:Hidx.
  - destruct HG as (v & Hv & ->).
    destruct (Delete_ok _ _ key leaf n i v Hinv Hkey Hfind Hn Hl Hidx Hv)
      as (t' & -> & Hinv' & Hk & Hs).
    exists ids. split; [done|]. simpl. rewrite Hs, Hnum, Hsize, !wrap64_add.
    split; f_equal; lia.
  - by rewrite HG.
Qed.

Lemma rs_run_inv ops : ∀ rs, rs_inv rs → ∃ rs', rs_run rs ops = Some rs' ∧ rs_inv rs'.
Proof.
  induction ops as [|op ops IH]; intros rs Hinv; simpl; [by eauto|].
  assert (Hstep : match rs_step rs op with
                  | Ok rs' => rs_inv rs'
                  | Err _ => True
                  | Stuck => False
                  end).
  { destruct op; simpl.
    - by apply InsertRecord_inv.
    - by apply UpdateRecord_inv.
    - by apply DeleteRecord_inv.
    - apply Truncate_inv. }
  destruct (rs_step rs op); [by apply IH|by apply IH|done].
Qed.

(** The cursor over a materialised result walks all of it. *)
Lemma cursor_loop_spec (ks vs : list bytes) (k : nat) (m : nat) :
  length vs = length ks →
  (length ks - k ≤ m)%nat →
  cursor_loop m {| c_keys := ks; c_values := vs; c_index := Z.of_nat k - 1 |}
    = zip (NewRecordIdFromBytes <$> drop k ks) (drop k vs).
Proof.
  intros Hlen. revert k. induction m as [|m IH]; intros k Hm.
  - simpl. rewrite drop_ge by lia. done.
  - cbn [cursor_loop]. unfold cursor_Next. cbn [c_index c_keys c_values].
    replace (Z.of_nat k - 1 + 1) with (Z.of_nat k) by lia.
    destruct (Z.ltb_spec (Z.of_nat k) (Z.of_nat (length ks))) as [Hlt|Hge].
    + destruct (lookup_lt_is_Some_2 ks k) as [key Hkey]; [lia|].
      destruct (lookup_lt_is_Some_2 vs k) as [v Hv]; [lia|].
      rewrite (drop_S _ _ _ Hkey), (drop_S _ _ _ Hv). simpl.
      unfold cursor_RecordId, cursor_Data. cbn [c_index c_keys c_values].
      rewrite (proj2 (Z.ltb_ge (Z.of_nat k) 0)) by lia. simpl.
      rewrite (proj2 (Z.leb_gt (Z.of_nat (length ks)) (Z.of_nat k))) by lia.
      rewrite (proj2 (Z.leb_gt (Z.of_nat (length vs)) (Z.of_nat k))) by lia.
      rewrite Nat2Z.id, Hkey, Hv. f_equal.
      replace (Z.of_nat k) with (Z.of_nat (S k) - 1) by lia.
      apply IH. lia.
    + rewrite !drop_ge by lia. done.
Qed.

Lemma cursor_all_spec (ks vs : list bytes) :
  length vs = length ks →
  cursor_all {| c_keys := ks; c_values := vs; c_index := -1 |}
    = zip (NewRecordIdFromBytes <$> ks) vs.
Proof.
  intros Hlen. unfold cursor_all. simpl.
  apply (cursor_loop_spec ks vs 0 (length ks) Hlen). lia.
Qed.

Lemma Scan_full rs ids :
  tree_inv (rs_tree rs) ids →
  ∃ c, Scan rs NullRecordId = Ok c
     ∧ length (cursor_all c) = length (chain_keys (nodes (rs_tree rs)) ids)
     ∧ (cursor_all c).*2 = chain_values (nodes (rs_tree rs)) ids.
Proof.
  intros Hinv. unfold Scan. simpl. rewrite (Range_full _ _ Hinv).
  eexists. split; [done|].
  pose proof (chain_lengths _ _ Hinv) as Hlen.
  rewrite cursor_all_spec by done. split.
  - rewrite length_zip_with, length_fmap. lia.
  - rewrite snd_zip; [done|]. rewrite length_fmap. lia.
Qed.

(** C6. After any sequence of InsertRecord, UpdateRecord, DeleteRecord
    and Truncate on a new record store (operations that return an
    error change nothing, and none of them panics), a full scan
    returns; [NumRecords] is the number of records the scan yields and
    [DataSize] the sum of the lengths of their payloads, as 64-bit
    integers, hence exactly so whenever these totals are below 2^63. *)
Theorem C6_counters_agree_with_scan (ns : string) (ops : list rs_op) :
  ∃ rs c,
    rs_run (NewRecordStore ns) ops = Some rs
    ∧ Scan rs NullRecordId = Ok c
    ∧ NumRecords rs = wrap64 (Z.of_nat (length (cursor_all c)))
    ∧ DataSize rs = wrap64 (sum_len (cursor_all c).*2)
    ∧ (Z.of_nat (length (cursor_all c)) < 2 ^ 63 →
       NumRecords rs = Z.of_nat (length (cursor_all c)))
    ∧ (sum_len (cursor_all c).*2 < 2 ^ 63 →
       DataSize rs = sum_len (cursor_all c).*2).
Proof.
  destruct (rs_run_inv ops _ (NewRecordStore_inv ns)) as (rs & Hrun & ids & Hinv & Hnum & Hsize).
  destruct (Scan_full rs ids Hinv) as (c & Hscan & Hlen & Hvals).
  exists rs, c. unfold NumRecords, DataSize. rewrite Hlen, Hvals.
  split_and!; [done..| |].
  - intros Hlt. rewrite Hnum. apply wrap64_small. lia.
  - intros Hlt. rewrite Hsize. apply wrap64_small. split; [|done].
    assert (∀ vs, 0 ≤ sum_len vs) as Hpos.
    { induction vs as [|v vs IH]; simpl; [done|]. unfold blen. lia. }
    specialize (Hpos (chain_values (nodes (rs_tree rs)) ids)). lia.
Qed.

End record_store.

(** Witness of C6: the counters after [demo_ops] are those of the scan,
    two records and three bytes. *)
Lemma C6_witness :
  ∃ rs c,
    rs_run (NewRecordStore "testdb.users") demo_ops = Some rs
    ∧ Scan rs NullRecordId = Ok c
    ∧ NumRecords rs = Z.of_nat (length (cursor_all c))
    ∧ DataSize rs = sum_len (cursor_all c).*2
    ∧ NumRecords rs = 2 ∧ DataSize rs = 3.
Proof.
  destruct (C6_counters_agree_with_scan "testdb.users" demo_ops)
    as (rs & c & Hrun & Hscan & _ & _ & Hn & Hd).
  exists rs, c. split; [exact Hrun|]. split; [exact Hscan|].
  vm_compute in Hrun. injection Hrun as <-.
  vm_compute in Hscan. injection Hscan as <-.
  split; [apply Hn; vm_compute; reflexivity|].
  split; [apply Hd; vm_compute; reflexivity|].
  split; reflexivity.
Defined.

(** * Range queries on a well-formed tree *)

Section key_order.

Lemma key_lt_le (a b : bytes) : key_lt a b → key_le a b.
Proof. unfold key_lt, key_le. lia. Qed.

Lemma key_le_cases (a b : bytes) : key_le a b → a = b ∨ key_lt a b.
Proof.
  unfold key_le, key_lt. intros Hle.
  destruct (decide (bytes_Compare a b = 0)) as [He|Hne]; [left; by apply bytes_Compare_eq|right; lia].
Qed.

Lemma key_le_lt_trans (a b c : bytes) : key_le a b → key_lt b c → key_lt a c.
Proof. intros [->|Hab]%key_le_cases Hbc; [done|by eapply key_lt_trans]. Qed.

Lemma key_lt_le_trans (a b c : bytes) : key_lt a b → key_le b c → key_lt a c.
Proof. intros Hab [<-|Hbc]%key_le_cases; [done|by eapply key_lt_trans]. Qed.

Lemma key_le_trans (a b c : bytes) : key_le a b → key_le b c → key_le a c.
Proof.
  intros [->|Hab]%key_le_cases Hbc; [done|].
  apply key_lt_le. by eapply key_lt_le_trans.
Qed.

Lemma key_le_ge (a b : bytes) : key_le a b ↔ 0 ≤ bytes_Compare b a.
Proof. unfold key_le. rewrite (bytes_Compare_antisym a b). lia. Qed.

Lemma key_lt_not_ge (a b : bytes) : key_lt a b → (0 <=? bytes_Compare a b) = false.
Proof. unfold key_lt. intros. apply Z.leb_gt. lia. Qed.

Lemma in_lo_trans lo a b : in_lo lo a → key_le a b → in_lo lo b.
Proof. destruct lo as [l|]; simpl; [|done]. apply key_le_trans. Qed.

Lemma in_hi_trans hi a b : key_le a b → in_hi hi b → in_hi hi a.
Proof. destruct hi as [u|]; simpl; [|done]. apply key_le_lt_trans. Qed.

(** A byte string is at least any of its prefixes. *)
Lemma key_le_prefix (a b : bytes) : key_le a (a ++ b).
Proof.
  unfold key_le. induction a as [|x a IH]; simpl.
  - destruct b; lia.
  - rewrite Z.ltb_irrefl. done.
Qed.

(** Two strings with different first blocks of equal length compare as
    these blocks do. *)
Lemma key_lt_block (p q a b : bytes) :
  length p = length q → key_lt p q → key_lt (p ++ a) (q ++ b).
Proof.
  unfold key_lt. revert q. induction p as [|x p IH]; intros [|y q]; simpl; try done.
  intros Hlen. destruct (byte_val x <? byte_val y); [done|].
  destruct (byte_val y <? byte_val x); [done|]. apply IH. lia.
Qed.

End key_order.

Section search_tree.
Local Open Scope nat_scope.
Import btree.

Implicit Types (h : list Node) (n : Node) (t : BTree) (ids leaves : list nat)
  (lo hi : option bytes).

Lemma forest_bounded h sub cs seps lo hi leaves :
  bounded h sub →
  forest sub cs seps lo hi leaves →
  ∀ L k, L ∈ leaves → k ∈ leaf_keys h L → in_lo lo k ∧ in_hi hi k.
Proof.
  intros Hsub. revert seps lo leaves.
  induction cs as [|c cs IH]; intros seps lo leaves; [done|].
  destruct seps as [|s seps]; cbn [forest].
  - intros [_ Hs]. by eauto.
  - intros (Hlo & Hhi & l1 & l2 & -> & H1 & H2) L k [HL|HL]%elem_of_app Hk.
    + destruct (Hsub _ _ _ _ H1 L k HL Hk) as [Hklo Hkhi]. split; [done|].
      simpl in Hkhi. eapply in_hi_trans; [|exact Hhi]. by apply key_lt_le.
    + destruct (IH _ _ _ H2 L k HL Hk) as [Hklo Hkhi]. split; [|done].
      simpl in Hklo. by eapply in_lo_trans.
Qed.

Lemma subtree_bounded fuel h : bounded h (subtree fuel h).
Proof.
  induction fuel as [|fuel IH]; intros id lo hi l; simpl; [done|].
  intros (n & Hn & Hcase) L k HL Hk. destruct (isLeaf n).
  - destruct Hcase as (-> & _ & Hall).
    apply list_elem_of_singleton in HL as ->.
    unfold leaf_keys in Hk. rewrite Hn in Hk.
    rewrite Forall_forall in Hall. by apply Hall.
  - by eapply forest_bounded.
Qed.

Lemma forest_leaves h sub cs seps lo hi leaves (P : nat → Prop) :
  (∀ c lo hi l, sub c lo hi l → ∀ L, L ∈ l → P L) →
  forest sub cs seps lo hi leaves → ∀ L, L ∈ leaves → P L.
Proof.
  intros Hsub. revert seps lo leaves.
  induction cs as [|c cs IH]; intros seps lo leaves; [done|].
  destruct seps as [|s seps]; cbn [forest].
  - intros [_ Hs]. by eauto.
  - intros (_ & _ & l1 & l2 & -> & H1 & H2) L [HL|HL]%elem_of_app; [by eauto|].
    by eapply IH.
Qed.

Lemma subtree_leaves fuel h id lo hi leaves :
  subtree fuel h id lo hi leaves →
  ∀ L, L ∈ leaves → ∃ n, h !! L = Some n ∧ isLeaf n = true ∧ leaf_ok n.
Proof.
  revert id lo hi leaves. induction fuel as [|fuel IH]; intros id lo hi leaves; simpl; [done|].
  intros (n & Hn & Hcase) L HL. destruct (isLeaf n) eqn:Hl.
  - destruct Hcase as (-> & Hok & _). apply list_elem_of_singleton in HL as ->. eauto.
  - eapply (forest_leaves h _ _ _ _ _ _
              (λ L, ∃ n, h !! L = Some n ∧ isLeaf n = true ∧ leaf_ok n));
      [|exact Hcase|exact HL].
    intros c lo' hi' l Hs L' HL'. by eapply IH.
Qed.

Lemma elem_of_chain_keys h ids k :
  k ∈ chain_keys h ids ↔ ∃ L, L ∈ ids ∧ k ∈ leaf_keys h L.
Proof. unfold chain_keys. rewrite list_elem_of_bind. naive_solver. Qed.

Lemma forest_sorted h sub cs seps lo hi leaves :
  bounded h sub →
  (∀ c lo hi l, sub c lo hi l → StronglySorted key_lt (chain_keys h l)) →
  forest sub cs seps lo hi leaves → StronglySorted key_lt (chain_keys h leaves).
Proof.
  intros Hb Hsub. revert seps lo leaves.
  induction cs as [|c cs IH]; intros seps lo leaves; [done|].
  destruct seps as [|s seps]; cbn [forest].
  - intros [_ Hs]. by eauto.
  - intros (_ & _ & l1 & l2 & -> & H1 & H2).
    destruct (chain_app h l1 l2) as [-> _].
    apply StronglySorted_app. split_and!; [|by eauto|by eapply IH].
    intros k1 k2 (L1 & HL1 & Hk1)%elem_of_chain_keys (L2 & HL2 & Hk2)%elem_of_chain_keys.
    destruct (Hb _ _ _ _ H1 L1 k1 HL1 Hk1) as [_ Hlt].
    destruct (forest_bounded h sub _ _ _ _ _ Hb H2 L2 k2 HL2 Hk2) as [Hge _].
    simpl in Hlt, Hge. by eapply key_lt_le_trans.
Qed.

(** The keys of the leaf chain of a search tree are in ascending
    order. *)
Lemma subtree_sorted fuel h id lo hi leaves :
  subtree fuel h id lo hi leaves → StronglySorted key_lt (chain_keys h leaves).
Proof.
  revert id lo hi leaves. induction fuel as [|fuel IH]; intros id lo hi leaves; simpl; [done|].
  intros (n & Hn & Hcase). destruct (isLeaf n).
  - destruct Hcase as (-> & Hok & _).
    destruct (chain_cons h id []) as [-> _].
    destruct (leaf_keys_lookup h id n Hn) as [-> _].
    unfold chain_keys. simpl. rewrite app_nil_r. apply Hok.
  - eapply forest_sorted; [apply subtree_bounded|by eauto|done].
Qed.

(** The choice of a child in [findLeaf]: the child chosen for [key] has
    [key] within its bounds, and the leaves to its left hold smaller
    keys only. *)
Lemma forest_descend h sub cs seps lo hi leaves key :
  bounded h sub →
  forest sub cs seps lo hi leaves →
  in_lo lo key → in_hi hi key →
  ∃ c lo' hi' l before after,
    cs !! descend_pos key seps = Some c
    ∧ sub c lo' hi' l ∧ in_lo lo' key ∧ in_hi hi' key
    ∧ leaves = before ++ l ++ after
    ∧ ∀ B k, B ∈ before → k ∈ leaf_keys h B → key_lt k key.
Proof.
  intros Hb. revert seps lo leaves.
  induction cs as [|c cs IH]; intros seps lo leaves; [done|].
  destruct seps as [|s seps]; cbn [forest].
  - intros [_ Hs] Hlo Hhi. exists c, lo, hi, leaves, [], [].
    split_and!; [done..|by rewrite app_nil_r|set_solver].
  - intros (Hslo & Hshi & l1 & l2 & -> & H1 & H2) Hlo Hhi. cbn [descend_pos].
    destruct (Z.leb_spec 0 (bytes_Compare key s)) as [Hge|Hlt].
    + destruct (IH seps (Some s) l2 H2) as (c0 & lo' & hi' & l & before & after
                                             & Hc0 & Hsub & Hlo' & Hhi' & -> & Hbefore).
      { simpl. by apply key_le_ge. }
      { done. }
      exists c0, lo', hi', l, (l1 ++ before), after.
      split_and!; [done..|by rewrite <- app_assoc|].
      intros B k [HB|HB]%elem_of_app Hk; [|by eauto].
      destruct (Hb _ _ _ _ H1 B k HB Hk) as [_ Hks]. simpl in Hks.
      eapply key_lt_le_trans; [done|]. by apply key_le_ge.
    + exists c, lo, (Some s), l1, [], l2.
      split_and!; [done|done|done| |done|set_solver].
      simpl. unfold key_lt. lia.
Qed.

Lemma subtree_descend fuel h id lo hi leaves key :
  subtree fuel h id lo hi leaves →
  in_lo lo key → in_hi hi key →
  ∃ L before after,
    findLeaf_from fuel h id key = Some L
    ∧ leaves = before ++ L :: after
    ∧ ∀ B k, B ∈ before → k ∈ leaf_keys h B → key_lt k key.
Proof.
  revert id lo hi leaves.
  induction fuel as [|fuel IH]; intros id lo hi leaves; cbn [subtree]; [done|].
  intros (n & Hn & Hcase) Hlo Hhi. cbn [findLeaf_from]. rewrite Hn. cbn [mbind option_bind].
  destruct (isLeaf n).
  - destruct Hcase as (-> & _ & _). exists id, [], []. split_and!; [done..|set_solver].
  - destruct (forest_descend h _ _ _ _ _ _ key (subtree_bounded fuel h) Hcase Hlo Hhi)
      as (c & lo' & hi' & l & before & after & Hc & Hsub & Hlo' & Hhi' & -> & Hbefore).
    rewrite Hc. cbn [mbind option_bind].
    destruct (IH _ _ _ _ Hsub Hlo' Hhi') as (L & before' & after' & -> & -> & Hbefore').
    exists L, (before ++ before'), (after' ++ after).
    split_and!; [done|by rewrite <- !app_assoc|].
    intros B k [HB|HB]%elem_of_app Hk; by eauto.
Qed.

End search_tree.

Section range_scan.
Local Open Scope nat_scope.
Import btree.

Implicit Types (h : list Node) (n : Node) (t : BTree) (ids leaves : list nat).

Lemma range_leaf_app ks1 vs1 ks2 vs2 s e acc :
  length vs1 = length ks1 →
  range_leaf (ks1 ++ ks2) (vs1 ++ vs2) s e acc =
    match range_leaf ks1 vs1 s e acc with
    | Some (inr acc') => range_leaf ks2 vs2 s e acc'
    | r => r
    end.
Proof.
  revert vs1 acc. induction ks1 as [|k ks1 IH]; intros [|v vs1] acc Hlen; try done.
  simpl in Hlen. cbn [app range_leaf].
  destruct (0 <=? bytes_Compare k s)%Z.
  - destruct (match e with Some e0 => (0 <=? bytes_Compare k e0)%Z | None => false end);
      [done|]. apply IH. lia.
  - simpl. apply IH. lia.
Qed.

Lemma range_leaf_acc ks vs s e acc :
  length vs = length ks →
  ∃ r, range_leaf ks vs s e acc = Some r ∧ ∀ y, y ∈ acc.1 → y ∈ (scanned r).1.
Proof.
  revert vs acc. induction ks as [|k ks IH]; intros [|v vs] acc Hlen; try done.
  - eexists. split; [done|]. done.
  - simpl in Hlen. cbn [range_leaf].
    destruct (0 <=? bytes_Compare k s)%Z.
    + destruct (match e with Some e0 => (0 <=? bytes_Compare k e0)%Z | None => false end).
      * eexists. split; [done|]. done.
      * destruct (IH vs (acc.1 ++ [k], acc.2 ++ [v])) as (r & Hr & Hacc); [lia|].
        exists r. split; [done|]. intros y Hy. apply Hacc. simpl. set_solver.
    + simpl. apply IH. lia.
Qed.

(** On ascending keys the scan of [[s, e)] collects every key of the
    range. *)
Lemma range_leaf_finds ks vs s e acc x :
  length vs = length ks →
  StronglySorted key_lt ks →
  x ∈ ks → key_le s x → key_lt x e →
  ∃ r, range_leaf ks vs s (Some e) acc = Some r ∧ x ∈ (scanned r).1.
Proof.
  revert vs acc. induction ks as [|k ks IH]; intros [|v vs] acc Hlen Hs Hx Hlo Hhi;
    try done; [set_solver|].
  simpl in Hlen. apply StronglySorted_cons in Hs as [Hall Hs].
  assert (key_le k x) as Hkx.
  { apply elem_of_cons in Hx as [->|Hx]; [unfold key_le; rewrite bytes_Compare_refl; lia|].
    rewrite Forall_forall in Hall. apply key_lt_le. by apply Hall. }
  cbn [range_leaf].
  destruct (Z.leb_spec 0 (bytes_Compare k s)) as [Hge|Hlt].
  - rewrite (key_lt_not_ge k e) by (by eapply key_le_lt_trans).
    apply elem_of_cons in Hx as [->|Hx].
    + destruct (range_leaf_acc ks vs s (Some e) (acc.1 ++ [k], acc.2 ++ [v]))
        as (r & Hr & Hacc); [lia|].
      exists r. split; [done|]. apply Hacc. simpl. set_solver.
    + apply IH; [lia|done..].
  - apply elem_of_cons in Hx as [->|Hx].
    + exfalso. apply key_le_ge in Hlo. lia.
    + simpl. apply IH; [lia|done..].
Qed.

Lemma chain_lengths_ok h ids :
  (∀ L, L ∈ ids → ∃ n, h !! L = Some n ∧ isLeaf n = true ∧ leaf_ok n) →
  length (chain_values h ids) = length (chain_keys h ids).
Proof.
  induction ids as [|id ids IH]; intros Hok; [done|].
  destruct (chain_cons h id ids) as [-> ->].
  destruct (Hok id) as (n & Hn & _ & Hlok); [by left|].
  destruct (leaf_keys_lookup h id n Hn) as [-> ->].
  rewrite !length_app, (lo_values _ Hlok), IH; [done|].
  intros L HL. apply Hok. by right.
Qed.

(** Following the chain is scanning the concatenation of its leaves. *)
Lemma range_chain_flat fuel h start ids s e acc :
  linked h start ids →
  (∀ L, L ∈ ids → ∃ n, h !! L = Some n ∧ isLeaf n = true ∧ leaf_ok n) →
  length ids ≤ fuel →
  range_chain fuel h start s e acc =
    scanned <$> range_leaf (chain_keys h ids) (chain_values h ids) s e acc.
Proof.
  revert fuel start acc. induction ids as [|id ids IH]; intros fuel start acc Hlk Hok Hfuel.
  - simpl in Hlk. subst start. by destruct fuel.
  - destruct Hlk as (-> & n & Hn & Hl & Hrest).
    destruct fuel as [|fuel]; [simpl in Hfuel; lia|].
    destruct (chain_cons h id ids) as [-> ->].
    destruct (leaf_keys_lookup h id n Hn) as [-> ->].
    destruct (Hok id) as (n' & Hn' & _ & Hlok); [by left|].
    rewrite Hn in Hn'. injection Hn' as <-.
    rewrite range_leaf_app by apply Hlok.
    cbn [range_chain]. rewrite Hn. cbn [mbind option_bind].
    destruct (range_leaf (keys n) (values n) s e acc) as [[out|acc']|]; [done| |done].
    cbn [mbind option_bind]. apply IH; [done| |simpl in Hfuel; lia].
    intros L HL. apply Hok. by right.
Qed.

Lemma linked_suffix h start before L after :
  linked h start (before ++ L :: after) → linked h (Some L) (L :: after).
Proof.
  revert start. induction before as [|b before IH]; intros start; simpl.
  - intros (-> & Hrest). by split.
  - intros (-> & n & Hn & Hl & Hrest). by eapply IH.
Qed.

(** On a well-formed tree [Range(s, e)] returns every stored key of
    [[s, e)]. *)
Lemma Range_finds t ids s e x :
  btree_wf t ids →
  x ∈ chain_keys (nodes t) ids → key_le s x → key_lt x e →
  ∃ ks vs, Range t s (Some e) = Some (ks, vs) ∧ x ∈ ks.
Proof.
  intros [Htree Hlk Hnd] Hx Hlo Hhi.
  destruct (subtree_descend _ _ _ _ _ _ s Htree) as (L & before & after & Hfind & Hids & Hbefore);
    [done..|].
  pose proof (subtree_leaves _ _ _ _ _ _ Htree) as Hleaves.
  pose proof (subtree_sorted _ _ _ _ _ _ Htree) as Hsorted.
  subst ids. destruct (chain_app (nodes t) before (L :: after)) as [Hkeys _].
  rewrite Hkeys in Hx, Hsorted.
  apply elem_of_app in Hx as [Hx|Hx].
  { exfalso. apply elem_of_chain_keys in Hx as (B & HB & Hk).
    apply (key_lt_irrefl s). eapply key_le_lt_trans; [exact Hlo|by eapply Hbefore]. }
  apply StronglySorted_app_1_r in Hsorted.
  assert (Hok : ∀ L0, L0 ∈ L :: after →
            ∃ n, nodes t !! L0 = Some n ∧ isLeaf n = true ∧ leaf_ok n).
  { intros L0 HL0. apply Hleaves. set_solver. }
  unfold Range, findLeaf. rewrite Hfind. cbn [mbind option_bind].
  rewrite (range_chain_flat _ _ _ (L :: after)); [|by eapply linked_suffix|done|].
  - destruct (range_leaf_finds (chain_keys (nodes t) (L :: after))
                (chain_values (nodes t) (L :: after)) s e ([], []) x)
      as (r & -> & Hin); [by apply chain_lengths_ok|done..|].
    simpl. destruct (scanned r) as [ks vs]. by exists ks, vs.
  - transitivity (length (before ++ L :: after)); [rewrite length_app; lia|].
    apply nodup_bounded; [done|]. intros y Hy. by eapply linked_lt.
Qed.

(** A key that [Get] finds is stored in the leaf chain. *)
Lemma Get_in_chain t ids x v :
  btree_wf t ids → Get t x = Some (Some v) → x ∈ chain_keys (nodes t) ids.
Proof.
  intros [Htree Hlk Hnd]. unfold Get, findLeaf.
  destruct (length x =? 0); [done|].
  destruct (subtree_descend _ _ _ _ _ _ x Htree) as (L & before & after & -> & Hids & _);
    [done..|].
  cbn [mbind option_bind].
  destruct (nodes t !! L) as [n|] eqn:Hn; [|done]. cbn [mbind option_bind].
  destruct (index_of x (keys n)) as [i|] eqn:Hidx; [|done]. intros _.
  apply elem_of_chain_keys. exists L. split; [subst ids; set_solver|].
  unfold leaf_keys. rewrite Hn. eapply list_elem_of_lookup_2. by apply index_of_Some.
Qed.

End range_scan.

(** ** Unique indexes *)

Section unique_index.
Import btree.

Lemma byte_val_of_Z (z : Z) : byte_val (byte_of_Z z) = z mod 256.
Proof.
  unfold byte_of_Z, byte_val.
  pose proof (Z.mod_pos_bound z 256 ltac:(lia)) as Hb.
  destruct (Byte.of_N (Z.to_N (z mod 256))) as [b|] eqn:E.
  - apply Byte.to_of_N in E. rewrite E. lia.
  - apply Byte.of_N_None_iff in E. lia.
Qed.

Lemma makeCompositeKey_be32 (key : bytes) (r : RecordId) :
  makeCompositeKey key r = be32 (blen key) ++ key ++ (AsBytes r).1.
Proof. done. Qed.

(** Big-endian prefixes compare as the lengths they encode. *)
Lemma be32_lt (n m : Z) : 0 ≤ n < m → m < 2 ^ 32 → key_lt (be32 n) (be32 m).
Proof.
  intros Hn Hm. unfold key_lt, be32. cbn [bytes_Compare].
  rewrite !byte_val_of_Z, !Z.shiftr_div_pow2 by lia.
  change (2 ^ 24) with 16777216. change (2 ^ 16) with 65536. change (2 ^ 8) with 256.
  change (2 ^ 32) with 4294967296 in Hm.
  repeat match goal with
         | |- context [ (?a <? ?b)%Z ] => destruct (Z.ltb_spec a b)
         end; try lia;
    exfalso; Z.to_euclidean_division_equations; lia.
Qed.

(** In a unique index whose tree is well
    formed and holds an entry for the non-empty application key [k]
    (one that [Get] finds under the composite key of [k] and some
    record id), [Insert(k, r)] with a non-null record id [r] returns
    the unique-constraint error; the index, and so [NumEntries], is
    left as it was, an [Err] result carrying no new state. The key is
    shorter than 2^32 - 1 bytes, so that its length prefix and that of
    the upper bound do not wrap. *)
Theorem unique_insert_rejected_when_well_formed (idx : BTreeIndex) (ids : list nat)
    (k : bytes) (r0 r : RecordId) (v : bytes) :
  unique idx = true →
  btree_wf (idx_tree idx) ids →
  Get (idx_tree idx) (makeCompositeKey k r0) = Some (Some v) →
  k ≠ [] →
  blen k < 2 ^ 32 - 1 →
  IsNull r = false →
  idx_Insert idx k r = Err (ErrUniqueViolation k)
  ∧ keyExists idx k = Some true.
Proof.
  intros Huniq Hwf Hget Hk Hlen Hr.
  assert (Hexists : keyExists idx k = Some true).
  { unfold keyExists.
    destruct (Range_finds (idx_tree idx) ids (makeCompositeKey k NullRecordId)
                (makeNextKey k) (makeCompositeKey k r0) Hwf)
      as (ks & vs & -> & Hin).
    - by eapply Get_in_chain.
    - rewrite !makeCompositeKey_be32. simpl (AsBytes NullRecordId).1.
      rewrite app_nil_r, (app_assoc _ k). apply key_le_prefix.
    - unfold makeNextKey. rewrite !makeCompositeKey_be32.
      apply key_lt_block; [done|]. apply be32_lt.
      + unfold blen. rewrite length_app. simpl. lia.
      + unfold blen in *. rewrite length_app. simpl. lia.
    - cbn [mbind option_bind]. f_equal. simpl. apply Z.ltb_lt.
      destruct ks; [set_solver|]. simpl. lia. }
  split; [|done]. unfold idx_Insert.
  rewrite key_nonempty_length by done. rewrite Hr, Huniq, Hexists. done.
Qed.

End unique_index.

Lemma one_entry_index_wf :
  ∃ idx, one_entry_index = Ok idx ∧ unique idx = true ∧ btree_wf (idx_tree idx) [0%nat]
       ∧ ∃ v, btree.Get (idx_tree idx) (makeCompositeKey [x6b] (NewRecordIdFromLong 1))
              = Some (Some v).
Proof.
  eexists. split; [vm_compute; reflexivity|]. split; [reflexivity|]. split.
  - split; simpl.
    + eexists. split; [reflexivity|]. simpl. split_and!; [done| |by repeat constructor].
      split; simpl; [done|by repeat constructor|].
      repeat constructor. discriminate.
    + split; [done|]. eexists. split_and!; reflexivity.
    + apply NoDup_singleton.
  - eexists. vm_compute. reflexivity.
Qed.

(** The check for a null record id comes before the uniqueness check:
    with the null record id the insert is refused as an invalid
    argument. *)
Lemma null_record_id_is_refused_first :
  ∃ idx v,
    one_entry_index = Ok idx ∧ unique idx = true
    ∧ btree.Get (idx_tree idx) (makeCompositeKey [x6b] (NewRecordIdFromLong 1))
      = Some (Some v)
    ∧ idx_Insert idx [x6b] NullRecordId = Err ErrNullRecordId
    ∧ idx_Insert idx [x6b] NullRecordId ≠ Err (ErrUniqueViolation [x6b]).
Proof.
  eexists _, _. split; [vm_compute; reflexivity|].
  split; [reflexivity|]. split; [vm_compute; reflexivity|].
  split; [reflexivity|discriminate].
Qed.

(** A second record for the key of [one_entry_index] is refused. *)
Lemma second_record_refused_in_small_index :
  ∃ idx, one_entry_index = Ok idx
       ∧ idx_Insert idx [x6b] (NewRecordIdFromLong 2) = Err (ErrUniqueViolation [x6b]).
Proof.
  destruct one_entry_index_wf as (idx & Hidx & Huniq & Hwf & v & Hget).
  exists idx. split; [exact Hidx|].
  apply (unique_insert_rejected_when_well_formed idx [0%nat] [x6b] (NewRecordIdFromLong 1)
           (NewRecordIdFromLong 2) v Huniq Hwf Hget).
  - discriminate.
  - vm_compute. reflexivity.
  - reflexivity.
Defined.

(** C4 on the code. A client inserts the 8321 entries of
    [crowding_entries], all with different application keys, into a new
    unique index; every insert returns nil. The 8320th of them is the
    entry of [used_key] for record 8320, and a range scan of the index
    from [used_key] yields that entry, once. Yet the uniqueness check
    does not see it: [keyExists] answers false, and [Insert] of
    [used_key] with another record id succeeds, takes [NumEntries] from
    8321 to 8322 and leaves the unique index with two entries for the
    same key. The cause is the
    split defect of [splitLeaf]: the entry is in a leaf that hangs under
    the wrong node, so the range query of the check starts one leaf to
    its left and stops at the six-byte key there, which lies beyond the
    upper bound of the query. *)
Theorem C4_unique_index_accepts_used_key :
  crowding_entries !! 8319%nat = Some (used_key, NewRecordIdFromLong 8320)
  ∧ match index_insert_all (NewSortedDataInterface "by_key" true) crowding_entries with
    | Ok idx =>
        Some (unique idx, NumEntries idx, entries_of idx used_key,
              keyExists idx used_key,
              match idx_Insert idx used_key (NewRecordIdFromLong 9000) with
              | Ok idx' => Some (NumEntries idx', entries_of idx' used_key)
              | _ => None
              end)
    | _ => None
    end
    = Some (true, 8321,
            Some [(Some used_key, NewRecordIdFromBytes (PutUint64 8320))],
            Some false,
            Some (8322,
                  Some [(Some used_key, NewRecordIdFromBytes (PutUint64 9000));
                        (Some used_key, NewRecordIdFromBytes (PutUint64 8320))])).
Proof. split; vm_compute; reflexivity. Qed.

(** ** The split defect in a store of order 128 *)

(** After [crowding_ops], all of which succeed, the record with id
    4098000 (the 4099th insert) is in a leaf that [findLeaf] no longer
    reaches: [GetRecord] reports it missing, and a second [InsertRecord]
    with the same id succeeds. The counters still follow the leaf
    chain. *)
Example record_lost_at_order_128 :
  crowding_ops !! 4098%nat = Some (OpInsert (NewRecordIdFromLong 4098000) [x61])
  ∧ (rs ← rs_run (NewRecordStore "db.c") crowding_ops;
     Some (NumRecords rs,
           GetRecord rs (NewRecordIdFromLong 4098000),
           match InsertRecord rs (NewRecordIdFromLong 4098000) [x62] with
           | Ok rs' => Some (NumRecords rs')
           | _ => None
           end))
    = Some (8320, Err ErrRecordMissing, Some 8321).
Proof. split; vm_compute; reflexivity. Qed.
